(** * graphql-core-legacy: the schema type map, the lexer contract and the
      unique-fragment-names rule

    The development follows the Python sources:
    - [graphql/type/typemap.py]            (class [GraphQLTypeMap]),
    - [graphql/validation/rules/unique_fragment_names.py],
    - [graphql/language/tests/test_lexer.py] (the lexer's test-suite; the lexer
      module itself is described by the specification only).

    [graphql/type/definition.py] and [graphql/utils/type_comparators.py],
    which the type map imports, are not among the sources; what the type map
    uses of them is modelled, and each such definition says so.

    Python objects are compared by identity, so the named types of a program
    are modelled as a finite set [addr] of object identities together with a
    [heap] that says what each object is.  Exceptions are values of [Result]. *)

From stdpp Require Import base option list gmap strings finite.
From Stdlib Require Import NArith Lia.

(** ** Exceptions and results *)

Inductive Exception : Type :=
| AssertionError (msg : string)
| AttributeError (attr : string)
| KeyError (key : string).

(** [OutOfFuel] is not a Python outcome: it marks a recursion that was cut by
    the fuel of the model, and is shown never to be the answer of a
    construction. *)
Inductive Result (A : Type) : Type :=
| Ok (a : A)
| Raise (e : Exception)
| OutOfFuel.

Arguments Ok {A} a.
Arguments Raise {A} e.
Arguments OutOfFuel {A}.

#[global] Instance Result_ret : MRet Result := λ A a, Ok a.

#[global] Instance Result_bind : MBind Result := λ A B k r,
  match r with
  | Ok a => k a
  | Raise e => Raise e
  | OutOfFuel => OutOfFuel
  end.

(** The call returned. *)
Definition is_Ok {A : Type} (res : Result A) : bool :=
  match res with Ok _ => true | _ => false end.

(** [assert cond, msg] *)
Definition assert (cond : bool) (msg : string) : Result unit :=
  if cond then Ok tt else Raise (AssertionError msg).

(** [for x in l: acc = f(acc, x)], stopping at the first exception. *)
Fixpoint foldM {A B : Type} (f : A → B → Result A) (acc : A) (l : list B)
  : Result A :=
  match l with
  | [] => Ok acc
  | x :: l' => acc' ← f acc x; foldM f acc' l'
  end.

(** [for x in l: f(x)] for a body that only checks. *)
Fixpoint forM_ {B : Type} (f : B → Result unit) (l : list B) : Result unit :=
  match l with
  | [] => Ok tt
  | x :: l' => f x;; forM_ f l'
  end.

(** Substring test used to state what an error message contains. *)
Definition contains (s sub : string) : Prop :=
  ∃ pre post, s = pre +:+ sub +:+ post.

(** The double-quote character, as a one-character string. *)
Definition dquote : string := String (Ascii.ascii_of_nat 34) EmptyString.

(** ** Insertion-ordered dictionaries with string keys

    [OrderedDict], and the plain [dict] of the field and argument maps, keep
    their items in insertion order; the implementer lists depend on it. *)
Module OrderedDict.
Definition t (V : Type) : Type := list (string * V).

Definition keys {V} (d : t V) : list string := d.*1.
Definition values {V} (d : t V) : list V := d.*2.

(** [d.get(k)] *)
Fixpoint get {V} (d : t V) (k : string) : option V :=
  match d with
  | [] => None
  | (k', v) :: d' => if decide (k' = k) then Some v else get d' k
  end.

(** [k in d] *)
Definition mem {V} (k : string) (d : t V) : bool := bool_decide (is_Some (get d k)).

(** [d[k] = v]: a known key keeps its place, a new key goes last. *)
Fixpoint set {V} (d : t V) (k : string) (v : V) : t V :=
  match d with
  | [] => [(k, v)]
  | (k', v') :: d' =>
      if decide (k' = k) then (k', v) :: d' else (k', v') :: set d' k v
  end.
End OrderedDict.

Abbreviation OrderedDict := OrderedDict.t.

(** ** Type definitions ([graphql/type/definition.py], as far as the type map
       looks at them) *)

(** A reference to a type: a named type object, or a wrapper around one. *)
Inductive GraphQLType (addr : Type) : Type :=
| Named (a : addr)
| GraphQLList (of_type : GraphQLType addr)
| GraphQLNonNull (of_type : GraphQLType addr).

Arguments Named {addr} a.
Arguments GraphQLList {addr} of_type.
Arguments GraphQLNonNull {addr} of_type.

Record GraphQLArgument (addr : Type) : Type :=
  { arg_type : GraphQLType addr }.

Arguments arg_type {addr} _.
Arguments Build_GraphQLArgument {addr} _.

(** The two classes whose instances occur as values of a [fields] map. *)
Inductive FieldDef (addr : Type) : Type :=
| GraphQLField (type : GraphQLType addr) (args : OrderedDict (GraphQLArgument addr))
| GraphQLInputObjectField (type : GraphQLType addr).

Arguments GraphQLField {addr} type args.
Arguments GraphQLInputObjectField {addr} type.

(** A named type, with what it was declared with: its field map, its list
    of interfaces, its list of member types.  The attributes [fields],
    [interfaces] and [types] of the type object are properties that check
    the declaration when they are read: see [get_fields], [get_interfaces]
    and [get_types]. *)
Inductive TypeDef (addr : Type) : Type :=
| GraphQLScalarType
| GraphQLEnumType
| GraphQLObjectType (fields : OrderedDict (FieldDef addr)) (interfaces : list addr)
| GraphQLInterfaceType (fields : OrderedDict (FieldDef addr))
| GraphQLUnionType (types : list addr)
| GraphQLInputObjectType (fields : OrderedDict (FieldDef addr)).

Arguments GraphQLScalarType {addr}.
Arguments GraphQLEnumType {addr}.
Arguments GraphQLObjectType {addr} fields interfaces.
Arguments GraphQLInterfaceType {addr} fields.
Arguments GraphQLUnionType {addr} types.
Arguments GraphQLInputObjectType {addr} fields.

Record NamedType (addr : Type) : Type :=
  { name : string; def : TypeDef addr }.

Arguments name {addr} _.
Arguments def {addr} _.
Arguments Build_NamedType {addr} _ _.

(** The state of a [GraphQLTypeMap] instance: the dictionary it is, and its
    two private attributes. *)
Record GraphQLTypeMap (addr : Type) : Type :=
  { items : OrderedDict addr;
    _possible_type_map : gmap string (gset string);
    _implementations : gmap string (list addr) }.

Arguments items {addr} _.
Arguments _possible_type_map {addr} _.
Arguments _implementations {addr} _.
Arguments Build_GraphQLTypeMap {addr} _ _ _.

Section TypeMap.
Context {addr : Type} `{Finite addr}.

(** What each type object is. *)
Variable heap : addr → NamedType addr.

(** [str(type_)], the text that [format] puts for a type in a message.  It
    is defined by definition.py, which is not among the sources, and is
    taken as given. *)
Variable to_str : GraphQLType addr → string.

Definition field_type (f : FieldDef addr) : GraphQLType addr :=
  match f with
  | GraphQLField type _ => type
  | GraphQLInputObjectField type => type
  end.

(** [field.args]; a [GraphQLInputObjectField] has no such attribute. *)
Definition field_args (f : FieldDef addr)
  : Result (OrderedDict (GraphQLArgument addr)) :=
  match f with
  | GraphQLField _ args => Ok args
  | GraphQLInputObjectField _ => Raise (AttributeError "args")
  end.

(** The field map a type was declared with, for the classes that have
    fields.  What reading [type_.fields] gives is [get_fields] below. *)
Definition declared_fields (d : TypeDef addr)
  : option (OrderedDict (FieldDef addr)) :=
  match d with
  | GraphQLObjectType fields _ => Some fields
  | GraphQLInterfaceType fields => Some fields
  | GraphQLInputObjectType fields => Some fields
  | _ => None
  end.

Fixpoint get_named_type (t : GraphQLType addr) : addr :=
  match t with
  | Named a => a
  | GraphQLList of_type => get_named_type of_type
  | GraphQLNonNull of_type => get_named_type of_type
  end.

(** Modelled from the spec: [is_input_type] of definition.py (scalars, enums,
    input-objects, lists/non-null thereof). *)
Definition is_input_type (t : GraphQLType addr) : bool :=
  match def (heap (get_named_type t)) with
  | GraphQLScalarType | GraphQLEnumType | GraphQLInputObjectType _ => true
  | _ => false
  end.

(** Modelled from the spec: [is_output_type] of definition.py (scalars,
    objects, interfaces, unions, enums, lists/non-null thereof). *)
Definition is_output_type (t : GraphQLType addr) : bool :=
  match def (heap (get_named_type t)) with
  | GraphQLInputObjectType _ => false
  | _ => true
  end.

Definition is_input_object (d : TypeDef addr) : bool :=
  match d with GraphQLInputObjectType _ => true | _ => false end.

Definition is_input_field (f : FieldDef addr) : bool :=
  match f with GraphQLInputObjectField _ => true | _ => false end.

Definition is_object_type (a : addr) : bool :=
  match def (heap a) with GraphQLObjectType _ _ => true | _ => false end.

Definition is_interface_type (a : addr) : bool :=
  match def (heap a) with GraphQLInterfaceType _ => true | _ => false end.

Definition is_union_type (a : addr) : bool :=
  match def (heap a) with GraphQLUnionType _ => true | _ => false end.

(** *** The properties [fields], [types] and [interfaces]

    In definition.py, which is not among the sources, these attributes are
    cached properties: the first read checks what the type was declared
    with and raises an [AssertionError] when the declaration is malformed;
    a read that succeeds returns the declared value, and every later read
    returns it again.  The type map meets these assertions wherever it
    reads one of the attributes (typemap.py:40, 46, 52, 99, 103, 109, 154
    and 155).

    The specification has no more on them than that "malformed
    field/argument definitions" are fatal schema build errors (section 7);
    the assertions below are those of [define_field_map],
    [GraphQLInputObjectType._define_field_map], [define_types] and
    [define_interfaces] of definition.py.  Two things that definition.py
    asserts in the same places are not part of the type objects modelled
    here: every type is taken to provide the function that resolves it at
    execution ([resolve_type] of an interface or union, [is_type_of] of an
    object type), and the name of a type, which is checked when the type
    object is created, is taken to be a valid name. *)

Definition is_name_start (c : Ascii.ascii) : bool :=
  let code := Ascii.N_of_ascii c in
  ((65 <=? code) && (code <=? 90) || (code =? 95)
   || (97 <=? code) && (code <=? 122))%N.

Definition is_name_continue (c : Ascii.ascii) : bool :=
  let code := Ascii.N_of_ascii c in
  is_name_start c || ((48 <=? code) && (code <=? 57))%N.

(** What may follow the first character of a name: name characters up to
    the end, where [$] of a Python pattern also matches before one last
    line feed. *)
Fixpoint is_name_rest (s : string) : bool :=
  match s with
  | EmptyString => true
  | String c s' =>
      if is_name_continue c then is_name_rest s'
      else bool_decide (c = Ascii.ascii_of_nat 10 ∧ s' = EmptyString)
  end.

(** [COMPILED_NAME_PATTERN.match(name)] for the pattern
    [^[_a-zA-Z][_a-zA-Z0-9]*$]. *)
Definition is_valid_name (name : string) : bool :=
  match name with
  | EmptyString => false
  | String c s' => is_name_start c && is_name_rest s'
  end.

(** Modelled from the spec: [assert_valid_name] of
    utils/assert_valid_name.py, which is not among the sources: a name is
    made of letters, digits and underscores and does not start with a
    digit. *)
Definition assert_valid_name (name : string) : Result unit :=
  assert (is_valid_name name)
    ("Names must match /^[_a-zA-Z][_a-zA-Z0-9]*$/ but " +:+ dquote +:+ name
       +:+ dquote +:+ " does not.").

(** The message for a type that was declared without a field. *)
Definition fields_must_be_a_mapping_message (type_ : addr) : string :=
  to_str (Named type_)
    +:+ " fields must be a mapping (dict / OrderedDict) with field names as keys or a "
    +:+ "function which returns such a mapping.".

(** Modelled from the spec: [define_field_map] of definition.py, behind the
    [fields] of an object or interface type: there is at least one field,
    every field has a valid name and is a [GraphQLField], and its arguments
    have valid names. *)
Definition define_field_map (type_ : addr) (field_map : OrderedDict (FieldDef addr))
  : Result (OrderedDict (FieldDef addr)) :=
  assert (bool_decide (field_map ≠ [])) (fields_must_be_a_mapping_message type_);;
  forM_ (λ '(field_name, field),
           assert_valid_name field_name;;
           match field with
           | GraphQLField _ args =>
               forM_ (λ '(arg_name, arg), assert_valid_name arg_name) args
           | GraphQLInputObjectField _ =>
               Raise (AssertionError
                 (to_str (Named type_) +:+ "." +:+ field_name
                    +:+ " must be an instance of GraphQLField."))
           end)
        field_map;;
  Ok field_map.

(** Modelled from the spec: [GraphQLInputObjectType._define_field_map] of
    definition.py, behind the [fields] of an input object type: there is at
    least one field, and every field has a valid name.  That the fields are
    [GraphQLInputObjectField]s is left to the reducer. *)
Definition define_input_field_map (type_ : addr)
    (field_map : OrderedDict (FieldDef addr))
  : Result (OrderedDict (FieldDef addr)) :=
  assert (bool_decide (field_map ≠ [])) (fields_must_be_a_mapping_message type_);;
  forM_ (λ '(field_name, field), assert_valid_name field_name) field_map;;
  Ok field_map.

(** [type_.fields]; scalar, enum and union types have no such attribute. *)
Definition get_fields (type_ : addr) : Result (OrderedDict (FieldDef addr)) :=
  match def (heap type_) with
  | GraphQLObjectType fields _ => define_field_map type_ fields
  | GraphQLInterfaceType fields => define_field_map type_ fields
  | GraphQLInputObjectType fields => define_input_field_map type_ fields
  | _ => Raise (AttributeError "fields")
  end.

(** The message for a union that was declared without a member. *)
Definition must_provide_types_message (union_type : addr) : string :=
  "Must provide types for Union " +:+ name (heap union_type) +:+ ".".

(** Modelled from the spec: [define_types] of definition.py, behind the
    [types] of a union: there is at least one member, and every member is
    an object type. *)
Definition define_types (union_type : addr) (types : list addr)
  : Result (list addr) :=
  assert (bool_decide (types ≠ [])) (must_provide_types_message union_type);;
  forM_ (λ type,
           assert (is_object_type type)
             (to_str (Named union_type)
                +:+ " may only contain Object types, it cannot contain: "
                +:+ to_str (Named type) +:+ "."))
        types;;
  Ok types.

(** [union_type.types]; only a union has the attribute. *)
Definition get_types (union_type : addr) : Result (list addr) :=
  match def (heap union_type) with
  | GraphQLUnionType types => define_types union_type types
  | _ => Raise (AttributeError "types")
  end.

(** Modelled from the spec: [define_interfaces] of definition.py, behind
    the [interfaces] of an object type: every listed type is an interface
    type. *)
Definition define_interfaces (type_ : addr) (interfaces : list addr)
  : Result (list addr) :=
  forM_ (λ interface,
           assert (is_interface_type interface)
             (to_str (Named type_)
                +:+ " may only implement Interface types, it cannot implement: "
                +:+ to_str (Named interface) +:+ "."))
        interfaces;;
  Ok interfaces.

(** [type_.interfaces]; only an object type has the attribute. *)
Definition get_interfaces (type_ : addr) : Result (list addr) :=
  match def (heap type_) with
  | GraphQLObjectType _ interfaces => define_interfaces type_ interfaces
  | _ => Raise (AttributeError "interfaces")
  end.

(** The message of the assertion at typemap.py:88. *)
Definition unique_named_types_message (type_name : string) : string :=
  "Schema must contain unique named types but contains multiple types named "
    +:+ dquote +:+ type_name +:+ dquote +:+ ".".

(** *** [GraphQLTypeMap.reducer] (typemap.py:78-144)

    [map_] is one dictionary, updated in place and handed back; it is
    threaded through the calls.  [fuel] bounds how deeply visits of named
    types may nest; a wrapper is peeled without using any. *)

(** The body of the loop over [field_map.items()] (typemap.py:111-142),
    with the recursive call as a parameter. *)
Definition reducer_field
    (reducer_ : OrderedDict addr → option (GraphQLType addr) → Result (OrderedDict addr))
    (type_ : addr) (type_is_input : bool)
    (reduced_map : OrderedDict addr) (item : string * FieldDef addr)
  : Result (OrderedDict addr) :=
  let '(field_name, field) := item in
  let type_s := to_str (Named type_) in
  reduced_map ←
    (if type_is_input then
       assert (is_input_field field)
         (type_s +:+ "." +:+ field_name
            +:+ " must be an instance of GraphQLInputObjectField.");;
       assert (is_input_type (field_type field))
         (type_s +:+ "." +:+ field_name
            +:+ " field type must be Input Type but got: "
            +:+ to_str (field_type field) +:+ ".");;
       Ok reduced_map
     else
       assert (is_output_type (field_type field))
         (type_s +:+ "." +:+ field_name
            +:+ " field type must be Output Type but got: "
            +:+ to_str (field_type field) +:+ ".");;
       args ← field_args field;
       foldM (λ reduced_map '(arg_name, arg),
                (* every value of an [args] map is a [GraphQLArgument]
                   here, so the [isinstance] assertion cannot fail *)
                assert (is_input_type (arg_type arg))
                  (type_s +:+ "." +:+ field_name +:+ "(" +:+ arg_name
                     +:+ ":) argument type must be Input Type but got: "
                     +:+ to_str (arg_type arg) +:+ ".");;
                reducer_ reduced_map (Some (arg_type arg)))
             reduced_map args);
  reducer_ reduced_map (Some (field_type field)).

(** What [reducer] does on a named type it has not returned early from
    (typemap.py:94-144). *)
Definition reducer_visit
    (reducer_ : OrderedDict addr → option (GraphQLType addr) → Result (OrderedDict addr))
    (map_ : OrderedDict addr) (type_ : addr) : Result (OrderedDict addr) :=
  let map_ := OrderedDict.set map_ (name (heap type_)) type_ in
  let reduced_map := map_ in
  reduced_map ←
    (if is_union_type type_ then
       types ← get_types type_;
       foldM (λ reduced_map t, reducer_ reduced_map (Some (Named t)))
             reduced_map types
     else Ok reduced_map);
  reduced_map ←
    (if is_object_type type_ then
       interfaces ← get_interfaces type_;
       foldM (λ reduced_map t, reducer_ reduced_map (Some (Named t)))
             reduced_map interfaces
     else Ok reduced_map);
  if is_object_type type_ || is_interface_type type_
     || is_input_object (def (heap type_)) then
    field_map ← get_fields type_;
    foldM (reducer_field reducer_ type_ (is_input_object (def (heap type_))))
          reduced_map field_map
  else Ok reduced_map.

Fixpoint reducer (fuel : nat) (map_ : OrderedDict addr)
    (type_ : option (GraphQLType addr)) {struct fuel}
  : Result (OrderedDict addr) :=
  match type_ with
  | None => Ok map_
  | Some type_ =>
      (fix peel (type_ : GraphQLType addr) : Result (OrderedDict addr) :=
         match type_ with
         | GraphQLList of_type => peel of_type
         | GraphQLNonNull of_type => peel of_type
         | Named a =>
             match OrderedDict.get map_ (name (heap a)) with
             | Some known =>
                 assert (bool_decide (known = a))
                   (unique_named_types_message (name (heap a)));;
                 Ok map_
             | None =>
                 match fuel with
                 | 0 => OutOfFuel
                 | S fuel' => reducer_visit (reducer fuel') map_ a
                 end
             end
         end) type_
  end.

(** [reduce(self.reducer, types, OrderedDict())] *)
Definition reduce_types (fuel : nat) (types : list (option (GraphQLType addr)))
  : Result (OrderedDict addr) :=
  foldM (reducer fuel) [] types.

(** *** The possible-type queries (typemap.py:49-76) *)

Definition get_possible_types (self : GraphQLTypeMap addr) (abstract_type : addr)
  : Result (list addr) :=
  match def (heap abstract_type) with
  | GraphQLUnionType _ => get_types abstract_type
  | GraphQLInterfaceType _ =>
      match _implementations self !! name (heap abstract_type) with
      | None => Ok []
      | Some implementers => Ok implementers
      end
  | _ => Raise (AssertionError EmptyString)
  end.

Definition no_possible_types_message (abstract_type : addr) : string :=
  "Could not find possible implementing types for "
    +:+ to_str (Named abstract_type) +:+ " in "
    +:+ "schema. Check that schema.types is defined and is an array of"
    +:+ "all possible types in the schema.".

(** [is_possible_type] fills [self._possible_type_map]; the updated object
    is returned next to the answer. *)
Definition is_possible_type (self : GraphQLTypeMap addr)
    (abstract_type possible_type : addr) : Result (bool * GraphQLTypeMap addr) :=
  possible_types ← get_possible_types self abstract_type;
  assert (bool_decide (possible_types ≠ []))
    (no_possible_types_message abstract_type);;
  let abstract_name := name (heap abstract_type) in
  let cache :=
    match _possible_type_map self !! abstract_name with
    | Some _ => _possible_type_map self
    | None =>
        <[abstract_name :=
            (∅ : gset string) ∪ list_to_set ((λ p, name (heap p)) <$> possible_types)]>
          (_possible_type_map self)
    end in
  Ok (bool_decide (name (heap possible_type) ∈ default ∅ (cache !! abstract_name)),
      {| items := items self;
         _possible_type_map := cache;
         _implementations := _implementations self |}).

(** *** Type comparators ([graphql/utils/type_comparators.py]) *)

(** [a is b] on type references.  Wrapper objects carry no identity of
    their own here: two wrappers are the same when they wrap the same type.
    Both comparators below recurse through equal wrappers, so their answers
    do not depend on whether equal wrappers are one object or two. *)
Fixpoint is_ (type_a type_b : GraphQLType addr) : bool :=
  match type_a, type_b with
  | Named a, Named b => bool_decide (a = b)
  | GraphQLList a, GraphQLList b => is_ a b
  | GraphQLNonNull a, GraphQLNonNull b => is_ a b
  | _, _ => false
  end.

(** Modelled from the spec: [is_equal_type] of type_comparators.py, which is
    not among the sources: the identical type, under identical list and
    non-null wrapping. *)
Fixpoint is_equal_type (type_a type_b : GraphQLType addr) : bool :=
  if is_ type_a type_b then true
  else
    match type_a, type_b with
    | GraphQLNonNull a, GraphQLNonNull b => is_equal_type a b
    | GraphQLList a, GraphQLList b => is_equal_type a b
    | _, _ => false
    end.

Definition is_abstract_type (a : addr) : bool :=
  match def (heap a) with
  | GraphQLInterfaceType _ | GraphQLUnionType _ => true
  | _ => false
  end.

(** Modelled from the spec: [is_type_sub_type_of] of type_comparators.py,
    which is not among the sources: the identical type, an object type that
    is a possible type of an interface or union (asked of the schema through
    [is_possible_type]), or covariant list/non-null wrapping. *)
Fixpoint is_type_sub_type_of (schema : GraphQLTypeMap addr)
    (maybe_subtype super_type : GraphQLType addr) {struct maybe_subtype}
  : Result (bool * GraphQLTypeMap addr) :=
  if is_ maybe_subtype super_type then Ok (true, schema)
  else
    match super_type, maybe_subtype with
    | GraphQLNonNull super_of, GraphQLNonNull sub_of =>
        is_type_sub_type_of schema sub_of super_of
    | GraphQLNonNull _, _ => Ok (false, schema)
    | _, GraphQLNonNull sub_of => is_type_sub_type_of schema sub_of super_type
    | GraphQLList super_of, GraphQLList sub_of =>
        is_type_sub_type_of schema sub_of super_of
    | GraphQLList _, _ => Ok (false, schema)
    | _, GraphQLList _ => Ok (false, schema)
    | Named super_a, Named sub_a =>
        if is_abstract_type super_a && is_object_type sub_a
        then is_possible_type schema super_a sub_a
        else Ok (false, schema)
    end.

(** *** [assert_object_implements_interface] (typemap.py:146-211) *)

Definition is_non_null (t : GraphQLType addr) : bool :=
  match t with GraphQLNonNull _ => true | _ => false end.

(** typemap.py:177-195: the arguments of the interface field. *)
Definition check_interface_args (object interface : addr) (field_name : string)
    (object_field interface_field : FieldDef addr) : Result unit :=
  interface_args ← field_args interface_field;
  forM_ (λ '(arg_name, interface_arg),
           object_args ← field_args object_field;
           match OrderedDict.get object_args arg_name with
           | None =>
               Raise (AssertionError
                 (to_str (Named interface) +:+ "." +:+ field_name
                    +:+ " expects argument " +:+ dquote +:+ arg_name +:+ dquote
                    +:+ " but " +:+ to_str (Named object) +:+ "." +:+ field_name
                    +:+ " does not provide it."))
           | Some object_arg =>
               assert (is_equal_type (arg_type interface_arg) (arg_type object_arg))
                 (to_str (Named interface) +:+ "." +:+ field_name +:+ "("
                    +:+ arg_name +:+ ":) expects type " +:+ dquote
                    +:+ to_str (arg_type interface_arg) +:+ dquote +:+ " but "
                    +:+ to_str (Named object) +:+ "." +:+ field_name +:+ "("
                    +:+ arg_name +:+ ":) provides type " +:+ dquote
                    +:+ to_str (arg_type object_arg) +:+ dquote +:+ ".")
           end)
        interface_args.

Definition required_extra_arg_message (object interface : addr)
    (field_name arg_name : string) (arg_type_ : GraphQLType addr) : string :=
  to_str (Named object) +:+ "." +:+ field_name +:+ "(" +:+ arg_name
    +:+ ":) is of required type " +:+ dquote +:+ to_str arg_type_ +:+ dquote
    +:+ " but is not also provided by the " +:+ "interface "
    +:+ to_str (Named interface) +:+ "." +:+ field_name +:+ ".".

(** typemap.py:197-211: the arguments of the object field. *)
Definition check_object_args (object interface : addr) (field_name : string)
    (object_field interface_field : FieldDef addr) : Result unit :=
  object_args ← field_args object_field;
  forM_ (λ '(arg_name, object_arg),
           interface_args ← field_args interface_field;
           match OrderedDict.get interface_args arg_name with
           | Some interface_arg => Ok tt
           | None =>
               assert (negb (is_non_null (arg_type object_arg)))
                 (required_extra_arg_message object interface field_name arg_name
                    (arg_type object_arg))
           end)
        object_args.

Definition assert_object_implements_interface (schema : GraphQLTypeMap addr)
    (object interface : addr) : Result (GraphQLTypeMap addr) :=
  object_field_map ← get_fields object;
  interface_field_map ← get_fields interface;
  foldM (λ schema '(field_name, interface_field),
           match OrderedDict.get object_field_map field_name with
           | None =>
               Raise (AssertionError
                 (dquote +:+ to_str (Named interface) +:+ dquote
                    +:+ " expects field " +:+ dquote +:+ field_name +:+ dquote
                    +:+ " but " +:+ dquote +:+ to_str (Named object) +:+ dquote
                    +:+ " does not provide it."))
           | Some object_field =>
               '(sub, schema) ← is_type_sub_type_of schema
                                  (field_type object_field) (field_type interface_field);
               assert sub
                 (to_str (Named interface) +:+ "." +:+ field_name
                    +:+ " expects type " +:+ dquote
                    +:+ to_str (field_type interface_field) +:+ dquote
                    +:+ " but " +:+ to_str (Named object) +:+ "." +:+ field_name
                    +:+ " provides type " +:+ dquote
                    +:+ to_str (field_type object_field) +:+ dquote +:+ ".");;
               check_interface_args object interface field_name
                 object_field interface_field;;
               check_object_args object interface field_name
                 object_field interface_field;;
               Ok schema
           end)
        schema interface_field_map.

(** *** [GraphQLTypeMap.__init__] (typemap.py:28-47) *)

(** [self._implementations[interface.name].append(gql_type)] *)
Definition append_implementation (gql_type : addr)
    (implementations : gmap string (list addr)) (interface : addr)
  : gmap string (list addr) :=
  <[name (heap interface) :=
      default [] (implementations !! name (heap interface)) ++ [gql_type]]>
    implementations.

(** The loop that keeps track of all implementations by interface name
    (typemap.py:38-41). *)
Definition build_implementations (values : list addr)
  : Result (gmap string (list addr)) :=
  foldM (λ implementations gql_type,
           if is_object_type gql_type then
             interfaces ← get_interfaces gql_type;
             Ok (fold_left (append_implementation gql_type)
                           interfaces implementations)
           else Ok implementations)
        ∅ values.

(** The loop that enforces correct interface implementations
    (typemap.py:44-47). *)
Definition enforce_implementations (self : GraphQLTypeMap addr)
  : Result (GraphQLTypeMap addr) :=
  foldM (λ self type_,
           if is_object_type type_ then
             interfaces ← get_interfaces type_;
             foldM (λ self interface,
                      assert_object_implements_interface self type_ interface)
                   self interfaces
           else Ok self)
        self (OrderedDict.values (items self)).

Definition __init__ (fuel : nat) (types : list (option (GraphQLType addr)))
  : Result (GraphQLTypeMap addr) :=
  map_ ← reduce_types fuel types;
  implementations ← build_implementations (OrderedDict.values map_);
  enforce_implementations
    {| items := map_;
       _possible_type_map := ∅;
       _implementations := implementations |}.

(** Constructing a type map: the recursion of [reducer] never nests deeper
    than the number of type objects plus one (see [reduce_types_enough_fuel]). *)
Definition new_GraphQLTypeMap (types : list (option (GraphQLType addr)))
  : Result (GraphQLTypeMap addr) :=
  __init__ (S (card addr)) types.

End TypeMap.

(** ** What the construction is to achieve *)

Section Closure.
Context {addr : Type} `{Finite addr}.
Variable heap : addr → NamedType addr.

(** The named types a field refers to: its type and the types of its
    arguments, each unwrapped. *)
Definition field_references (f : FieldDef addr) : list addr :=
  match f with
  | GraphQLField type args =>
      get_named_type type
        :: ((λ arg, get_named_type (arg_type arg)) <$> OrderedDict.values args)
  | GraphQLInputObjectField type => [get_named_type type]
  end.

(** The named types one type definition refers to: union members,
    interface lists, fields and arguments. *)
Definition references (a : addr) : list addr :=
  match def (heap a) with
  | GraphQLUnionType types => types
  | GraphQLObjectType fields interfaces =>
      interfaces ++ (OrderedDict.values fields ≫= field_references)
  | GraphQLInterfaceType fields => OrderedDict.values fields ≫= field_references
  | GraphQLInputObjectType fields => OrderedDict.values fields ≫= field_references
  | _ => []
  end.

(** The roots that are there: [None] entries are skipped, wrappers unwrapped. *)
Definition root_types (types : list (option (GraphQLType addr))) : list addr :=
  omap (fmap get_named_type) types.

(** Reachability through references, starting from [targets]. *)
Inductive reachable_from (targets : list addr) : addr → Prop :=
| reachable_target a : a ∈ targets → reachable_from targets a
| reachable_step a b :
    reachable_from targets a → b ∈ references a → reachable_from targets b.

Definition reachable (types : list (option (GraphQLType addr))) : addr → Prop :=
  reachable_from (root_types types).

(** [a] is in the map, under its own name. *)
Definition registered (map_ : OrderedDict addr) (a : addr) : Prop :=
  (name (heap a), a) ∈ map_.

#[global] Instance registered_dec map_ a : Decision (registered map_ a).
Proof. unfold registered. apply _. Defined.

(** Every key is the name of the type stored under it, and no key occurs
    twice. *)
Definition well_keyed (map_ : OrderedDict addr) : Prop :=
  NoDup (OrderedDict.keys map_) ∧ ∀ n a, (n, a) ∈ map_ → n = name (heap a).

(** What a successful call of the reducer on [map_] guarantees of the map
    [r] it returns, when it was asked to visit [targets]: the old entries
    stay in place, the targets are in, every new entry has all it refers to
    in the map, and nothing is new but what the targets reach. *)
Definition reduced (map_ : OrderedDict addr) (targets : list addr)
    (r : OrderedDict addr) : Prop :=
  well_keyed r
  ∧ map_ `prefix_of` r
  ∧ (∀ a, a ∈ targets → registered r a)
  ∧ (∀ b, registered r b → ¬ registered map_ b →
          ∀ c, c ∈ references b → registered r c)
  ∧ (∀ b, registered r b → registered map_ b ∨ reachable_from targets b).

(** The outcome of a call with [fuel]: a good map, an exception, or a
    recursion cut short, which needs the map to be nearly full. *)
Definition outcome (fuel : nat) (map_ : OrderedDict addr) (targets : list addr)
    (res : Result (OrderedDict addr)) : Prop :=
  match res with
  | Ok r => reduced map_ targets r
  | Raise _ => True
  | OutOfFuel => fuel + length map_ ≤ card addr
  end.
End Closure.

(** [res] is an outcome Python can produce, and a returned value satisfies
    [P]. *)
Definition returns {A : Type} (P : A → Prop) (res : Result A) : Prop :=
  match res with
  | Ok a => P a
  | Raise _ => True
  | OutOfFuel => False
  end.

(** [res1] is [res2], unless it was cut short for want of fuel. *)
Definition approx {A : Type} (res1 res2 : Result A) : Prop :=
  res1 = OutOfFuel ∨ res1 = res2.

Section Queries.
Context {addr : Type} `{Finite addr}.
Variable heap : addr → NamedType addr.
Variable to_str : GraphQLType addr → string.

Definition names (l : list addr) : list string := (λ p, name (heap p)) <$> l.

(** The interfaces an object type was declared with; nothing for the other
    classes, which the two loops of [__init__] skip. *)
Definition object_interfaces (gql_type : addr) : list addr :=
  match def (heap gql_type) with
  | GraphQLObjectType _ interfaces => interfaces
  | _ => []
  end.

(** What the loop of [build_implementations] comes to once the
    [interfaces] of every object type among [values] have been read (see
    [build_implementations_read]): the index, from the declared
    interfaces. *)
Definition declared_implementations (values : list addr)
  : gmap string (list addr) :=
  fold_left (λ implementations gql_type,
               fold_left (append_implementation heap gql_type)
                         (object_interfaces gql_type) implementations)
            values ∅.

(** Likewise for the loop of [enforce_implementations] (see
    [enforce_implementations_read]). *)
Definition enforce_declared (self : GraphQLTypeMap addr)
  : Result (GraphQLTypeMap addr) :=
  foldM (λ self type_,
           foldM (λ self interface,
                    assert_object_implements_interface heap to_str
                      self type_ interface)
                 self (object_interfaces type_))
        self (OrderedDict.values (items self)).

(** The implementer index, read off the map: the object types among
    [values] that list an interface called [interface_name], in encounter
    order, once per listing. *)
Definition implementers (values : list addr) (interface_name : string)
  : list addr :=
  values ≫= λ gql_type,
    object_interfaces gql_type ≫= λ interface,
      if decide (name (heap interface) = interface_name) then [gql_type] else [].

(** The states of a type map object: as constructed from some roots, and
    after any number of [is_possible_type] queries whose abstract type is
    [allowed]. *)
Inductive queried (allowed : GraphQLTypeMap addr → addr → Prop)
  : GraphQLTypeMap addr → Prop :=
| queried_new types self :
    new_GraphQLTypeMap heap to_str types = Ok self → queried allowed self
| queried_again self abstract_type possible_type answer self' :
    queried allowed self →
    allowed self abstract_type →
    is_possible_type heap to_str self abstract_type possible_type = Ok (answer, self') →
    queried allowed self'.

(** A constructed type map, whatever it has been asked since. *)
Definition constructed : GraphQLTypeMap addr → Prop :=
  queried (λ _ _, True).

(** A constructed type map that has only been asked about abstract types
    registered in it. *)
Definition constructed_own : GraphQLTypeMap addr → Prop :=
  queried (λ self abstract_type, registered heap (items self) abstract_type).

(** Every cached name set was computed from the type the map registers
    under that name. *)
Definition cache_consistent (self : GraphQLTypeMap addr) : Prop :=
  ∀ n (s : gset string), _possible_type_map self !! n = Some s →
    ∃ a l, registered heap (items self) a ∧ name (heap a) = n
           ∧ get_possible_types heap to_str self a = Ok l
           ∧ s = list_to_set (names l).

(** The map and the index are as constructed, and the cache is
    consistent. *)
Definition schema_inv (map_ : OrderedDict addr)
    (implementations : gmap string (list addr)) (self : GraphQLTypeMap addr)
  : Prop :=
  items self = map_ ∧ _implementations self = implementations
  ∧ cache_consistent self.

(** The map is the closure of [types], with the index built from it. *)
Definition built_from (types : list (option (GraphQLType addr)))
    (self : GraphQLTypeMap addr) : Prop :=
  reduced heap [] (root_types types) (items self)
  ∧ _implementations self
    = declared_implementations (OrderedDict.values (items self)).
End Queries.

Section Conformance.
Context {addr : Type} `{Finite addr}.
Variable heap : addr → NamedType addr.
Variable to_str : GraphQLType addr → string.

(** Every argument of the interface field is an argument of the object
    field, with the identical type. *)
Definition shared_args_identical
    (object_args interface_args : OrderedDict (GraphQLArgument addr)) : Prop :=
  ∀ arg_name interface_arg, (arg_name, interface_arg) ∈ interface_args →
    ∃ object_arg, OrderedDict.get object_args arg_name = Some object_arg
                  ∧ arg_type object_arg = arg_type interface_arg.

(** No argument that only the object field has is of a non-null type. *)
Definition extra_args_optional
    (object_args interface_args : OrderedDict (GraphQLArgument addr)) : Prop :=
  ∀ arg_name object_arg, (arg_name, object_arg) ∈ object_args →
    OrderedDict.get interface_args arg_name = None →
    is_non_null (arg_type object_arg) = false.

Definition field_conforms (object_field interface_field : FieldDef addr) : Prop :=
  ∃ object_args interface_args,
    field_args object_field = Ok object_args
    ∧ field_args interface_field = Ok interface_args
    ∧ shared_args_identical object_args interface_args
    ∧ extra_args_optional object_args interface_args.

(** [object] has every field of [interface], with conforming arguments. *)
Definition conforms (object interface : addr) : Prop :=
  ∃ object_field_map interface_field_map,
    get_fields heap to_str object = Ok object_field_map
    ∧ get_fields heap to_str interface = Ok interface_field_map
    ∧ ∀ field_name interface_field,
        (field_name, interface_field) ∈ interface_field_map →
        ∃ object_field,
          OrderedDict.get object_field_map field_name = Some object_field
          ∧ field_conforms object_field interface_field.
End Conformance.

(** ** A small world of type objects

    - [Query], [A], [B], [Bad] and [Holder] are object types, [Node] and
      [Lonely] interfaces, [U] a union, [Int] a scalar;
    - [A] and [B] refer to each other ([A.b : B!], [B.a : [A]]);
    - [B] and [Bad] implement [Node]; next to the argument [x] of [Node.id],
      [B.id] has the optional [y : [Int!]] and [Bad.id] the required
      [y : Int!];
    - [Lonely] has the field [id : Int], and no type implements it;
    - [Dup] is a second object type called "A", and [U2] a second union
      called "U"; [Holder] has a field of the type [Dup], and no other type
      refers to [Dup] or [U2]. *)
Inductive example_type : Type :=
| Query | A | B | Node | U | Int | U2 | Lonely | Dup | Bad | Holder.

#[global] Instance example_type_eq_dec : EqDecision example_type.
Proof. solve_decision. Defined.

#[global] Instance example_type_finite : Finite example_type.
Proof.
  refine {| enum := [Query; A; B; Node; U; Int; U2; Lonely; Dup; Bad; Holder] |}.
  - apply (bool_decide_unpack _). vm_compute. exact I.
  - intros []; apply (bool_decide_unpack _); vm_compute; exact I.
Defined.

Definition example_heap (o : example_type) : NamedType example_type :=
  let arg := @Build_GraphQLArgument example_type in
  match o with
  | Query =>
      Build_NamedType "Query"
        (GraphQLObjectType
           [("a", GraphQLField (Named A) []);
            ("u", GraphQLField (Named U) []);
            ("node", GraphQLField (Named Node) [])] [])
  | A =>
      Build_NamedType "A"
        (GraphQLObjectType [("b", GraphQLField (GraphQLNonNull (Named B)) [])] [])
  | B =>
      Build_NamedType "B"
        (GraphQLObjectType
           [("a", GraphQLField (GraphQLList (Named A)) []);
            ("id", GraphQLField (Named Int)
                     [("x", arg (Named Int));
                      ("y", arg (GraphQLList (GraphQLNonNull (Named Int))))])]
           [Node])
  | Node =>
      Build_NamedType "Node"
        (GraphQLInterfaceType
           [("id", GraphQLField (Named Int) [("x", arg (Named Int))])])
  | U => Build_NamedType "U" (GraphQLUnionType [A; B])
  | Int => Build_NamedType "Int" GraphQLScalarType
  | U2 => Build_NamedType "U" (GraphQLUnionType [Query])
  | Lonely =>
      Build_NamedType "Lonely"
        (GraphQLInterfaceType [("id", GraphQLField (Named Int) [])])
  | Dup =>
      Build_NamedType "A" (GraphQLObjectType [("z", GraphQLField (Named Int) [])] [])
  | Bad =>
      Build_NamedType "Bad"
        (GraphQLObjectType
           [("id", GraphQLField (Named Int)
                     [("x", arg (Named Int));
                      ("y", arg (GraphQLNonNull (Named Int)))])]
           [Node])
  | Holder =>
      Build_NamedType "Holder"
        (GraphQLObjectType [("held", GraphQLField (Named Dup) [])] [])
  end.

(** The GraphQL notation of a type: its name, in brackets for a list, with
    an exclamation mark when non-null. *)
Fixpoint example_to_str (t : GraphQLType example_type) : string :=
  match t with
  | Named a => name (example_heap a)
  | GraphQLList of_type => "[" +:+ example_to_str of_type +:+ "]"
  | GraphQLNonNull of_type => example_to_str of_type +:+ "!"
  end.

Definition example_roots : list (option (GraphQLType example_type)) :=
  [Some (Named Query); None; Some (GraphQLList (Named Lonely))].

(** Roots that reach [Dup], the second type called "A", through the field
    [held] of [Holder]. *)
Definition example_roots_holding_dup : list (option (GraphQLType example_type)) :=
  [Some (Named Query); Some (Named Holder)].

(** The closure of [Query] alone. *)
Definition example_items : OrderedDict example_type :=
  [("Query", Query); ("A", A); ("B", B); ("Node", Node); ("Int", Int); ("U", U)].

(** The type map of [example_roots]. *)
Definition example_map : GraphQLTypeMap example_type :=
  match new_GraphQLTypeMap example_heap example_to_str example_roots with
  | Ok self => self
  | _ => Build_GraphQLTypeMap [] ∅ ∅
  end.

(** The state of [example_map] after it was asked whether [A] is a [U]. *)
Definition example_map_asked : GraphQLTypeMap example_type :=
  match is_possible_type example_heap example_to_str example_map U A with
  | Ok (_, self) => self
  | _ => example_map
  end.

(** ** What the reducer asserts of the fields of a type *)

Section FieldChecks.
Context {addr : Type} `{Finite addr}.
Variable heap : addr → NamedType addr.
Variable to_str : GraphQLType addr → string.

(** A field of an input object type passes typemap.py:113-122: it is a
    [GraphQLInputObjectField] and its type is an input type. *)
Definition input_field_ok (field : FieldDef addr) : bool :=
  is_input_field field && is_input_type heap (field_type field).

(** A field of an object or interface type passes typemap.py:124-139: its
    type is an output type, it has an [args] map, and the type of every
    argument is an input type. *)
Definition output_field_ok (field : FieldDef addr) : bool :=
  is_output_type heap (field_type field)
  && match field with
     | GraphQLField _ args =>
         forallb (λ arg, is_input_type heap (arg_type arg))
                 (OrderedDict.values args)
     | GraphQLInputObjectField _ => false
     end.

(** All fields of [type_] pass; a type without [fields] has nothing to
    pass. *)
Definition fields_ok (type_ : addr) : bool :=
  match def (heap type_) with
  | GraphQLInputObjectType fields =>
      forallb input_field_ok (OrderedDict.values fields)
  | GraphQLObjectType fields _ | GraphQLInterfaceType fields =>
      forallb output_field_ok (OrderedDict.values fields)
  | _ => true
  end.

(** The properties that the reducer reads of [type_] can be read: the
    [types] of a union, the [interfaces] and the [fields] of an object
    type, the [fields] of an interface or input object type. *)
Definition readable (type_ : addr) : bool :=
  match def (heap type_) with
  | GraphQLUnionType _ => is_Ok (get_types heap to_str type_)
  | GraphQLObjectType _ _ =>
      is_Ok (get_interfaces heap to_str type_)
      && is_Ok (get_fields heap to_str type_)
  | GraphQLInterfaceType _ | GraphQLInputObjectType _ =>
      is_Ok (get_fields heap to_str type_)
  | _ => true
  end.

(** A map all of whose types are among the types [R], each under its own
    name. *)
Definition within (R : addr → Prop) (m : OrderedDict addr) : Prop :=
  well_keyed heap m ∧ ∀ b, registered heap m b → R b.

(** The assertion error of typemap.py:88 for a name that two distinct
    types among [R] have. *)
Definition name_clash (R : addr → Prop) (e : Exception) : Prop :=
  ∃ a b, R a ∧ R b ∧ a ≠ b ∧ name (heap a) = name (heap b)
         ∧ e = AssertionError (unique_named_types_message (name (heap a))).

(** The outcome of a call of the reducer on types that pass every other
    assertion: a map within [R], the assertion error of a name clash, or a
    recursion cut short. *)
Definition accepted (R : addr → Prop) (res : Result (OrderedDict addr)) : Prop :=
  match res with
  | Ok r => within R r
  | Raise e => name_clash R e
  | OutOfFuel => True
  end.

(** The roots as the reducer sees them: [None] entries dropped, wrappers
    peeled. *)
Definition named_roots (types : list (option (GraphQLType addr)))
  : list (option (GraphQLType addr)) :=
  (λ a, Some (Named a)) <$> root_types types.

(** The object that [__init__] hands to the conformance checks
    (typemap.py:32-41): the reduced map, an empty cache and the index of
    implementations. *)
Definition before_checks (m : OrderedDict addr) : GraphQLTypeMap addr :=
  {| items := m;
     _possible_type_map := ∅;
     _implementations := declared_implementations heap (OrderedDict.values m) |}.

(** Every field that [object] has under the name of a field of
    [interface] is of the identical type. *)
Definition same_field_types (object interface : addr) : Prop :=
  ∀ object_field_map interface_field_map,
    get_fields heap to_str object = Ok object_field_map →
    get_fields heap to_str interface = Ok interface_field_map →
    ∀ field_name interface_field object_field,
      (field_name, interface_field) ∈ interface_field_map →
      OrderedDict.get object_field_map field_name = Some object_field →
      field_type object_field = field_type interface_field.

(** The message of the assertion at typemap.py:160-164. *)
Definition missing_field_message (object interface : addr)
    (field_name : string) : string :=
  dquote +:+ to_str (Named interface) +:+ dquote
    +:+ " expects field " +:+ dquote +:+ field_name +:+ dquote
    +:+ " but " +:+ dquote +:+ to_str (Named object) +:+ dquote
    +:+ " does not provide it.".

(** The message of the assertion at typemap.py:180-182. *)
Definition missing_argument_message (object interface : addr)
    (field_name arg_name : string) : string :=
  to_str (Named interface) +:+ "." +:+ field_name
    +:+ " expects argument " +:+ dquote +:+ arg_name +:+ dquote
    +:+ " but " +:+ to_str (Named object) +:+ "." +:+ field_name
    +:+ " does not provide it.".

(** The message of the assertion at typemap.py:184-195. *)
Definition argument_type_message (object interface : addr)
    (field_name arg_name : string)
    (interface_arg_type object_arg_type : GraphQLType addr) : string :=
  to_str (Named interface) +:+ "." +:+ field_name +:+ "("
    +:+ arg_name +:+ ":) expects type " +:+ dquote
    +:+ to_str interface_arg_type +:+ dquote +:+ " but "
    +:+ to_str (Named object) +:+ "." +:+ field_name +:+ "("
    +:+ arg_name +:+ ":) provides type " +:+ dquote
    +:+ to_str object_arg_type +:+ dquote +:+ ".".
End FieldChecks.

(** ** A second small world: shapes

    - [Root] is an object type with the field [draw(at: PointInput): Shape];
    - [Shape] is an interface with the field [area(unit: Float): Float];
      [Circle] implements it, with [area(unit: Float): Float!]; [Blob] lists
      it and has no field [area];
    - [PointInput] is an input object type with the field [x: Float];
      [BadInput] is one whose field [shape] is a list of the output type
      [Shape];
    - [Float] is a scalar;
    - [Hollow] is an interface declared without a field, and [Nobody] a
      union declared without a member. *)
Inductive shape_type : Type :=
| Root | Shape | Circle | Blob | PointInput | BadInput | Float | Hollow | Nobody.

#[global] Instance shape_type_eq_dec : EqDecision shape_type.
Proof. solve_decision. Defined.

#[global] Instance shape_type_finite : Finite shape_type.
Proof.
  refine {| enum := [Root; Shape; Circle; Blob; PointInput; BadInput; Float;
                     Hollow; Nobody] |}.
  - apply (bool_decide_unpack _). vm_compute. exact I.
  - intros []; apply (bool_decide_unpack _); vm_compute; exact I.
Defined.

Definition shape_heap (o : shape_type) : NamedType shape_type :=
  let arg := @Build_GraphQLArgument shape_type in
  match o with
  | Root =>
      Build_NamedType "Root"
        (GraphQLObjectType
           [("draw", GraphQLField (Named Shape) [("at", arg (Named PointInput))])]
           [])
  | Shape =>
      Build_NamedType "Shape"
        (GraphQLInterfaceType
           [("area", GraphQLField (Named Float) [("unit", arg (Named Float))])])
  | Circle =>
      Build_NamedType "Circle"
        (GraphQLObjectType
           [("area", GraphQLField (GraphQLNonNull (Named Float))
                       [("unit", arg (Named Float))])]
           [Shape])
  | Blob =>
      Build_NamedType "Blob"
        (GraphQLObjectType [("name", GraphQLField (Named Float) [])] [Shape])
  | PointInput =>
      Build_NamedType "PointInput"
        (GraphQLInputObjectType [("x", GraphQLInputObjectField (Named Float))])
  | BadInput =>
      Build_NamedType "BadInput"
        (GraphQLInputObjectType
           [("shape", GraphQLInputObjectField (GraphQLList (Named Shape)))])
  | Float => Build_NamedType "Float" GraphQLScalarType
  | Hollow => Build_NamedType "Hollow" (GraphQLInterfaceType [])
  | Nobody => Build_NamedType "Nobody" (GraphQLUnionType [])
  end.

Fixpoint shape_to_str (t : GraphQLType shape_type) : string :=
  match t with
  | Named a => name (shape_heap a)
  | GraphQLList of_type => "[" +:+ shape_to_str of_type +:+ "]"
  | GraphQLNonNull of_type => shape_to_str of_type +:+ "!"
  end.

(** The type map of the roots [Root] and [Circle]. *)
Definition shape_map : GraphQLTypeMap shape_type :=
  match new_GraphQLTypeMap shape_heap shape_to_str
          [Some (Named Root); Some (Named Circle)] with
  | Ok self => self
  | _ => Build_GraphQLTypeMap [] ∅ ∅
  end.

(** ** The lexer ([graphql/language/lexer.py], [source.py], [location.py] and
       [error/syntax_error.py])

    None of these modules is among the sources; their test-suite
    [graphql/language/tests/test_lexer.py] is.  The definitions of this module
    are modelled from the specification, section 4.1, and checked against the
    expectations of the test-suite. *)
Module lexer.

(** A Python [str]: a sequence of code points. *)
Definition str : Type := list N.

(** The text of a string literal of this file (ASCII). *)
Definition text (s : string) : str :=
  Ascii.N_of_ascii <$> String.list_ascii_of_string s.

(** Modelled from the spec: [Source], "raw text plus a display name". *)
Record Source : Type := { body : str; name : str }.

(** Modelled from the spec: the default display name of a [Source].  The
    specification says "GraphQL request"; the test-suite, which builds its
    sources with the default, expects messages that start with
    "Syntax Error GraphQL (", and its reading is taken. *)
Definition default_name : str := text "GraphQL".

Definition new_Source (body : str) : Source :=
  {| body := body; name := default_name |}.

(** Modelled from the spec: the closed enumeration [TokenKind]. *)
Inductive TokenKind : Type :=
| EOF | BANG | DOLLAR | PAREN_L | PAREN_R | SPREAD | COLON | EQUALS | AT
| BRACKET_L | BRACKET_R | BRACE_L | BRACE_R | PIPE
| NAME | INT | FLOAT | STRING | COMMENT.

(** Modelled from the spec: [Token], "kind, start/end offsets, optional
    decoded literal value", compared structurally. *)
Record Token : Type :=
  { kind : TokenKind; start : nat; end_ : nat; value : option str }.

(** Modelled from the spec: the error of the lexer, with its message and
    the 1-based location it carries. *)
Record GraphQLSyntaxError : Type :=
  { message : str; position : nat; line : nat; column : nat }.

(** [body[i:j]] *)
Definition slice (s : str) (i j : nat) : str := take (j - i) (drop i s).

(** *** Rendering *)

Definition LF : N := 10.
Definition CR : N := 13.
Definition TAB : N := 9.
Definition SPACE : N := 32.

Fixpoint str_of_nat_go (fuel n : nat) (acc : str) : str :=
  let acc := N.of_nat (48 + n mod 10) :: acc in
  match fuel with
  | 0 => acc
  | S fuel => if n <? 10 then acc else str_of_nat_go fuel (n / 10) acc
  end.

(** [str(n)] *)
Definition str_of_nat (n : nat) : str := str_of_nat_go n n [].

Definition hex_digit (d : N) : N :=
  if (d <? 10)%N then (48 + d)%N else (55 + d)%N.

(** The hexadecimal digits of a number, upper case, before [acc]. *)
Fixpoint hex_go (fuel : nat) (n : N) (acc : str) : str :=
  let acc := hex_digit (n mod 16) :: acc in
  match fuel with
  | 0 => acc
  | S fuel => if (n <? 16)%N then acc else hex_go fuel (n / 16) acc
  end.

(** A code point in upper-case hexadecimal, zero-padded to four digits; a
    code point above U+FFFF has more. *)
Definition hex4 (code : N) : str :=
  let digits := hex_go (N.size_nat code) code [] in
  replicate (4 - length digits) 48%N ++ digits.

(** Modelled from the spec: how a character is named in a message,
    "rendering printable ASCII as the literal character and everything else
    as \uXXXX (uppercase hex, zero-padded to 4)", between double quotes as
    the test-suite has it; the end of the input reads [<EOF>]. *)
Definition print_char_code (code : option N) : str :=
  match code with
  | None => text "<EOF>"
  | Some code =>
      if ((32 <=? code) && (code <? 127))%N then [34; code; 34]%N
      else [34; 92; 117]%N ++ hex4 code ++ [34%N]
  end.

(** The lines of a text; LF, CR and CR+LF each end a line. *)
Fixpoint split_lines_go (s : str) (current : str) : list str :=
  match s with
  | [] => [reverse current]
  | c :: s' =>
      if (c =? LF)%N then reverse current :: split_lines_go s' []
      else if (c =? CR)%N then
        match s' with
        | c' :: s'' =>
            if (c' =? LF)%N then reverse current :: split_lines_go s'' []
            else reverse current :: split_lines_go s' []
        | [] => reverse current :: split_lines_go s' []
        end
      else split_lines_go s' (c :: current)
  end.

Definition split_lines (s : str) : list str := split_lines_go s [].

(** Modelled from the spec: the 1-based line and column of an offset. *)
Fixpoint get_location_go (s : str) (n : nat) (line column : nat) : nat * nat :=
  match n, s with
  | S n', c :: s' =>
      if (c =? LF)%N then get_location_go s' n' (S line) 1
      else if (c =? CR)%N then
        match s' with
        | c' :: _ =>
            if (c' =? LF)%N then get_location_go s' n' line (S column)
            else get_location_go s' n' (S line) 1
        | [] => get_location_go s' n' (S line) 1
        end
      else get_location_go s' n' line (S column)
  | _, _ => (line, column)
  end.

Definition get_location (source : Source) (position : nat) : nat * nat :=
  get_location_go (body source) position 1 1.

(** [" " * n] *)
Definition spaces (n : nat) : str := replicate n SPACE.

(** [s.rjust(width)]: [s], right-aligned in [width] columns. *)
Definition rjust (width : nat) (s : str) : str :=
  spaces (width - length s) ++ s.

(** A line of context: its number, right-aligned in [pad_len] columns,
    [": "] and the line. *)
Definition format_line (pad_len n : nat) (line_text : str) : str :=
  rjust pad_len (str_of_nat n) ++ text ": " ++ line_text ++ [LF].

(** [lines[i]] *)
Definition line_at (lines : list str) (i : nat) : str := default [] (lines !! i).

(** Modelled from the spec: the snippet under the header: "up to 3 lines of
    source context centered on the error line (previous line, error line,
    next line, each prefixed "N: " with 1-based line number right-aligned to
    a fixed width), then a caret line aligned under the column, using the
    same fixed-width prefix filled with spaces"; the caret line follows the
    error line, as in the test-suite. *)
Definition highlight_source_at_location (source : Source) (line column : nat)
  : str :=
  let lines := split_lines (body source) in
  let pad_len := length (str_of_nat (line + 1)) in
  (if 2 <=? line then format_line pad_len (line - 1) (line_at lines (line - 2))
   else [])
  ++ (if line <=? length lines then
        format_line pad_len line (line_at lines (line - 1))
          ++ spaces (1 + pad_len + column) ++ text "^" ++ [LF]
      else [])
  ++ (if line <? length lines then
        format_line pad_len (line + 1) (line_at lines line)
      else []).

(** Modelled from the spec: the error raised at an offset: "Syntax Error
    <source-name> (<line>:<col>) <description>" followed by a blank line and
    the snippet. *)
Definition syntax_error (source : Source) (position : nat) (description : str)
  : GraphQLSyntaxError :=
  let '(line, column) := get_location source position in
  {| message :=
       text "Syntax Error " ++ name source ++ text " (" ++ str_of_nat line
         ++ text ":" ++ str_of_nat column ++ text ") " ++ description
         ++ [LF; LF] ++ highlight_source_at_location source line column;
     position := position; line := line; column := column |}.

(** *** Scanning

    The scanners walk the text that is left, [rest = body[position:]], and
    keep the offset [position] next to it. *)

Definition Scan (A : Type) : Type := GraphQLSyntaxError + A.

#[global] Instance Scan_ret : MRet Scan := λ A a, inr a.

#[global] Instance Scan_bind : MBind Scan := λ A B k r,
  match r with
  | inr a => k a
  | inl e => inl e
  end.

Definition raise {A : Type} (source : Source) (position : nat)
    (description : str) : Scan A :=
  inl (syntax_error source position description).

Definition is_digit (code : N) : bool := ((48 <=? code) && (code <=? 57))%N.

Definition is_name_start (code : N) : bool :=
  ((65 <=? code) && (code <=? 90) || (code =? 95)
   || (97 <=? code) && (code <=? 122))%N.

Definition is_name_continue (code : N) : bool :=
  is_name_start code || is_digit code.

(** BOM, tab, space, line terminators and the comma. *)
Definition is_ignored (code : N) : bool :=
  ((code =? 65279) || (code =? TAB) || (code =? SPACE) || (code =? LF)
   || (code =? CR) || (code =? 44))%N.

(** What a comment runs over: anything up to the end of the line, control
    characters other than tab excepted. *)
Definition is_comment_char (code : N) : bool :=
  ((31 <? code) || (code =? TAB))%N.

(** Modelled from the spec: the skip phase before each token.  In a comment
    ([in_comment]) the characters of the comment are skipped as well. *)
Fixpoint position_after_whitespace_go (in_comment : bool) (rest : str)
    (position : nat) : nat :=
  match rest with
  | [] => position
  | code :: rest' =>
      if in_comment && is_comment_char code then
        position_after_whitespace_go true rest' (S position)
      else if is_ignored code then
        position_after_whitespace_go false rest' (S position)
      else if (code =? 35)%N then
        position_after_whitespace_go true rest' (S position)
      else position
  end.

Definition position_after_whitespace (body : str) (start_position : nat) : nat :=
  position_after_whitespace_go false (drop start_position body) start_position.

(** Modelled from the spec: the single-character tokens. *)
Definition punctuator (code : N) : option TokenKind :=
  if (code =? 33)%N then Some BANG
  else if (code =? 36)%N then Some DOLLAR
  else if (code =? 40)%N then Some PAREN_L
  else if (code =? 41)%N then Some PAREN_R
  else if (code =? 58)%N then Some COLON
  else if (code =? 61)%N then Some EQUALS
  else if (code =? 64)%N then Some AT
  else if (code =? 91)%N then Some BRACKET_L
  else if (code =? 93)%N then Some BRACKET_R
  else if (code =? 123)%N then Some BRACE_L
  else if (code =? 124)%N then Some PIPE
  else if (code =? 125)%N then Some BRACE_R
  else None.

(** The name characters at the head of a text. *)
Fixpoint name_chars (rest : str) : str :=
  match rest with
  | code :: rest' =>
      if is_name_continue code then code :: name_chars rest' else []
  | [] => []
  end.

(** Modelled from the spec: a name, "longest match, value = matched text
    verbatim"; [rest] starts at [position], with a name-start character.
    The value is the text the scanner has matched, and the token ends
    where that text ends. *)
Definition read_name (rest : str) (position : nat) : Token :=
  let matched := name_chars rest in
  {| kind := NAME; start := position; end_ := position + length matched;
     value := Some matched |}.

(** The digits at the head of a text, and the text after them. *)
Fixpoint span_digits (rest : str) : str * str :=
  match rest with
  | code :: rest' =>
      if is_digit code then
        let '(digits, rest'') := span_digits rest' in (code :: digits, rest'')
      else ([], rest)
  | [] => ([], rest)
  end.

(** Modelled from the spec: one or more digits, or an error "naming the
    character found or <EOF>".  [matched] is the text of the number so far,
    from [start]; the digits are added to it. *)
Definition read_digits (source : Source) (start : nat) (matched rest : str)
  : Scan (str * str) :=
  match rest with
  | code :: rest' =>
      if is_digit code then
        let '(digits, rest'') := span_digits rest' in
        inr (matched ++ code :: digits, rest'')
      else raise source (start + length matched)
             (text "Invalid number, expected digit but got: "
                ++ print_char_code (Some code) ++ text ".")
  | [] =>
      raise source (start + length matched)
        (text "Invalid number, expected digit but got: "
           ++ print_char_code None ++ text ".")
  end.

(** Modelled from the spec: a number; [rest] starts at [start], with [-] or
    a digit.  "The literal value is the exact matched substring, sign and
    all": the scanner collects the characters it matches, and the token
    ends where they end. *)
Definition read_number (source : Source) (rest : str) (start : nat) : Scan Token :=
  let '(matched, rest) :=
    match rest with
    | code :: rest' => if (code =? 45)%N then ([code], rest') else ([], rest)
    | [] => ([], rest)
    end in
  '(matched, rest) ←
    match rest with
    | code :: rest' =>
        if (code =? 48)%N then
          match rest' with
          | code' :: _ =>
              if is_digit code' then
                raise source (start + length matched + 1)
                  (text "Invalid number, unexpected digit after 0: "
                     ++ print_char_code (Some code') ++ text ".")
              else inr (matched ++ [code], rest')
          | [] => inr (matched ++ [code], rest')
          end
        else read_digits source start matched rest
    | [] => read_digits source start matched rest
    end;
  '(matched, rest, is_float) ←
    match rest with
    | code :: rest' =>
        if (code =? 46)%N then
          '(matched, rest) ← read_digits source start (matched ++ [code]) rest';
          inr (matched, rest, true)
        else inr (matched, rest, false)
    | [] => inr (matched, rest, false)
    end;
  '(matched, rest, is_float) ←
    match rest with
    | code :: rest' =>
        if ((code =? 69) || (code =? 101))%N then
          let '(matched, rest) :=
            match rest' with
            | sign :: rest'' =>
                if ((sign =? 43) || (sign =? 45))%N
                then (matched ++ [code; sign], rest'')
                else (matched ++ [code], rest')
            | [] => (matched ++ [code], rest')
            end in
          '(matched, rest) ← read_digits source start matched rest;
          inr (matched, rest, true)
        else inr (matched, rest, is_float)
    | [] => inr (matched, rest, is_float)
    end;
  inr {| kind := if is_float : bool then FLOAT else INT;
         start := start; end_ := start + length matched;
         value := Some matched |}.

(** The character an escape letter stands for. *)
Definition escaped_char (code : N) : option N :=
  if (code =? 34)%N then Some 34%N
  else if (code =? 47)%N then Some 47%N
  else if (code =? 92)%N then Some 92%N
  else if (code =? 98)%N then Some 8%N
  else if (code =? 102)%N then Some 12%N
  else if (code =? 110)%N then Some 10%N
  else if (code =? 114)%N then Some 13%N
  else if (code =? 116)%N then Some 9%N
  else None.

Definition char2hex (code : N) : option N :=
  if is_digit code then Some (code - 48)%N
  else if ((65 <=? code) && (code <=? 70))%N then Some (code - 55)%N
  else if ((97 <=? code) && (code <=? 102))%N then Some (code - 87)%N
  else None.

(** The code point of four hexadecimal digits. *)
Definition uni_char_code (a b c d : N) : option N :=
  a ← char2hex a; b ← char2hex b; c ← char2hex c; d ← char2hex d;
  Some (a * 4096 + b * 256 + c * 16 + d)%N.

(** Modelled from the spec: the body of a string, after the opening quote.
    The decoded value is collected in [value]; the characters since
    [chunk_start] are taken from the source when an escape or the closing
    quote is met. *)
Fixpoint read_string_go (source : Source) (start : nat) (rest : str)
    (position chunk_start : nat) (value : str) : Scan Token :=
  match rest with
  | [] => raise source position (text "Unterminated string")
  | code :: rest' =>
      if (code =? 34)%N then
        inr {| kind := STRING; start := start; end_ := S position;
               value := Some (value ++ slice (body source) chunk_start position) |}
      else if ((code =? LF) || (code =? CR))%N then
        raise source position (text "Unterminated string")
      else if ((code <? 32) && negb (code =? TAB))%N then
        raise source position
          (text "Invalid character within String: "
             ++ print_char_code (Some code) ++ text ".")
      else if (code =? 92)%N then
        let value := value ++ slice (body source) chunk_start position in
        match rest' with
        | [] =>
            raise source (S position)
              (text "Invalid character escape sequence: " ++ [92%N] ++ text ".")
        | code :: rest'' =>
            match escaped_char code with
            | Some escaped =>
                read_string_go source start rest'' (S (S position))
                  (S (S position)) (value ++ [escaped])
            | None =>
                if (code =? 117)%N then
                  match rest'' with
                  | a :: b :: c :: d :: rest4 =>
                      match uni_char_code a b c d with
                      | Some char_code =>
                          read_string_go source start rest4
                            (6 + position) (6 + position) (value ++ [char_code])
                      | None =>
                          raise source (S position)
                            (text "Invalid character escape sequence: "
                               ++ [92; 117]%N ++ [a; b; c; d] ++ text ".")
                      end
                  | _ =>
                      raise source (S position)
                        (text "Invalid character escape sequence: "
                           ++ [92; 117]%N ++ rest'' ++ text ".")
                  end
                else
                  raise source (S position)
                    (text "Invalid character escape sequence: "
                       ++ [92; code]%N ++ text ".")
            end
        end
      else read_string_go source start rest' (S position) chunk_start value
  end.

Definition read_string (source : Source) (rest : str) (start : nat) : Scan Token :=
  read_string_go source start rest (S start) (S start) [].

Definition punctuation_token (kind : TokenKind) (position length : nat) : Token :=
  {| kind := kind; start := position; end_ := position + length; value := None |}.

(** Modelled from the spec: the token that starts at or after
    [from_position]. *)
Definition read_token (source : Source) (from_position : nat) : Scan Token :=
  let position := position_after_whitespace (body source) from_position in
  match drop position (body source) with
  | [] => inr (punctuation_token EOF position 0)
  | code :: rest =>
      if ((code <? 32) && negb ((code =? TAB) || (code =? LF) || (code =? CR)))%N
      then
        raise source position
          (text "Invalid character " ++ print_char_code (Some code) ++ text ".")
      else
        match punctuator code with
        | Some kind => inr (punctuation_token kind position 1)
        | None =>
            let unexpected : Scan Token :=
              raise source position
                (text "Unexpected character " ++ print_char_code (Some code)
                   ++ text ".") in
            if (code =? 46)%N then
              match rest with
              | c1 :: c2 :: _ =>
                  if ((c1 =? 46) && (c2 =? 46))%N
                  then inr (punctuation_token SPREAD position 3)
                  else unexpected
              | _ => unexpected
              end
            else if is_name_start code then
              inr (read_name (code :: rest) position)
            else if ((code =? 45) || is_digit code)%N then
              read_number source (code :: rest) position
            else if (code =? 34)%N then read_string source rest position
            else unexpected
        end
  end.

(** Modelled from the spec: the lexer, a source and the offset where the
    last token ended. *)
Record Lexer : Type := { source : Source; prev_position : nat }.

Definition new_Lexer (source : Source) : Lexer :=
  {| source := source; prev_position := 0 |}.

Definition next_token (self : Lexer) : Scan (Token * Lexer) :=
  token ← read_token (source self) (prev_position self);
  inr (token, {| source := source self; prev_position := end_ token |}).

(** [lex_one] of the test-suite (test_lexer.py:8-10). *)
Definition lex_one (s : str) : Scan Token :=
  '(token, _) ← next_token (new_Lexer (new_Source s)); inr token.

(** *** Decoding a string literal

    The reading of a string literal that the round trip of the
    specification compares a STRING token with: "stripping the quotes and
    resolving backslash escapes and \uXXXX sequences".  It is written from
    the specification's list of escapes, on its own tables, and shares
    nothing with the scanner of strings above. *)

(** Modelled from the spec: the escapes of the double quote, the backslash
    and the slash, and of the letters b, f, n, r and t, which "map to their
    literal character": the character after the backslash, and the
    character the escape stands for. *)
Definition simple_escapes : list (N * N) :=
  [(34, 34); (92, 92); (47, 47); (98, 8); (102, 12); (110, 10); (114, 13);
   (116, 9)]%N.

Fixpoint lookup_code (table : list (N * N)) (code : N) : option N :=
  match table with
  | [] => None
  | (key, value) :: table' =>
      if (key =? code)%N then Some value else lookup_code table' code
  end.

(** The place of a character in a text, counted from [i]. *)
Fixpoint index_from (i : N) (s : str) (code : N) : option N :=
  match s with
  | [] => None
  | code' :: s' =>
      if (code' =? code)%N then Some i else index_from (i + 1) s' code
  end.

(** The value of a hexadecimal digit, in either case: its place among the
    sixteen digits. *)
Definition hex_value (code : N) : option N :=
  match index_from 0 (text "0123456789ABCDEF") code with
  | Some v => Some v
  | None => index_from 0 (text "0123456789abcdef") code
  end.

(** The number that hexadecimal digits stand for, most significant digit
    first. *)
Definition hex_number (digits : str) : option N :=
  foldl (λ acc digit, n ← acc; v ← hex_value digit; Some (16 * n + v)%N)
        (Some 0%N) digits.

Fixpoint unescape (s : str) : option str :=
  match s with
  | [] => Some []
  | code :: s' =>
      if (code =? 92)%N then
        match s' with
        | [] => None
        | letter :: s'' =>
            match lookup_code simple_escapes letter with
            | Some escaped => (escaped ::.) <$> unescape s''
            | None =>
                if (letter =? 117)%N then
                  match s'' with
                  | a :: b :: c :: d :: s4 =>
                      char_code ← hex_number [a; b; c; d];
                      (char_code ::.) <$> unescape s4
                  | _ => None
                  end
                else None
            end
        end
      else (code ::.) <$> unescape s'
  end.

Definition escape_decode (literal : str) : option str :=
  match literal with
  | quote :: literal' =>
      if (quote =? 34)%N then
        match reverse literal' with
        | quote' :: inner =>
            if (quote' =? 34)%N then unescape (reverse inner) else None
        | [] => None
        end
      else None
  | [] => None
  end.

(** *** Vocabulary of the statements about the lexer *)


(** [sub] occurs in [s]. *)
Definition occurs_in (sub s : str) : Prop := ∃ pre post, s = pre ++ sub ++ post.

(** The kinds whose value is the matched text itself. *)
Definition has_literal_value (token : Token) : Prop :=
  kind token = NAME ∨ kind token = INT ∨ kind token = FLOAT.

(** The double quote. *)
Definition dq : str := [34%N].



(** The message [test_lex_reports_useful_number_errors] looks for
    (test_lexer.py:201-208). *)
Definition leading_zero_test_message : str :=
  text "Syntax Error GraphQL (1:2) Invalid number, unexpected digit after 0: "
    ++ dq ++ text "0" ++ dq ++ text ".".

(** The strings with escapes of [test_lexes_strings] (test_lexer.py:87-93):
    the literals, and the values expected of their tokens. *)
Definition quote_test_source : str :=
  dq ++ text "quote \" ++ dq ++ dq.

Definition quote_test_value : str := text "quote " ++ dq.

Definition escaped_test_source : str :=
  dq ++ text "escaped \n\r\b\t\f" ++ dq.

Definition escaped_test_value : str :=
  text "escaped " ++ [10; 13; 8; 9; 12]%N.

Definition slashes_test_source : str :=
  dq ++ text "slashes \\ \/" ++ dq.

Definition slashes_test_value : str := text "slashes \ /".

(** The last string of [test_lexes_strings] (test_lexer.py:94-96): the
    literal, and the value expected of its token. *)
Definition unicode_test_source : str :=
  dq ++ text "unicode \u1234\u5678\u90AB\uCDEF" ++ dq.

Definition unicode_test_value : str :=
  text "unicode " ++ [4660; 22136; 37035; 52719]%N.

End lexer.

(** ** [UniqueFragmentNamesRule]
       ([graphql/validation/rules/unique_fragment_names.py]) *)
Module unique_fragment_names.

(** AST nodes, as far as the rule looks at them.  [loc] tells apart two
    name nodes of the same value. *)
Record NameNode : Type := { value : string; loc : nat }.

Record FragmentDefinitionNode : Type := { name : NameNode }.

(** [GraphQLError(message, nodes)] *)
Record GraphQLError : Type := { message : string; nodes : list NameNode }.

(** What a visitor hook may hand back to the visitor. *)
Inductive VisitorAction : Type := SKIP | BREAK | IDLE.

(** The state of the rule object: the errors reported to its context so far,
    and its dictionary of known fragment names. *)
Record UniqueFragmentNamesRule : Type :=
  { reported : list GraphQLError;
    known_fragment_names : gmap string NameNode }.

(** unique_fragment_names.py:21-23 *)
Definition __init__ : UniqueFragmentNamesRule :=
  {| reported := []; known_fragment_names := ∅ |}.

(** unique_fragment_names.py:10-11 *)
Definition duplicate_fragment_name_message (frag_name : string) : string :=
  "There can only be one fragment named '" +:+ frag_name +:+ "'.".

(** Modelled from the spec: [report_error] of the validation rule base
    class, which is not among the sources: "rules report problems via a
    shared report_error(error) sink rather than raising", the errors being
    collected in order. *)
Definition report_error (self : UniqueFragmentNamesRule) (error : GraphQLError)
  : UniqueFragmentNamesRule :=
  {| reported := reported self ++ [error];
     known_fragment_names := known_fragment_names self |}.

(** [d[k]] *)
Definition getitem (d : gmap string NameNode) (k : string) : Result NameNode :=
  match d !! k with
  | Some v => Ok v
  | None => Raise (KeyError k)
  end.

(** unique_fragment_names.py:25-26 *)
Definition enter_operation_definition (self : UniqueFragmentNamesRule)
  : Result (VisitorAction * UniqueFragmentNamesRule) :=
  Ok (SKIP, self).

(** unique_fragment_names.py:28-40 *)
Definition enter_fragment_definition (self : UniqueFragmentNamesRule)
    (node : FragmentDefinitionNode)
  : Result (VisitorAction * UniqueFragmentNamesRule) :=
  let known_fragment_names_ := known_fragment_names self in
  let fragment_name := value (name node) in
  self ←
    (if bool_decide (is_Some (known_fragment_names_ !! fragment_name)) then
       first ← getitem known_fragment_names_ fragment_name;
       Ok (report_error self
             {| message := duplicate_fragment_name_message fragment_name;
                nodes := [first; name node] |})
     else
       Ok {| reported := reported self;
             known_fragment_names :=
               <[fragment_name := name node]> known_fragment_names_ |});
  Ok (SKIP, self).

(** The definitions a visitor enters, one after the other. *)
Inductive DefinitionNode : Type :=
| OperationDefinition
| FragmentDefinition (node : FragmentDefinitionNode).

Definition enter (self : UniqueFragmentNamesRule) (definition : DefinitionNode)
  : Result (VisitorAction * UniqueFragmentNamesRule) :=
  match definition with
  | OperationDefinition => enter_operation_definition self
  | FragmentDefinition node => enter_fragment_definition self node
  end.

(** The rule after the hooks of [definitions] have run, in order. *)
Definition visit (self : UniqueFragmentNamesRule) (definitions : list DefinitionNode)
  : Result UniqueFragmentNamesRule :=
  foldM (λ self definition, '(_, self) ← enter self definition; Ok self)
        self definitions.

(** The name node of the first fragment definition called [fragment_name]
    among [definitions]. *)
Fixpoint first_definition (definitions : list DefinitionNode)
    (fragment_name : string) : option NameNode :=
  match definitions with
  | [] => None
  | OperationDefinition :: definitions' =>
      first_definition definitions' fragment_name
  | FragmentDefinition node :: definitions' =>
      if decide (value (name node) = fragment_name) then Some (name node)
      else first_definition definitions' fragment_name
  end.

(** The errors due for [definitions], when [entered] came before them: one
    for each fragment definition whose name was defined before, pairing the
    first definition of the name with the present one. *)
Fixpoint duplicate_errors (entered definitions : list DefinitionNode)
  : list GraphQLError :=
  match definitions with
  | [] => []
  | definition :: definitions' =>
      match definition with
      | OperationDefinition => []
      | FragmentDefinition node =>
          match first_definition entered (value (name node)) with
          | Some first =>
              [{| message := duplicate_fragment_name_message (value (name node));
                  nodes := [first; name node] |}]
          | None => []
          end
      end ++ duplicate_errors (entered ++ [definition]) definitions'
  end.

(** The record of the rule is that of a fresh rule after the hooks of
    [entered] have run. *)
Definition tracks (entered : list DefinitionNode) (self : UniqueFragmentNamesRule)
  : Prop :=
  ∀ fragment_name,
    known_fragment_names self !! fragment_name
    = first_definition entered fragment_name.

(** A fragment definition called [fragment_name], at [at_]. *)
Definition fragment (fragment_name : string) (at_ : nat) : FragmentDefinitionNode :=
  {| name := {| value := fragment_name; loc := at_ |} |}.

(** The names of the fragment definitions among [definitions], in the
    order of the document. *)
Definition fragment_names (definitions : list DefinitionNode) : list string :=
  definitions ≫= λ definition,
    match definition with
    | OperationDefinition => []
    | FragmentDefinition node => [value (name node)]
    end.

(** The fragment definitions among [definitions]. *)
Definition fragments_only (definitions : list DefinitionNode)
  : list DefinitionNode :=
  definitions ≫= λ definition,
    match definition with
    | OperationDefinition => []
    | FragmentDefinition _ => [definition]
    end.

End unique_fragment_names.

(** * Proofs *)

Set Warnings "-clear-no-such-hyp".

(** ** Dictionaries *)

Module OrderedDictFacts.
Import OrderedDict.
Section facts.
Context {V : Type}.
Implicit Types (d : OrderedDict V) (k : string) (v : V).

Lemma get_None d k : get d k = None ↔ k ∉ keys d.
Proof.
  unfold keys. induction d as [|[k' v'] d IH]; simpl.
  - split; [intros _; apply not_elem_of_nil | done].
  - rewrite not_elem_of_cons. case_decide; subst.
    + split; [done | intros [? _]; done].
    + rewrite IH. naive_solver.
Qed.

Lemma get_Some_elem d k v : get d k = Some v → (k, v) ∈ d.
Proof.
  induction d as [|[k' v'] d IH]; simpl; [done|].
  case_decide; subst.
  - intros [= ->]. left.
  - intros. right. auto.
Qed.

Lemma elem_get d k v : NoDup (keys d) → (k, v) ∈ d → get d k = Some v.
Proof.
  unfold keys. induction d as [|[k' v'] d IH]; simpl.
  - intros _ Hin. by apply elem_of_nil in Hin.
  - rewrite NoDup_cons. intros [Hk Hd] Hin.
    apply elem_of_cons in Hin as [[= -> ->]|Hin].
    + by rewrite decide_True.
    + rewrite decide_False; [auto|].
      intros ->. apply Hk. apply list_elem_of_fmap. by exists (k, v).
Qed.

Lemma set_fresh d k v : get d k = None → set d k v = d ++ [(k, v)].
Proof.
  induction d as [|[k' v'] d IH]; simpl; [done|].
  case_decide; [done|]. intros. by rewrite IH.
Qed.

Lemma mem_true d k : mem k d = true ↔ k ∈ keys d.
Proof.
  unfold mem. rewrite bool_decide_eq_true.
  destruct (get d k) eqn:E.
  - split; [|by eauto]. intros _.
    apply get_Some_elem in E. apply list_elem_of_fmap. by exists (k, v).
  - split; [by intros [? ?]|]. intros. by apply get_None in E.
Qed.
End facts.
End OrderedDictFacts.

Import OrderedDictFacts.

(** ** Results, folds and loops *)

Lemma bind_Ok {A B} (x : Result A) (k : A → Result B) (b : B) :
  x ≫= k = Ok b → ∃ a, x = Ok a ∧ k a = Ok b.
Proof. destruct x as [a| |]; simpl; [by exists a|done|done]. Qed.

Lemma assert_Ok {B} (cond : bool) msg (k : Result B) (b : B) :
  (assert cond msg;; k) = Ok b → cond = true ∧ k = Ok b.
Proof. by destruct cond. Qed.

Lemma foldM_Ok_rel {A B} (P : A → A → Prop) (f : A → B → Result A) (l : list B) :
  (∀ a, P a a) → (∀ a1 a2 a3, P a1 a2 → P a2 a3 → P a1 a3) →
  (∀ a x a', x ∈ l → f a x = Ok a' → P a a') →
  ∀ a a', foldM f a l = Ok a' → P a a'.
Proof.
  intros Hrefl Htrans. induction l as [|x l IH]; intros Hf a a'; simpl.
  - intros [= ->]. apply Hrefl.
  - intros (a1 & Hx & Hl)%bind_Ok. eapply Htrans.
    + eapply Hf; [left|done].
    + apply IH; [|done]. intros ? ? ? ?. apply Hf. by right.
Qed.

Lemma forallb_elem {B} (f : B → bool) (l : list B) x :
  forallb f l = true → x ∈ l → f x = true.
Proof.
  induction l as [|y l IH]; simpl.
  - intros _ Hx. by apply elem_of_nil in Hx.
  - intros [Hy Hl]%andb_true_iff [->|Hx]%elem_of_cons; auto.
Qed.

Lemma get_prefix {V} (d d' : OrderedDict V) k v :
  d `prefix_of` d' → OrderedDict.get d k = Some v → OrderedDict.get d' k = Some v.
Proof.
  intros [d2 ->]. induction d as [|[k' v'] d IH]; simpl; [done|].
  by case_decide.
Qed.

Lemma get_snoc {V} (d : OrderedDict V) k v :
  OrderedDict.get d k = None → OrderedDict.get (d ++ [(k, v)]) k = Some v.
Proof.
  induction d as [|[k' v'] d IH]; simpl.
  - by rewrite decide_True.
  - by case_decide.
Qed.

Lemma foldM_Ok_elem {A B} (f : A → B → Result A) (l : list B) (a a' : A) x :
  foldM f a l = Ok a' → x ∈ l → ∃ a1 a2, f a1 x = Ok a2.
Proof.
  revert a. induction l as [|y l IH]; intros a Hfold Hx.
  - by apply elem_of_nil in Hx.
  - simpl in Hfold. destruct (f a y) as [a1| |] eqn:Hy; simpl in Hfold; try done.
    apply elem_of_cons in Hx as [->|Hx]; [by eauto|]. by eapply IH.
Qed.

Lemma forM__Ok {B} (f : B → Result unit) (l : list B) :
  forM_ f l = Ok tt ↔ ∀ x, x ∈ l → f x = Ok tt.
Proof.
  induction l as [|y l IH]; simpl.
  - split; [|done]. intros _ x Hx. by apply elem_of_nil in Hx.
  - split.
    + intros Hrun x Hx. destruct (f y) as [[]| |] eqn:Hy; simpl in Hrun; try done.
      apply elem_of_cons in Hx as [->|Hx]; [done|]. by apply IH.
    + intros Hall. rewrite (Hall y) by left. simpl. apply IH.
      intros x Hx. apply Hall. by right.
Qed.

Lemma forM__first_Raise {B} (f : B → Result unit) (l : list B) :
  (∀ x, x ∈ l → f x ≠ OutOfFuel) →
  forM_ f l ≠ Ok tt → ∃ x e, x ∈ l ∧ f x = Raise e ∧ forM_ f l = Raise e.
Proof.
  induction l as [|y l IH]; simpl; intros Hf Hrun; [done|].
  destruct (f y) as [[]|e|] eqn:Hy; simpl in *.
  - destruct IH as (x & e & Hx & Hfx & Hl); [|done|].
    + intros x Hx. apply Hf. by right.
    + exists x, e. split_and!; [by right|done|done].
  - exists y, e. split_and!; [left|done|done].
  - destruct (Hf y); [left|done].
Qed.

Section ResultFacts.

Lemma returns_mono {A} (P Q : A → Prop) (res : Result A) :
  (∀ a, P a → Q a) → returns P res → returns Q res.
Proof. destruct res; simpl; auto. Qed.

Lemma returns_bind {A B} (P : A → Prop) (Q : B → Prop) (x : Result A) (k : A → Result B) :
  returns P x → (∀ a, P a → returns Q (k a)) → returns Q (x ≫= k).
Proof. destruct x; simpl; auto. Qed.

Lemma returns_assert {B} (Q : B → Prop) (cond : bool) msg (k : Result B) :
  (cond = true → returns Q k) → returns Q (assert cond msg;; k).
Proof. destruct cond; simpl; auto. Qed.

Lemma returns_foldM {A B} (P : A → Prop) (f : A → B → Result A) (l : list B) :
  (∀ a x, x ∈ l → P a → returns P (f a x)) →
  ∀ a, P a → returns P (foldM f a l).
Proof.
  induction l as [|x l IH]; intros Hf a Ha; simpl; [done|].
  apply (returns_bind P P).
  - apply Hf; [left|done].
  - intros a' Ha'. apply IH; [|done]. intros ? ? ?. apply Hf. by right.
Qed.

Lemma returns_forM_ {B} (f : B → Result unit) (l : list B) :
  (∀ x, x ∈ l → returns (λ _, True) (f x)) →
  returns (λ _, True) (forM_ f l).
Proof.
  induction l as [|x l IH]; intros Hf; simpl; [done|].
  apply (returns_bind (λ _, True) (λ _, True)); [apply Hf; left|].
  intros _ _. apply IH. intros ? ?. apply Hf. by right.
Qed.

Lemma approx_refl {A} (res : Result A) : approx res res.
Proof. by right. Qed.

Lemma approx_bind {A B} (x1 x2 : Result A) (k1 k2 : A → Result B) :
  approx x1 x2 → (∀ a, approx (k1 a) (k2 a)) → approx (x1 ≫= k1) (x2 ≫= k2).
Proof.
  intros [->| ->] Hk; [by left|]. destruct x2; simpl; [done|by right|by left].
Qed.

Lemma approx_foldM {A B} (f1 f2 : A → B → Result A) (l : list B) :
  (∀ a x, approx (f1 a x) (f2 a x)) →
  ∀ a, approx (foldM f1 a l) (foldM f2 a l).
Proof.
  intros Hf. induction l as [|x l IH]; intros a; simpl; [by right|].
  by apply approx_bind.
Qed.

Lemma approx_total {A} (res1 res2 : Result A) :
  approx res1 res2 → res1 ≠ OutOfFuel → res2 = res1.
Proof. by intros [->| ->]. Qed.
End ResultFacts.

(** ** Reading the properties of a type *)

Section ReadProofs.
Context {addr : Type} `{Finite addr}.
Variable heap : addr → NamedType addr.
Variable to_str : GraphQLType addr → string.
Implicit Types (a b c : addr).

Lemma assert_valid_name_returns name :
  returns (λ _, True) (assert_valid_name name).
Proof. unfold assert_valid_name. by destruct (is_valid_name name). Qed.

Lemma checked_returns {A B} (P : B → Prop) (cond : bool) msg
    (f : A → Result unit) (l : list A) (b : B) :
  (∀ x, x ∈ l → returns (λ _, True) (f x)) →
  (cond = true → forM_ f l = Ok tt → P b) →
  returns P (assert cond msg;; forM_ f l;; Ok b).
Proof.
  intros Hf HP. destruct cond; simpl; [|done].
  pose proof (returns_forM_ f l Hf) as Hret.
  destruct (forM_ f l) as [[]| |]; simpl in *; auto.
Qed.

Lemma define_field_map_returns (type_ : addr) field_map :
  returns (λ r, r = field_map ∧ field_map ≠ [])
    (define_field_map to_str type_ field_map).
Proof.
  apply (checked_returns (λ r, r = field_map ∧ field_map ≠ [])).
  - intros [field_name field] _.
    apply (returns_bind (λ _, True) (λ _, True));
      [apply assert_valid_name_returns|].
    intros _ _. destruct field as [type args|type]; [|done].
    apply returns_forM_. intros [arg_name arg] _.
    apply assert_valid_name_returns.
  - intros Hne%bool_decide_eq_true _. done.
Qed.

Lemma define_input_field_map_returns (type_ : addr) field_map :
  returns (λ r, r = field_map ∧ field_map ≠ [])
    (define_input_field_map to_str type_ field_map).
Proof.
  apply (checked_returns (λ r, r = field_map ∧ field_map ≠ [])).
  - intros [field_name field] _. apply assert_valid_name_returns.
  - intros Hne%bool_decide_eq_true _. done.
Qed.

(** A read of [fields] that returns, returns the declared field map, which
    has a field. *)
Lemma get_fields_returns (type_ : addr) :
  returns (λ field_map,
             declared_fields (def (heap type_)) = Some field_map
             ∧ field_map ≠ [])
    (get_fields heap to_str type_).
Proof.
  unfold get_fields, declared_fields.
  destruct (def (heap type_)) as [| |fields interfaces|fields|types|fields];
    try done;
    (eapply returns_mono;
     [|first [apply define_field_map_returns
             |apply define_input_field_map_returns]]);
    by intros r [-> ?].
Qed.

Lemma get_fields_Ok (type_ : addr) field_map :
  get_fields heap to_str type_ = Ok field_map →
  declared_fields (def (heap type_)) = Some field_map ∧ field_map ≠ [].
Proof.
  intros Hread. pose proof (get_fields_returns type_) as Hret.
  by rewrite Hread in Hret.
Qed.

(** A read of [types] that returns, returns the declared members: there
    is one, and all are object types. *)
Lemma get_types_returns (union_type : addr) :
  returns (λ types,
             def (heap union_type) = GraphQLUnionType types ∧ types ≠ []
             ∧ ∀ o, o ∈ types → is_object_type heap o = true)
    (get_types heap to_str union_type).
Proof.
  unfold get_types.
  destruct (def (heap union_type)) as [| | | |types|]; try done.
  apply (checked_returns
           (λ r, GraphQLUnionType types = GraphQLUnionType r ∧ r ≠ []
                 ∧ ∀ o, o ∈ r → is_object_type heap o = true)).
  - intros o _. by destruct (is_object_type heap o).
  - intros Hne%bool_decide_eq_true Hall. split_and!; [done|done|].
    intros o Ho. rewrite forM__Ok in Hall. specialize (Hall o Ho).
    by destruct (is_object_type heap o).
Qed.

Lemma get_types_Ok (union_type : addr) types :
  get_types heap to_str union_type = Ok types →
  def (heap union_type) = GraphQLUnionType types ∧ types ≠ []
  ∧ ∀ o, o ∈ types → is_object_type heap o = true.
Proof.
  intros Hread. pose proof (get_types_returns union_type) as Hret.
  by rewrite Hread in Hret.
Qed.

(** A read of [interfaces] that returns, returns the declared list, and
    all that it lists are interface types. *)
Lemma get_interfaces_returns (type_ : addr) :
  returns (λ interfaces,
             (∃ fields, def (heap type_) = GraphQLObjectType fields interfaces)
             ∧ ∀ i, i ∈ interfaces → is_interface_type heap i = true)
    (get_interfaces heap to_str type_).
Proof.
  unfold get_interfaces.
  destruct (def (heap type_)) as [| |fields interfaces| | |]; try done.
  unfold define_interfaces.
  pose proof (returns_forM_
    (λ interface,
       assert (is_interface_type heap interface)
         (to_str (Named type_)
            +:+ " may only implement Interface types, it cannot implement: "
            +:+ to_str (Named interface) +:+ "."))
    interfaces) as Hret.
  destruct (forM_ _ interfaces) as [[]| |] eqn:Hall; simpl in *.
  - split; [by eexists|]. intros i Hi. rewrite forM__Ok in Hall.
    specialize (Hall i Hi). simpl in Hall.
    by destruct (is_interface_type heap i).
  - done.
  - apply Hret. intros i _. by destruct (is_interface_type heap i).
Qed.

Lemma get_interfaces_Ok (type_ : addr) interfaces :
  get_interfaces heap to_str type_ = Ok interfaces →
  (∃ fields, def (heap type_) = GraphQLObjectType fields interfaces)
  ∧ ∀ i, i ∈ interfaces → is_interface_type heap i = true.
Proof.
  intros Hread. pose proof (get_interfaces_returns type_) as Hret.
  by rewrite Hread in Hret.
Qed.
End ReadProofs.

(** ** The reducer *)

Section ReducerProofs.
Context {addr : Type} `{Finite addr}.
Variable heap : addr → NamedType addr.
Variable to_str : GraphQLType addr → string.
Implicit Types (r : OrderedDict addr) (a b c : addr)
  (targets : list addr) (fuel : nat).

Lemma well_keyed_nil : well_keyed heap [].
Proof. split; [constructor | intros n a Hin; by apply elem_of_nil in Hin]. Qed.

Lemma well_keyed_values map_ : well_keyed heap map_ → NoDup (OrderedDict.values map_).
Proof.
  intros [Hnd Hown]. unfold OrderedDict.keys, OrderedDict.values in *.
  assert (map_.*1 = (λ a, name (heap a)) <$> map_.*2) as Heq.
  { rewrite <- list_fmap_compose. apply Forall_fmap_ext, Forall_forall.
    intros [n a] Hin; simpl. by apply Hown. }
  rewrite Heq in Hnd. by apply NoDup_fmap_1 in Hnd.
Qed.

Lemma well_keyed_length map_ : well_keyed heap map_ → length map_ ≤ card addr.
Proof.
  intros Hwk. apply well_keyed_values in Hwk.
  unfold OrderedDict.values in Hwk.
  rewrite <- (length_fmap snd map_). unfold card.
  apply submseteq_length, NoDup_submseteq; [done|].
  intros x _. apply elem_of_enum.
Qed.

Lemma well_keyed_set map_ a :
  well_keyed heap map_ → OrderedDict.get map_ (name (heap a)) = None →
  well_keyed heap (map_ ++ [(name (heap a), a)]).
Proof.
  intros [Hnd Hown] Hfresh. split.
  - unfold OrderedDict.keys in *. rewrite fmap_app. simpl.
    apply NoDup_app. split_and!; [done| |apply NoDup_singleton].
    intros k Hk Hk'. apply list_elem_of_singleton in Hk' as ->.
    by apply get_None in Hfresh.
  - intros n b Hin. apply elem_of_app in Hin as [Hin|Hin]; [by apply Hown|].
    by apply list_elem_of_singleton in Hin as [= -> ->].
Qed.

Lemma registered_prefix map_ r a :
  map_ `prefix_of` r → registered heap map_ a → registered heap r a.
Proof. intros [k ->] Hin. apply elem_of_app. by left. Qed.

Lemma registered_get map_ a :
  well_keyed heap map_ →
  registered heap map_ a ↔ OrderedDict.get map_ (name (heap a)) = Some a.
Proof.
  intros [Hnd _]. split; [by apply elem_get | apply get_Some_elem].
Qed.

Lemma reduced_refl map_ targets :
  well_keyed heap map_ → (∀ a, a ∈ targets → registered heap map_ a) →
  reduced heap map_ targets map_.
Proof. intros Hwk Ht. split_and!; [done|done|done| |]; [done|by left]. Qed.

Lemma reachable_from_mono targets targets' a :
  (∀ b, b ∈ targets → reachable_from heap targets' b) →
  reachable_from heap targets a → reachable_from heap targets' a.
Proof.
  intros Hsub. induction 1 as [a Ha|a b _ IH Hb]; [by apply Hsub|].
  by eapply reachable_step.
Qed.

Lemma reduced_trans map_ r1 r2 targets1 targets2 :
  reduced heap map_ targets1 r1 → reduced heap r1 targets2 r2 →
  reduced heap map_ (targets1 ++ targets2) r2.
Proof.
  intros (Hwk1 & Hp1 & Ht1 & Hc1 & Hs1) (Hwk2 & Hp2 & Ht2 & Hc2 & Hs2).
  split_and!.
  - done.
  - by etrans.
  - intros a Ha. apply elem_of_app in Ha as [Ha|Ha]; [|by auto].
    eapply registered_prefix; eauto.
  - intros b Hb Hnb c Hc.
    destruct (decide (registered heap r1 b)) as [Hb1|Hb1].
    + eapply registered_prefix; eauto.
    + eauto.
  - intros b Hb. destruct (Hs2 b Hb) as [Hb1|Hb2].
    + destruct (Hs1 b Hb1) as [?|Hr]; [by left|right].
      eapply reachable_from_mono; [|done].
      intros ? ?. apply reachable_target, elem_of_app. by left.
    + right. eapply reachable_from_mono; [|done].
      intros ? ?. apply reachable_target, elem_of_app. by right.
Qed.

Lemma outcome_weaken fuel map_ targets targets' res :
  (∀ a, a ∈ targets' ↔ a ∈ targets) →
  outcome heap fuel map_ targets res → outcome heap fuel map_ targets' res.
Proof.
  intros Hsub. destruct res as [r| |]; simpl; [|done|done].
  intros (Hwk & Hp & Ht & Hc & Hs). split_and!; auto.
  - intros a Ha. by apply Ht, Hsub.
  - intros b Hb. destruct (Hs b Hb) as [?|Hr]; [by left|right].
    eapply reachable_from_mono; [|done].
    intros ? ?. by apply reachable_target, Hsub.
Qed.

Lemma outcome_bind fuel map_ targets1 targets2
    (x : Result (OrderedDict addr)) (k : OrderedDict addr → Result (OrderedDict addr)) :
  outcome heap fuel map_ targets1 x →
  (∀ r, well_keyed heap r → outcome heap fuel r targets2 (k r)) →
  outcome heap fuel map_ (targets1 ++ targets2) (x ≫= k).
Proof.
  destruct x as [r| |]; simpl; [|done|done].
  intros Hx Hk. pose proof Hx as (Hwk & Hp & _).
  specialize (Hk r Hwk). destruct (k r) as [r'| |]; simpl in *; [|done|].
  - eapply reduced_trans; eauto.
  - apply prefix_length in Hp. lia.
Qed.

Lemma outcome_ret fuel map_ targets :
  well_keyed heap map_ → (∀ a, a ∈ targets → registered heap map_ a) →
  outcome heap fuel map_ targets (Ok map_).
Proof. intros. by apply reduced_refl. Qed.

Lemma outcome_foldM {B} fuel (g : OrderedDict addr → B → Result (OrderedDict addr))
    (tg : B → list addr) (l : list B) :
  (∀ (map_ : OrderedDict addr) x, x ∈ l → well_keyed heap map_ → outcome heap fuel map_ (tg x) (g map_ x)) →
  ∀ map_ : OrderedDict addr, well_keyed heap map_ →
    outcome heap fuel map_ (l ≫= tg) (foldM g map_ l).
Proof.
  induction l as [|x l IH]; intros Hg map_ Hwk; simpl.
  - apply reduced_refl; [done|]. intros a Ha. by apply elem_of_nil in Ha.
  - apply outcome_bind.
    + apply Hg; [left|done].
    + intros r Hr. apply IH; [|done]. intros ? ? ?. apply Hg. by right.
Qed.

Lemma reducer_peel fuel map_ (t : GraphQLType addr) :
  reducer heap to_str fuel map_ (Some t)
  = reducer heap to_str fuel map_ (Some (Named (get_named_type t))).
Proof. destruct fuel; induction t; simpl in *; done. Qed.

Section visit.
Variable fuel : nat.
Variable reducer_ :
  OrderedDict addr → option (GraphQLType addr) → Result (OrderedDict addr).
Hypothesis reducer_outcome : ∀ map_ t,
  well_keyed heap map_ →
  outcome heap fuel map_ (root_types [t]) (reducer_ map_ t).

Lemma reducer_field_outcome type_ is_input map_ (item : string * FieldDef addr) :
  well_keyed heap map_ →
  outcome heap fuel map_ (field_references item.2)
    (reducer_field heap to_str reducer_ type_ is_input map_ item).
Proof.
  intros Hwk. destruct item as [field_name field]. unfold reducer_field.
  simpl. destruct is_input.
  - destruct field as [type args|type]; simpl; [done|].
    destruct (is_input_type heap type); simpl; [|done].
    by apply (reducer_outcome map_ (Some type)).
  - destruct (is_output_type heap (field_type field)); simpl; [|done].
    destruct field as [type args|type]; simpl; [|done].
    eapply outcome_weaken; cycle 1.
    + apply outcome_bind with (targets2 := root_types [Some type]).
      * apply (outcome_foldM fuel _
          (λ item : string * GraphQLArgument addr,
             [get_named_type (arg_type item.2)])); [|done].
        intros m [arg_name arg] _ Hm; simpl.
        destruct (is_input_type heap (arg_type arg)); simpl; [|done].
        by apply (reducer_outcome m (Some (arg_type arg))).
      * intros r Hr. by apply reducer_outcome.
    + intros a. unfold OrderedDict.values.
      rewrite elem_of_app, elem_of_cons, list_elem_of_bind.
      rewrite <- list_fmap_compose, list_elem_of_fmap.
      change (root_types [Some type]) with [get_named_type type].
      rewrite list_elem_of_singleton.
      setoid_rewrite list_elem_of_singleton. naive_solver.
Qed.

Lemma reducer_names_outcome map_ (l : list addr) :
  well_keyed heap map_ →
  outcome heap fuel map_ l
    (foldM (λ reduced_map t, reducer_ reduced_map (Some (Named t))) map_ l).
Proof.
  intros Hwk. eapply outcome_weaken; cycle 1.
  - apply (outcome_foldM fuel _ (λ t, [t])); [|done].
    intros m t _ Hm. by apply (reducer_outcome m (Some (Named t))).
  - intros a. rewrite list_elem_of_bind.
    setoid_rewrite list_elem_of_singleton. naive_solver.
Qed.

Lemma reducer_fields_outcome type_ is_input map_ (field_map : OrderedDict (FieldDef addr)) :
  well_keyed heap map_ →
  outcome heap fuel map_ (OrderedDict.values field_map ≫= field_references)
    (foldM (reducer_field heap to_str reducer_ type_ is_input) map_ field_map).
Proof.
  intros Hwk. eapply outcome_weaken; cycle 1.
  - apply (outcome_foldM fuel _ (λ item, field_references item.2)); [|done].
    intros m item _ Hm. by apply reducer_field_outcome.
  - intros a. unfold OrderedDict.values. rewrite !list_elem_of_bind.
    setoid_rewrite list_elem_of_fmap. naive_solver.
Qed.

Lemma reducer_visit_outcome map_ a :
  well_keyed heap map_ → OrderedDict.get map_ (name (heap a)) = None →
  outcome heap (S fuel) map_ [a] (reducer_visit heap to_str reducer_ map_ a).
Proof.
  intros Hwk Hfresh. unfold reducer_visit. rewrite set_fresh by done.
  pose proof (well_keyed_set _ _ Hwk Hfresh) as Hwk1.
  set (map1 := map_ ++ [(name (heap a), a)]) in *.
  assert (registered heap map1 a) as Ha1.
  { apply elem_of_app. right. left. }
  match goal with |- outcome _ _ _ _ ?body =>
    assert (outcome heap fuel map1 (references heap a) body) as Hbody
  end.
  { pose proof (get_types_returns heap to_str a) as Htypes.
    pose proof (get_interfaces_returns heap to_str a) as Hinterfaces.
    pose proof (get_fields_returns heap to_str a) as Hfields.
    unfold references, is_union_type, is_object_type, is_interface_type.
    destruct (def (heap a)) as [| |fields interfaces|fields|types|fields]
      eqn:Hdef; simpl in *.
    - apply reduced_refl; [done|]. intros ? Hin. by apply elem_of_nil in Hin.
    - apply reduced_refl; [done|]. intros ? Hin. by apply elem_of_nil in Hin.
    - destruct (get_interfaces heap to_str a) as [l| |]; simpl in *;
        [|done|done].
      destruct Hinterfaces as [[fields' [= <- <-]] _].
      apply outcome_bind; [by apply reducer_names_outcome|].
      intros r Hr.
      destruct (get_fields heap to_str a) as [field_map| |]; simpl in *;
        [|done|done].
      destruct Hfields as [[= <-] _]. by apply reducer_fields_outcome.
    - destruct (get_fields heap to_str a) as [field_map| |]; simpl in *;
        [|done|done].
      destruct Hfields as [[= <-] _]. by apply reducer_fields_outcome.
    - destruct (get_types heap to_str a) as [l| |]; simpl in *;
        [|done|done].
      destruct Htypes as ([= <-] & _).
      eapply outcome_weaken; cycle 1.
      + apply outcome_bind with (targets2 := []);
          [by apply reducer_names_outcome|].
        intros r Hr. apply outcome_ret; [done|].
        intros ? Hin. by apply elem_of_nil in Hin.
      + intros c. by rewrite app_nil_r.
    - destruct (get_fields heap to_str a) as [field_map| |]; simpl in *;
        [|done|done].
      destruct Hfields as [[= <-] _]. by apply reducer_fields_outcome. }
  destruct (_ ≫= _) as [r| |]; simpl in *; [|done|].
  - destruct Hbody as (Hwkr & Hp & Ht & Hc & Hs). split_and!.
    + done.
    + etrans; [|done]. by apply prefix_app_r.
    + intros ? ->%list_elem_of_singleton. eapply registered_prefix; eauto.
    + intros b Hb Hnb c Hcb.
      destruct (decide (registered heap map1 b)) as [Hb1|Hb1]; [|by eauto].
      apply elem_of_app in Hb1 as [Hb1|Hb1]; [done|].
      apply list_elem_of_singleton in Hb1 as [= _ ->]. by apply Ht.
    + intros b Hb. destruct (Hs b Hb) as [Hb1|Hr].
      * apply elem_of_app in Hb1 as [Hb1|Hb1]; [by left|right].
        apply list_elem_of_singleton in Hb1 as [= _ ->].
        apply reachable_target. left.
      * right. eapply reachable_from_mono; [|done].
        intros c Hca. eapply reachable_step; [|done].
        apply reachable_target. left.
  - subst map1. rewrite length_app in Hbody. simpl in *. lia.
Qed.
End visit.

Lemma reducer_outcome fuel : ∀ map_ t,
  well_keyed heap map_ →
  outcome heap fuel map_ (root_types [t]) (reducer heap to_str fuel map_ t).
Proof.
  induction fuel as [|fuel IH]; intros map_ [t|] Hwk;
    try (apply outcome_ret; [done|]; intros ? Hin; by apply elem_of_nil in Hin);
    rewrite reducer_peel; change (root_types [Some t]) with [get_named_type t];
    generalize (get_named_type t); intros a; simpl.
  - destruct (OrderedDict.get map_ (name (heap a))) as [known|] eqn:Hget.
    + case_bool_decide; simpl; [|done]. subst known.
      apply reduced_refl; [done|].
      intros ? ->%list_elem_of_singleton. by apply get_Some_elem.
    + simpl. pose proof (well_keyed_length _ Hwk).
      apply get_None in Hget. destruct Hwk as [Hnd Hown].
      cut (length map_ < card addr); [lia|].
      cut (length ((name (heap a), a) :: map_) ≤ card addr); [simpl; lia|].
      apply well_keyed_length. split.
      * unfold OrderedDict.keys. simpl. by apply NoDup_cons.
      * intros n b [[= -> ->]|Hin]%elem_of_cons; auto.
  - destruct (OrderedDict.get map_ (name (heap a))) as [known|] eqn:Hget.
    + case_bool_decide; simpl; [|done]. subst known.
      apply reduced_refl; [done|].
      intros ? ->%list_elem_of_singleton. by apply get_Some_elem.
    + by apply reducer_visit_outcome.
Qed.
End ReducerProofs.

(** ** Fuel and the fold over the roots *)

Section ConstructionProofs.
Context {addr : Type} `{Finite addr}.
Variable heap : addr → NamedType addr.
Variable to_str : GraphQLType addr → string.
Implicit Types (r : OrderedDict addr) (a b c : addr)
  (targets : list addr) (fuel : nat) (types : list (option (GraphQLType addr))).

(** *** The fold over the roots *)

Lemma reduce_types_outcome fuel types :
  outcome heap fuel [] (root_types types) (reduce_types heap to_str fuel types).
Proof.
  unfold reduce_types. eapply outcome_weaken; cycle 1.
  - apply (outcome_foldM heap fuel _ (λ t, root_types [t])).
    + intros m t _ Hm. by apply reducer_outcome.
    + apply well_keyed_nil.
  - intros a. unfold root_types.
    rewrite list_elem_of_omap, list_elem_of_bind.
    setoid_rewrite list_elem_of_omap.
    setoid_rewrite list_elem_of_singleton. naive_solver.
Qed.

Lemma reduced_nil targets r :
  reduced heap [] targets r →
  well_keyed heap r ∧ ∀ a, registered heap r a ↔ reachable_from heap targets a.
Proof.
  intros (Hwk & _ & Ht & Hc & Hs). split; [done|]. intros a. split.
  - intros Ha. destruct (Hs a Ha) as [Hnil|?]; [|done].
    by apply elem_of_nil in Hnil.
  - induction 1 as [a Ha|a b _ IH Hb]; [by apply Ht|].
    eapply Hc; [done| |done]. intros Hnil. by apply elem_of_nil in Hnil.
Qed.

Lemma reduced_nil_closed targets r a c :
  reduced heap [] targets r →
  registered heap r a → c ∈ references heap a → registered heap r c.
Proof.
  intros (_ & _ & _ & Hc & _) Ha Hca. eapply Hc; [done| |done].
  intros Hnil. by apply elem_of_nil in Hnil.
Qed.

Lemma reduce_types_enough_fuel types :
  reduce_types heap to_str (S (card addr)) types ≠ OutOfFuel.
Proof.
  pose proof (reduce_types_outcome (S (card addr)) types) as Hout.
  intros Heq. rewrite Heq in Hout. simpl in Hout. lia.
Qed.

(** *** More fuel changes nothing *)

Section approx.
Variables reducer1 reducer2 :
  OrderedDict addr → option (GraphQLType addr) → Result (OrderedDict addr).
Hypothesis reducer_approx : ∀ m t, approx (reducer1 m t) (reducer2 m t).

Lemma reducer_field_approx type_ is_input m item :
  approx (reducer_field heap to_str reducer1 type_ is_input m item)
         (reducer_field heap to_str reducer2 type_ is_input m item).
Proof.
  destruct item as [field_name field]. unfold reducer_field.
  apply approx_bind; [|done]. destruct is_input; [apply approx_refl|].
  apply approx_bind; [apply approx_refl|]. intros _.
  apply approx_bind; [apply approx_refl|]. intros args.
  apply approx_foldM. intros m' [arg_name arg].
  apply approx_bind; [apply approx_refl|done].
Qed.

Lemma reducer_visit_approx m a :
  approx (reducer_visit heap to_str reducer1 m a) (reducer_visit heap to_str reducer2 m a).
Proof.
  unfold reducer_visit. apply approx_bind.
  { destruct (is_union_type heap a); [|apply approx_refl].
    apply approx_bind; [apply approx_refl|]. intros l. by apply approx_foldM. }
  intros m1. apply approx_bind.
  { destruct (is_object_type heap a); [|apply approx_refl].
    apply approx_bind; [apply approx_refl|]. intros l. by apply approx_foldM. }
  intros m2. destruct (_ || _); [|apply approx_refl].
  apply approx_bind; [apply approx_refl|]. intros field_map.
  apply approx_foldM. intros. apply reducer_field_approx.
Qed.
End approx.

Lemma reducer_S fuel : ∀ m t,
  approx (reducer heap to_str fuel m t) (reducer heap to_str (S fuel) m t).
Proof.
  induction fuel as [|fuel IH]; intros m [t|]; try apply approx_refl;
    rewrite !(reducer_peel _ _ _ _ t); generalize (get_named_type t); intros a.
  - simpl. destruct (OrderedDict.get m (name (heap a))); [by right|by left].
  - change (approx (reducer heap to_str (S fuel) m (Some (Named a)))
                   (reducer heap to_str (S (S fuel)) m (Some (Named a)))).
    simpl. destruct (OrderedDict.get m (name (heap a))); [by right|].
    by apply reducer_visit_approx.
Qed.

Lemma reducer_le fuel fuel' m t :
  fuel ≤ fuel' → approx (reducer heap to_str fuel m t) (reducer heap to_str fuel' m t).
Proof.
  induction 1 as [|fuel' _ IH]; [apply approx_refl|].
  destruct IH as [?| ->]; [by left|]. apply reducer_S.
Qed.

Lemma reduce_types_le fuel fuel' types :
  fuel ≤ fuel' →
  approx (reduce_types heap to_str fuel types) (reduce_types heap to_str fuel' types).
Proof.
  intros Hle. unfold reduce_types. apply approx_foldM.
  intros m t. by apply reducer_le.
Qed.

Lemma init_le fuel fuel' types :
  fuel ≤ fuel' → approx (__init__ heap to_str fuel types) (__init__ heap to_str fuel' types).
Proof.
  intros Hle. unfold __init__. apply approx_bind; [by apply reduce_types_le|].
  intros m. apply approx_refl.
Qed.
End ConstructionProofs.

(** ** An induction principle for the maps the reducer returns *)

Section ReducerInduction.
Context {addr : Type} `{Finite addr}.
Variable heap : addr → NamedType addr.
Variable to_str : GraphQLType addr → string.

(** [P map_ r] is shown of every map [r] the reducer returns on [map_] when
    it holds of the single step the reducer takes: registering a type of
    a new name, whose properties can be read and all of whose fields pass
    the assertions. *)
Variable P : OrderedDict addr → OrderedDict addr → Prop.
Hypothesis P_refl : ∀ m, P m m.
Hypothesis P_trans : ∀ m1 m2 m3, P m1 m2 → P m2 m3 → P m1 m3.
Hypothesis P_visit : ∀ m a,
  OrderedDict.get m (name (heap a)) = None →
  readable heap to_str a = true → fields_ok heap a = true →
  P m (m ++ [(name (heap a), a)]).

Section visit.
Variable reducer_ :
  OrderedDict addr → option (GraphQLType addr) → Result (OrderedDict addr).
Hypothesis reducer__Ok : ∀ m t r, reducer_ m t = Ok r → P m r.

Lemma reducer_args_Ok type_s field_name m
    (args : OrderedDict (GraphQLArgument addr)) r :
  foldM (λ reduced_map '(arg_name, arg),
           assert (is_input_type heap (arg_type arg))
             (type_s +:+ "." +:+ field_name +:+ "(" +:+ arg_name
                +:+ ":) argument type must be Input Type but got: "
                +:+ to_str (arg_type arg) +:+ ".");;
           reducer_ reduced_map (Some (arg_type arg)))
        m args = Ok r →
  P m r
  ∧ forallb (λ arg, is_input_type heap (arg_type arg)) (OrderedDict.values args)
    = true.
Proof.
  revert m. induction args as [|[arg_name arg] args IH]; intros m; simpl.
  - intros [= ->]. auto.
  - intros (m1 & [Harg Hm1]%assert_Ok & Hr)%bind_Ok.
    apply IH in Hr as [Hr Hargs]. rewrite Harg. simpl. split; [|done].
    eapply P_trans; [|done]. by eapply reducer__Ok.
Qed.

Lemma reducer_field_Ok type_ is_input m (item : string * FieldDef addr) r :
  reducer_field heap to_str reducer_ type_ is_input m item = Ok r →
  P m r
  ∧ (if is_input then input_field_ok heap item.2
     else output_field_ok heap item.2) = true.
Proof.
  destruct item as [field_name field]. unfold reducer_field. simpl.
  intros (m1 & Hchecks & Hr)%bind_Ok. apply reducer__Ok in Hr.
  destruct is_input.
  - apply assert_Ok in Hchecks as [Hclass Hchecks].
    apply assert_Ok in Hchecks as [Htype [= ->]].
    unfold input_field_ok. by rewrite Hclass, Htype.
  - apply assert_Ok in Hchecks as [Htype Hchecks].
    apply bind_Ok in Hchecks as (args & Hargs & Hfold).
    destruct field as [type args'|type]; simpl in Hargs; [|done].
    injection Hargs as ->. apply reducer_args_Ok in Hfold as [Hm1 Hall].
    unfold output_field_ok. rewrite Htype, Hall. split; [|done].
    by eapply P_trans.
Qed.

Lemma reducer_names_Ok m (l : list addr) r :
  foldM (λ reduced_map t, reducer_ reduced_map (Some (Named t))) m l = Ok r →
  P m r.
Proof.
  apply (foldM_Ok_rel P); [done|done|].
  intros ? ? ? _. apply reducer__Ok.
Qed.

Lemma reducer_fields_Ok type_ is_input m
    (field_map : OrderedDict (FieldDef addr)) r :
  foldM (reducer_field heap to_str reducer_ type_ is_input) m field_map = Ok r →
  P m r
  ∧ forallb (if is_input then input_field_ok heap else output_field_ok heap)
            (OrderedDict.values field_map) = true.
Proof.
  revert m. induction field_map as [|item field_map IH]; intros m; simpl.
  - intros [= ->]. auto.
  - intros (m1 & [Hm1 Hitem]%reducer_field_Ok & Hr)%bind_Ok.
    apply IH in Hr as [Hr Hall]. split; [by eapply P_trans|].
    destruct is_input; by rewrite Hitem, Hall.
Qed.

Lemma reducer_visit_Ok m a r :
  OrderedDict.get m (name (heap a)) = None →
  reducer_visit heap to_str reducer_ m a = Ok r →
  P (m ++ [(name (heap a), a)]) r
  ∧ readable heap to_str a = true ∧ fields_ok heap a = true.
Proof.
  intros Hfresh. unfold reducer_visit. rewrite set_fresh by done.
  unfold readable, fields_ok, is_union_type, is_object_type, is_interface_type.
  pose proof (get_types_Ok heap to_str a) as Htypes.
  pose proof (get_interfaces_Ok heap to_str a) as Hinterfaces.
  pose proof (get_fields_Ok heap to_str a) as Hfields.
  destruct (def (heap a)) as [| |fields interfaces|fields|types|fields]
    eqn:Hdef; simpl in *.
  - intros [= ->]. auto.
  - intros [= ->]. auto.
  - intros (m1 & (l & Hl & Hm1%reducer_names_Ok)%bind_Ok
               & (field_map & Hfm & Hr)%bind_Ok)%bind_Ok.
    rewrite Hl, Hfm. destruct (Hfields _ Hfm) as [[= <-] _].
    apply reducer_fields_Ok in Hr as [Hr Hall].
    split_and!; [by eapply P_trans|done|done].
  - intros (field_map & Hfm & Hr)%bind_Ok.
    rewrite Hfm. destruct (Hfields _ Hfm) as [[= <-] _].
    by apply reducer_fields_Ok in Hr as [Hr Hall].
  - intros (m1 & (l & Hl & Hm1%reducer_names_Ok)%bind_Ok & [= ->])%bind_Ok.
    by rewrite Hl.
  - intros (field_map & Hfm & Hr)%bind_Ok.
    rewrite Hfm. destruct (Hfields _ Hfm) as [[= <-] _].
    by apply reducer_fields_Ok in Hr as [Hr Hall].
Qed.
End visit.

Lemma reducer_Ok fuel : ∀ m t r,
  reducer heap to_str fuel m t = Ok r → P m r.
Proof.
  induction fuel as [|fuel IH]; intros m [t|] r;
    try (simpl; intros [= ->]; by apply P_refl);
    rewrite reducer_peel; generalize (get_named_type t); intros a; simpl;
    destruct (OrderedDict.get m (name (heap a))) as [known|] eqn:Hget;
    try (intros [_ [= ->]]%assert_Ok; by apply P_refl); [done|].
  intros (Hr & Hread & Hok)%reducer_visit_Ok; [|done|done].
  eapply P_trans; [|done]. by apply P_visit.
Qed.

Lemma reduce_from_Ok fuel (types : list (option (GraphQLType addr))) m r :
  foldM (reducer heap to_str fuel) m types = Ok r → P m r.
Proof.
  apply (foldM_Ok_rel P); [done|done|].
  intros ? ? ? _. apply reducer_Ok.
Qed.
End ReducerInduction.

(** ** What the construction has read *)

Lemma foldM_ext_in {A B} (f g : A → B → Result A) (l : list B) :
  (∀ a x, x ∈ l → f a x = g a x) → ∀ a, foldM f a l = foldM g a l.
Proof.
  induction l as [|x l IH]; intros Hfg a; simpl; [done|].
  rewrite Hfg by left. destruct (g a x); simpl; [|done|done].
  apply IH. intros ? ? ?. apply Hfg. by right.
Qed.

Section ReadByTheReducer.
Context {addr : Type} `{Finite addr}.
Variable heap : addr → NamedType addr.
Variable to_str : GraphQLType addr → string.
Implicit Types (a b c : addr) (m r : OrderedDict addr)
  (types : list (option (GraphQLType addr))).

(** The reducer has read the properties of every type it has added. *)
Lemma reduce_from_read fuel types m r :
  foldM (reducer heap to_str fuel) m types = Ok r →
  ∀ x, x ∈ r → x ∈ m ∨ readable heap to_str x.2 = true.
Proof.
  apply (reduce_from_Ok heap to_str
           (λ m r, ∀ x, x ∈ r → x ∈ m ∨ readable heap to_str x.2 = true)).
  - auto.
  - intros m1 m2 m3 H12 H23 x Hx. destruct (H23 x Hx); auto.
  - intros m1 a _ Hread _ x [Hx|Hx]%elem_of_app; [by left|right].
    by apply list_elem_of_singleton in Hx as ->.
Qed.

Lemma reduce_types_read fuel types m a :
  reduce_types heap to_str fuel types = Ok m →
  a ∈ OrderedDict.values m → readable heap to_str a = true.
Proof.
  intros Hm Ha. unfold OrderedDict.values in Ha.
  apply list_elem_of_fmap in Ha as (x & -> & Hx).
  destruct (reduce_from_read _ _ _ _ Hm x Hx) as [Hnil|Hread]; [|done].
  by apply elem_of_nil in Hnil.
Qed.

(** Where the properties of an object type can be read, [interfaces] is
    the list the type was declared with. *)
Lemma readable_interfaces a :
  readable heap to_str a = true →
  (if is_object_type heap a
   then get_interfaces heap to_str a = Ok (object_interfaces heap a)
   else object_interfaces heap a = []).
Proof.
  unfold readable, is_object_type, object_interfaces.
  pose proof (get_interfaces_Ok heap to_str a) as Hinterfaces.
  destruct (def (heap a)) as [| |fields interfaces| | |] eqn:Hdef; try done.
  destruct (get_interfaces heap to_str a) as [l| |]; try done.
  destruct (Hinterfaces l eq_refl) as [[fields' [= <- <-]] _]. done.
Qed.

Lemma readable_types a (members : list addr) :
  readable heap to_str a = true →
  def (heap a) = GraphQLUnionType members →
  get_types heap to_str a = Ok members ∧ members ≠ [].
Proof.
  unfold readable. intros Hread Hdef. rewrite Hdef in Hread.
  pose proof (get_types_Ok heap to_str a) as Htypes.
  destruct (get_types heap to_str a) as [l| |]; try done.
  destruct (Htypes l eq_refl) as (Hl & Hne & _).
  rewrite Hdef in Hl. injection Hl as <-. done.
Qed.

Lemma readable_fields a field_map :
  readable heap to_str a = true →
  declared_fields (def (heap a)) = Some field_map →
  get_fields heap to_str a = Ok field_map.
Proof.
  unfold readable. intros Hread Hdef.
  pose proof (get_fields_Ok heap to_str a) as Hfields.
  assert (is_Ok (get_fields heap to_str a) = true) as Hok.
  { destruct (def (heap a)); try done. by apply andb_true_iff in Hread as [_ ?]. }
  destruct (get_fields heap to_str a) as [l| |]; try done.
  destruct (Hfields l eq_refl) as [Hl _]. congruence.
Qed.

(** The loop over the [interfaces] of types that have been read is the
    loop over the declared interfaces. *)
Lemma build_implementations_read (values : list addr) :
  (∀ a, a ∈ values → readable heap to_str a = true) →
  build_implementations heap to_str values
  = Ok (declared_implementations heap values).
Proof.
  unfold build_implementations, declared_implementations.
  generalize (∅ : gmap string (list addr)).
  induction values as [|a values IH]; intros acc Hread; [done|].
  cbn [foldM fold_left].
  pose proof (readable_interfaces a (Hread a ltac:(left))) as Ha.
  destruct (is_object_type heap a).
  - rewrite Ha. cbn [mbind Result_bind]. apply IH.
    intros ? ?. apply Hread. by right.
  - rewrite Ha. cbn [mbind Result_bind fold_left]. apply IH.
    intros ? ?. apply Hread. by right.
Qed.

Lemma enforce_implementations_read (self : GraphQLTypeMap addr) :
  (∀ a, a ∈ OrderedDict.values (items self) → readable heap to_str a = true) →
  enforce_implementations heap to_str self = enforce_declared heap to_str self.
Proof.
  intros Hread. unfold enforce_implementations, enforce_declared.
  apply foldM_ext_in. intros self' a Ha.
  pose proof (readable_interfaces a (Hread a Ha)) as Hinterfaces.
  destruct (is_object_type heap a); by rewrite Hinterfaces.
Qed.

(** [__init__], with its two loops over the declared interfaces. *)
Lemma init_declared fuel types :
  __init__ heap to_str fuel types
  = (map_ ← reduce_types heap to_str fuel types;
     enforce_declared heap to_str
       {| items := map_;
          _possible_type_map := ∅;
          _implementations :=
            declared_implementations heap (OrderedDict.values map_) |}).
Proof.
  unfold __init__.
  destruct (reduce_types heap to_str fuel types) as [m| |] eqn:Hm; [|done|done].
  cbn [mbind Result_bind].
  rewrite build_implementations_read
    by (intros a Ha; by eapply reduce_types_read).
  cbn [mbind Result_bind]. apply enforce_implementations_read.
  intros a Ha. by eapply reduce_types_read.
Qed.
End ReadByTheReducer.

(** ** The possible-type queries *)

Section QueryProofs.
Context {addr : Type} `{Finite addr}.
Variable heap : addr → NamedType addr.
Variable to_str : GraphQLType addr → string.
Implicit Types (self schema : GraphQLTypeMap addr) (a b c : addr)
  (types : list (option (GraphQLType addr))).

(** *** The implementer index *)

Lemma append_implementations_lookup gql_type interfaces
    (acc : gmap string (list addr)) n :
  default [] (fold_left (append_implementation heap gql_type) interfaces acc !! n)
  = default [] (acc !! n)
      ++ (interfaces ≫= λ interface,
            if decide (name (heap interface) = n) then [gql_type] else []).
Proof.
  revert acc. induction interfaces as [|i l IH]; intros acc; simpl.
  - by rewrite app_nil_r.
  - rewrite IH. unfold append_implementation.
    case_decide as Hn.
    + subst n. rewrite lookup_insert_eq. simpl. by rewrite <- app_assoc.
    + by rewrite lookup_insert_ne.
Qed.

Lemma fold_implementations_lookup values (acc : gmap string (list addr)) n :
  default []
    (fold_left (λ implementations gql_type,
                  fold_left (append_implementation heap gql_type)
                            (object_interfaces heap gql_type) implementations)
               values acc !! n)
  = default [] (acc !! n) ++ implementers heap values n.
Proof.
  unfold implementers. revert acc.
  induction values as [|v l IH]; intros acc; simpl.
  - by rewrite app_nil_r.
  - rewrite IH, append_implementations_lookup. by rewrite <- app_assoc.
Qed.

Lemma declared_implementations_lookup values n :
  default [] (declared_implementations heap values !! n)
  = implementers heap values n.
Proof.
  unfold declared_implementations. by rewrite fold_implementations_lookup.
Qed.

Lemma get_possible_types_interface self a fields :
  def (heap a) = GraphQLInterfaceType fields →
  get_possible_types heap to_str self a
  = Ok (default [] (_implementations self !! name (heap a))).
Proof.
  intros Hdef. unfold get_possible_types. rewrite Hdef.
  by destruct (_ !! _).
Qed.

(** *** [is_possible_type] *)

Lemma get_possible_types_frame self self' a :
  _implementations self' = _implementations self →
  get_possible_types heap to_str self' a = get_possible_types heap to_str self a.
Proof. intros Himpl. unfold get_possible_types. by rewrite Himpl. Qed.

Lemma is_possible_type_Ok self a c answer self' :
  is_possible_type heap to_str self a c = Ok (answer, self') →
  ∃ l, get_possible_types heap to_str self a = Ok l ∧ l ≠ []
       ∧ items self' = items self
       ∧ _implementations self' = _implementations self
       ∧ (match _possible_type_map self !! name (heap a) with
          | Some s =>
              _possible_type_map self' = _possible_type_map self
              ∧ answer = bool_decide (name (heap c) ∈ s)
          | None =>
              _possible_type_map self'
              = <[name (heap a) := list_to_set (names heap l)]>
                  (_possible_type_map self)
              ∧ answer = bool_decide (name (heap c) ∈ names heap l)
          end).
Proof.
  unfold is_possible_type.
  destruct (get_possible_types heap to_str self a) as [l| |]; simpl; [|done|done].
  destruct (bool_decide (l ≠ [])) eqn:Hl; simpl; [|done].
  apply bool_decide_eq_true in Hl.
  intros [= <- <-]. exists l. split_and!; try done. simpl.
  destruct (_possible_type_map self !! name (heap a)) as [s|] eqn:Hs.
  - by rewrite Hs.
  - rewrite lookup_insert_eq. simpl. rewrite (left_id_L ∅ (∪)).
    split; [done|]. apply bool_decide_ext. apply elem_of_list_to_set.
Qed.

Lemma is_possible_type_empty self a c :
  get_possible_types heap to_str self a = Ok [] →
  is_possible_type heap to_str self a c
  = Raise (AssertionError (no_possible_types_message to_str a)).
Proof. intros Hl. unfold is_possible_type. by rewrite Hl. Qed.

Lemma is_possible_type_returns self a c :
  returns (λ _, True) (is_possible_type heap to_str self a c).
Proof.
  unfold is_possible_type.
  destruct (get_possible_types heap to_str self a) as [l| |] eqn:Hl; simpl; [|done|].
  - by destruct (bool_decide (l ≠ [])).
  - unfold get_possible_types in Hl.
    pose proof (get_types_returns heap to_str a) as Hret.
    destruct (def (heap a)); try done; [by destruct (_ !! _)|].
    by rewrite Hl in Hret.
Qed.

(** Of a union, [get_possible_types] is what reading [types] gives: the
    declared members, of which there is one, or the exception of the
    read. *)
Lemma get_possible_types_union self a (members : list addr) :
  def (heap a) = GraphQLUnionType members →
  get_possible_types heap to_str self a = get_types heap to_str a
  ∧ ∀ l, get_types heap to_str a = Ok l → l = members ∧ l ≠ [].
Proof.
  intros Hdef. unfold get_possible_types. rewrite Hdef. split; [done|].
  intros l (Hl & Hne & _)%get_types_Ok. rewrite Hdef in Hl.
  by injection Hl as <-.
Qed.
End QueryProofs.

(** ** The conformance check *)

Section ConformanceProofs.
Context {addr : Type} `{Finite addr}.
Variable heap : addr → NamedType addr.
Variable to_str : GraphQLType addr → string.
Implicit Types (self schema : GraphQLTypeMap addr) (a b c : addr)
  (types : list (option (GraphQLType addr))) (t : GraphQLType addr).

Lemma is__eq t1 t2 : is_ t1 t2 = true ↔ t1 = t2.
Proof.
  revert t2. induction t1 as [a|t1 IH|t1 IH]; intros [b|t2|t2]; simpl;
    try (split; [done|by intros [=]]).
  - rewrite bool_decide_eq_true. split; [by intros ->|by intros [=]].
  - rewrite IH. split; [by intros ->|by intros [=]].
  - rewrite IH. split; [by intros ->|by intros [=]].
Qed.

(** [is_equal_type] holds of identical types only. *)
Lemma is_equal_type_eq t1 t2 : is_equal_type t1 t2 = true ↔ t1 = t2.
Proof.
  revert t2. induction t1 as [a|t1 IH|t1 IH]; intros [b|t2|t2];
    try (split; [done|by intros [=]]).
  - change (is_equal_type (Named a) (Named b)) with
      (if bool_decide (a = b) then true else false).
    case_bool_decide; [by subst|]. split; [done|by intros [=]].
  - change (is_equal_type (GraphQLList t1) (GraphQLList t2)) with
      (if is_ t1 t2 then true else is_equal_type t1 t2).
    destruct (is_ t1 t2) eqn:His.
    + apply is__eq in His. by subst.
    + rewrite IH. split; [by intros ->|by intros [=]].
  - change (is_equal_type (GraphQLNonNull t1) (GraphQLNonNull t2)) with
      (if is_ t1 t2 then true else is_equal_type t1 t2).
    destruct (is_ t1 t2) eqn:His.
    + apply is__eq in His. by subst.
    + rewrite IH. split; [by intros ->|by intros [=]].
Qed.

(** *** The two argument loops *)

Lemma check_interface_args_Ok object interface field_name
    object_type object_args interface_type interface_args :
  check_interface_args to_str object interface field_name
    (GraphQLField object_type object_args)
    (GraphQLField interface_type interface_args) = Ok tt
  ↔ shared_args_identical object_args interface_args.
Proof.
  unfold check_interface_args, shared_args_identical. simpl.
  rewrite forM__Ok. split.
  - intros Hall arg_name interface_arg Hin.
    specialize (Hall _ Hin). simpl in Hall.
    destruct (OrderedDict.get object_args arg_name) as [object_arg|]; [|done].
    exists object_arg. split; [done|].
    destruct (is_equal_type _ _) eqn:Heq; [|done].
    by apply is_equal_type_eq in Heq.
  - intros Hall [arg_name interface_arg] Hin.
    destruct (Hall _ _ Hin) as (object_arg & -> & Heq). simpl.
    apply eq_sym, is_equal_type_eq in Heq. by rewrite Heq.
Qed.

Lemma check_object_args_Ok object interface field_name
    object_type object_args interface_type interface_args :
  check_object_args to_str object interface field_name
    (GraphQLField object_type object_args)
    (GraphQLField interface_type interface_args) = Ok tt
  ↔ extra_args_optional object_args interface_args.
Proof.
  unfold check_object_args, extra_args_optional. simpl.
  rewrite forM__Ok. split.
  - intros Hall arg_name object_arg Hin Hextra.
    specialize (Hall _ Hin). simpl in Hall. rewrite Hextra in Hall.
    by destruct (is_non_null _).
  - intros Hall [arg_name object_arg] Hin. simpl.
    destruct (OrderedDict.get interface_args arg_name) eqn:Hget; [done|].
    by rewrite (Hall _ _ Hin Hget).
Qed.

Lemma check_object_args_Raise object interface field_name
    object_type object_args interface_type interface_args :
  ¬ extra_args_optional object_args interface_args →
  ∃ arg_name object_arg,
    (arg_name, object_arg) ∈ object_args
    ∧ OrderedDict.get interface_args arg_name = None
    ∧ is_non_null (arg_type object_arg) = true
    ∧ check_object_args to_str object interface field_name
        (GraphQLField object_type object_args)
        (GraphQLField interface_type interface_args)
      = Raise (AssertionError
          (required_extra_arg_message to_str object interface field_name arg_name
             (arg_type object_arg))).
Proof.
  intros Hnot.
  rewrite <- (check_object_args_Ok object interface field_name object_type _
                interface_type) in Hnot.
  unfold check_object_args in *. simpl in *.
  apply forM__first_Raise in Hnot as ([arg_name object_arg] & e & Hin & Hx & Hl).
  - exists arg_name, object_arg. rewrite Hl. simpl in Hx.
    destruct (OrderedDict.get interface_args arg_name); [done|].
    destruct (is_non_null (arg_type object_arg)); [|done].
    simpl in Hx. by injection Hx as <-.
  - intros [arg_name object_arg] _. simpl.
    destruct (OrderedDict.get interface_args arg_name); [done|].
    by destruct (is_non_null _).
Qed.

Lemma field_checks_Ok object interface field_name object_field interface_field :
  check_interface_args to_str object interface field_name object_field interface_field
    = Ok tt →
  check_object_args to_str object interface field_name object_field interface_field
    = Ok tt →
  field_conforms object_field interface_field.
Proof.
  intros Hi Ho.
  destruct interface_field as [it ia|it]; [|done].
  destruct object_field as [ot oa|ot]; [|done].
  exists oa, ia. split_and!; [done|done| |].
  - by eapply check_interface_args_Ok.
  - by eapply check_object_args_Ok.
Qed.

Lemma assert_object_implements_interface_Ok schema object interface schema' :
  assert_object_implements_interface heap to_str schema object interface = Ok schema' →
  conforms heap to_str object interface.
Proof.
  unfold assert_object_implements_interface, conforms.
  destruct (get_fields heap to_str object) as [ofm| |]; simpl; [|done|done].
  destruct (get_fields heap to_str interface) as [ifm| |]; simpl; [|done|done].
  intros Hfold. exists ofm, ifm. split_and!; [done|done|].
  intros field_name interface_field Hin.
  eapply foldM_Ok_elem in Hfold as (s1 & s2 & Hstep); [|done].
  simpl in Hstep.
  destruct (OrderedDict.get ofm field_name) as [object_field|]; [|done].
  exists object_field. split; [done|].
  destruct (is_type_sub_type_of _ _ _ _) as [[sub s]| |]; simpl in Hstep; try done.
  destruct sub; simpl in Hstep; [|done].
  destruct (check_interface_args _ _ _ _ _ _) as [[]| |] eqn:Hi;
    simpl in Hstep; try done.
  destruct (check_object_args _ _ _ _ _ _) as [[]| |] eqn:Ho;
    simpl in Hstep; try done.
  by eapply field_checks_Ok.
Qed.

Lemma enforce_declared_Ok self self' object interface :
  enforce_declared heap to_str self = Ok self' →
  object ∈ OrderedDict.values (items self) →
  interface ∈ object_interfaces heap object →
  conforms heap to_str object interface.
Proof.
  unfold enforce_declared. intros Hfold Ho Hi.
  eapply foldM_Ok_elem in Hfold as (s1 & s2 & Hstep); [|done].
  eapply foldM_Ok_elem in Hstep as (s3 & s4 & Hstep); [|done].
  by eapply assert_object_implements_interface_Ok.
Qed.
End ConformanceProofs.

(** ** What the checks leave of the schema object *)

Section SchemaInvariant.
Context {addr : Type} `{Finite addr}.
Variable heap : addr → NamedType addr.
Variable to_str : GraphQLType addr → string.
Implicit Types (self schema : GraphQLTypeMap addr) (a b c : addr)
  (types : list (option (GraphQLType addr))) (t : GraphQLType addr).

(** The map and the index as constructed; only the cache moves. *)
Variable map_ : OrderedDict addr.
Variable implementations : gmap string (list addr).
Hypothesis map_well_keyed : well_keyed heap map_.
Hypothesis map_closed : ∀ a c,
  registered heap map_ a → c ∈ references heap a → registered heap map_ c.

#[local] Abbreviation inv := (schema_inv heap to_str map_ implementations).

Lemma registered_unique a b :
  registered heap map_ a → registered heap map_ b →
  name (heap a) = name (heap b) → a = b.
Proof.
  intros Ha Hb Hname. destruct map_well_keyed as [Hnd _].
  apply (elem_get _ _ _ Hnd) in Ha, Hb. rewrite Hname in Ha. congruence.
Qed.

Lemma is_possible_type_inv self a c :
  inv self → registered heap map_ a →
  returns (λ p, inv p.2) (is_possible_type heap to_str self a c).
Proof.
  intros (Hitems & Himpl & Hcache) Ha.
  pose proof (is_possible_type_returns heap to_str self a c) as Hret.
  destruct (is_possible_type heap to_str self a c) as [[answer self']| |] eqn:Hq;
    [|done|done].
  apply is_possible_type_Ok in Hq as (l & Hl & _ & Hitems' & Himpl' & Hq).
  simpl. split_and!; [congruence|congruence|].
  intros n s Hs.
  destruct (_possible_type_map self !! name (heap a)) as [s0|] eqn:Hs0.
  - destruct Hq as [Hq _]. rewrite Hq in Hs.
    destruct (Hcache n s Hs) as (a' & l' & ? & ? & ? & ?).
    exists a', l'. rewrite Hitems'.
    by rewrite (get_possible_types_frame heap to_str self self').
  - destruct Hq as [Hq _]. rewrite Hq in Hs.
    destruct (decide (name (heap a) = n)) as [<-|Hne].
    + rewrite lookup_insert_eq in Hs. injection Hs as <-.
      exists a, l. rewrite Hitems', Hitems.
      by rewrite (get_possible_types_frame heap to_str self self').
    + rewrite lookup_insert_ne in Hs by done.
      destruct (Hcache n s Hs) as (a' & l' & ? & ? & ? & ?).
      exists a', l'. rewrite Hitems'.
      by rewrite (get_possible_types_frame heap to_str self self').
Qed.

Lemma is_type_sub_type_of_inv maybe_subtype : ∀ super_type schema,
  inv schema → registered heap map_ (get_named_type super_type) →
  returns (λ p, inv p.2)
    (is_type_sub_type_of heap to_str schema maybe_subtype super_type).
Proof.
  induction maybe_subtype as [sub_a|sub_of IH|sub_of IH];
    intros [super_a|super_of|super_of] schema Hinv Hreg; simpl in *;
    repeat (case_match; try done);
    try done; try (by apply IH); try (by apply is_possible_type_inv).
Qed.

Lemma check_interface_args_returns object interface field_name
    object_field interface_field :
  returns (λ _, True)
    (check_interface_args to_str object interface field_name
       object_field interface_field).
Proof.
  unfold check_interface_args.
  destruct interface_field as [it ia|it]; simpl; [|done].
  apply returns_forM_. intros [arg_name interface_arg] _.
  destruct object_field as [ot oa|ot]; simpl; [|done].
  destruct (OrderedDict.get oa arg_name); [|done].
  by destruct (is_equal_type _ _).
Qed.

Lemma check_object_args_returns object interface field_name
    object_field interface_field :
  returns (λ _, True)
    (check_object_args to_str object interface field_name
       object_field interface_field).
Proof.
  unfold check_object_args.
  destruct object_field as [ot oa|ot]; simpl; [|done].
  apply returns_forM_. intros [arg_name object_arg] _.
  destruct interface_field as [it ia|it]; simpl; [|done].
  destruct (OrderedDict.get ia arg_name); [done|].
  by destruct (is_non_null _).
Qed.

Lemma field_type_reference a field_map field_name field :
  declared_fields (def (heap a)) = Some field_map →
  (field_name, field) ∈ field_map →
  get_named_type (field_type field) ∈ references heap a.
Proof.
  intros Hfields Hin. unfold references.
  assert (get_named_type (field_type field)
            ∈ OrderedDict.values field_map ≫= field_references) as Hgoal.
  { apply list_elem_of_bind. exists field. split.
    - destruct field; left.
    - apply list_elem_of_fmap. by exists (field_name, field). }
  destruct (def (heap a)); simplify_eq/=; try done.
  apply elem_of_app. by right.
Qed.

Lemma interface_reference object interface :
  interface ∈ object_interfaces heap object →
  interface ∈ references heap object.
Proof.
  unfold object_interfaces, references.
  destruct (def (heap object)); try (by intros ?%elem_of_nil).
  intros. apply elem_of_app. by left.
Qed.

Lemma assert_object_implements_interface_inv schema object interface :
  inv schema → registered heap map_ interface →
  returns inv
    (assert_object_implements_interface heap to_str schema object interface).
Proof.
  intros Hinv Hreg. unfold assert_object_implements_interface.
  pose proof (get_fields_returns heap to_str object) as Hofm.
  destruct (get_fields heap to_str object) as [ofm| |]; simpl in *;
    [|done|done].
  pose proof (get_fields_returns heap to_str interface) as Hifm.
  destruct (get_fields heap to_str interface) as [ifm| |]; simpl in *;
    [|done|done].
  destruct Hifm as [Hifm _].
  apply (returns_foldM inv); [|done].
  intros s [field_name interface_field] Hin Hs.
  destruct (OrderedDict.get ofm field_name) as [object_field|]; [|done].
  apply (returns_bind (λ p, inv p.2)).
  { apply is_type_sub_type_of_inv; [done|].
    eapply map_closed; [done|]. by eapply field_type_reference. }
  intros [sub s'] Hs'. simpl in Hs'. apply returns_assert. intros _.
  apply (returns_bind (λ _, True)); [apply check_interface_args_returns|].
  intros _ _.
  apply (returns_bind (λ _, True)); [apply check_object_args_returns|].
  done.
Qed.

Lemma enforce_declared_inv self :
  inv self → returns inv (enforce_declared heap to_str self).
Proof.
  intros Hinv. unfold enforce_declared.
  apply (returns_foldM inv); [|done].
  intros s object Hobj Hs. apply (returns_foldM inv); [|done].
  intros s' interface Hi Hs'.
  apply assert_object_implements_interface_inv; [done|].
  eapply map_closed; [|by apply interface_reference].
  destruct Hinv as (Hitems & _). rewrite Hitems in Hobj.
  unfold OrderedDict.values in Hobj.
  apply list_elem_of_fmap in Hobj as ([n o] & -> & Hin).
  destruct map_well_keyed as [_ Hown]. unfold registered. simpl.
  by rewrite <- (Hown _ _ Hin).
Qed.
End SchemaInvariant.

Section ConstructedProofs.
Context {addr : Type} `{Finite addr}.
Variable heap : addr → NamedType addr.
Variable to_str : GraphQLType addr → string.
Implicit Types (self schema : GraphQLTypeMap addr) (a b c : addr)
  (types : list (option (GraphQLType addr))) (t : GraphQLType addr).

Lemma init_returns fuel types :
  card addr < fuel →
  returns (λ self, built_from heap types self ∧ cache_consistent heap to_str self)
    (__init__ heap to_str fuel types).
Proof.
  intros Hfuel. rewrite init_declared.
  pose proof (reduce_types_outcome heap to_str fuel types) as Hout.
  destruct (reduce_types heap to_str fuel types) as [m| |]; simpl in *; [|done|lia].
  pose proof Hout as [Hwk _]%reduced_nil.
  set (self0 := Build_GraphQLTypeMap m ∅ _).
  eapply returns_mono; cycle 1.
  - apply (enforce_declared_inv heap to_str m (_implementations self0)); [done| |].
    + intros a c. by apply (reduced_nil_closed heap (root_types types)).
    + split_and!; [done|done|]. intros n s Hs. simpl in Hs. by rewrite lookup_empty in Hs.
  - intros self (Hitems & Himpl & Hcache). split; [|done].
    split; [by rewrite Hitems|]. by rewrite Himpl, Hitems.
Qed.

Lemma new_GraphQLTypeMap_Ok types self :
  new_GraphQLTypeMap heap to_str types = Ok self →
  built_from heap types self ∧ cache_consistent heap to_str self.
Proof.
  intros Hnew. pose proof (init_returns (S (card addr)) types) as Hret.
  unfold new_GraphQLTypeMap in Hnew. rewrite Hnew in Hret. apply Hret. lia.
Qed.

Lemma new_GraphQLTypeMap_enough_fuel types :
  new_GraphQLTypeMap heap to_str types ≠ OutOfFuel.
Proof.
  intros Hnew. pose proof (init_returns (S (card addr)) types) as Hret.
  unfold new_GraphQLTypeMap in Hnew. rewrite Hnew in Hret. apply Hret. lia.
Qed.

Lemma new_GraphQLTypeMap_fuel fuel types :
  card addr < fuel → __init__ heap to_str fuel types = new_GraphQLTypeMap heap to_str types.
Proof.
  intros Hfuel. eapply approx_total.
  - apply init_le. lia.
  - apply new_GraphQLTypeMap_enough_fuel.
Qed.

Lemma new_GraphQLTypeMap_conforms types self object interface :
  new_GraphQLTypeMap heap to_str types = Ok self →
  object ∈ OrderedDict.values (items self) →
  interface ∈ object_interfaces heap object →
  conforms heap to_str object interface.
Proof.
  intros Hnew Ho Hi. pose proof (new_GraphQLTypeMap_Ok _ _ Hnew) as [[Hred _] _].
  unfold new_GraphQLTypeMap in Hnew. rewrite init_declared in Hnew.
  destruct (reduce_types _ _ _) as [m| |] eqn:Hm; simpl in Hnew; try done.
  pose proof (reduce_types_outcome heap to_str (S (card addr)) types) as Hout.
  rewrite Hm in Hout. simpl in Hout. apply reduced_nil in Hout as [Hwk Hreach].
  assert (items self = m) as Hitems.
  { assert (returns
              (schema_inv heap to_str m (declared_implementations heap (OrderedDict.values m)))
              (enforce_declared heap to_str
                 (Build_GraphQLTypeMap m ∅
                    (declared_implementations heap (OrderedDict.values m)))))
      as Hinv.
    { apply enforce_declared_inv; [done| |].
      - intros a c. rewrite !Hreach. intros. by eapply reachable_step.
      - split_and!; [done|done|].
        intros n s Hs. simpl in Hs. by rewrite lookup_empty in Hs. }
    rewrite Hnew in Hinv. apply Hinv. }
  eapply enforce_declared_Ok; [done| |done]. simpl. by rewrite <- Hitems.
Qed.

Lemma queried_built allowed self :
  queried heap to_str allowed self → ∃ types, built_from heap types self.
Proof.
  induction 1 as [types self Hnew|self a c answer self' _ [types [Hred Himpl]] _ Hq].
  - exists types. by apply new_GraphQLTypeMap_Ok in Hnew as [? _].
  - exists types. apply is_possible_type_Ok in Hq as (l & _ & _ & Hitems & Himpl' & _).
    split; [by rewrite Hitems|]. by rewrite Himpl', Hitems.
Qed.

Lemma constructed_own_consistent self :
  constructed_own heap to_str self → cache_consistent heap to_str self.
Proof.
  induction 1 as [types self Hnew|self a c answer self' Hown IH Ha Hq].
  - by apply new_GraphQLTypeMap_Ok in Hnew as [_ ?].
  - apply queried_built in Hown as [types [Hred Himpl]].
    assert (returns
              (λ p, schema_inv heap to_str (items self) (_implementations self) p.2)
              (is_possible_type heap to_str self a c)) as Hinv
      by by apply is_possible_type_inv.
    rewrite Hq in Hinv. apply Hinv.
Qed.
End ConstructedProofs.

(** ** What a constructed type map is made of *)

Section ConstructionParts.
Context {addr : Type} `{Finite addr}.
Variable heap : addr → NamedType addr.
Variable to_str : GraphQLType addr → string.
Implicit Types (self schema : GraphQLTypeMap addr) (a b c : addr)
  (types : list (option (GraphQLType addr))) (t : GraphQLType addr).

Lemma init_parts fuel types self :
  card addr < fuel →
  __init__ heap to_str fuel types = Ok self →
  reduce_types heap to_str fuel types = Ok (items self)
  ∧ enforce_declared heap to_str (before_checks heap (items self)) = Ok self
  ∧ _implementations self
    = declared_implementations heap (OrderedDict.values (items self))
  ∧ well_keyed heap (items self)
  ∧ (∀ a, registered heap (items self) a ↔ reachable heap types a).
Proof.
  intros Hfuel Hnew.
  pose proof (init_returns heap to_str fuel types Hfuel) as Hret.
  rewrite Hnew in Hret. destruct Hret as [[Hred Himpl] _].
  apply reduced_nil in Hred as [Hwk Hreach].
  rewrite init_declared in Hnew.
  apply bind_Ok in Hnew as (m & Hm & Hnew).
  pose proof (reduce_types_outcome heap to_str fuel types) as Hout.
  rewrite Hm in Hout. simpl in Hout.
  pose proof Hout as [Hwkm _]%reduced_nil.
  assert (items self = m) as Hitems.
  { assert (returns
              (schema_inv heap to_str m (declared_implementations heap (OrderedDict.values m)))
              (enforce_declared heap to_str (before_checks heap m)))
      as Hinv.
    { apply enforce_declared_inv; [done| |].
      - intros a c. by apply (reduced_nil_closed heap (root_types types)).
      - split_and!; [done|done|].
        intros n s Hs. simpl in Hs. by rewrite lookup_empty in Hs. }
    unfold before_checks in Hinv. rewrite Hnew in Hinv. apply Hinv. }
  subst m. by split_and!.
Qed.

Lemma new_GraphQLTypeMap_parts types self :
  new_GraphQLTypeMap heap to_str types = Ok self →
  reduce_types heap to_str (S (card addr)) types = Ok (items self)
  ∧ enforce_declared heap to_str (before_checks heap (items self)) = Ok self
  ∧ _implementations self
    = declared_implementations heap (OrderedDict.values (items self))
  ∧ well_keyed heap (items self)
  ∧ (∀ a, registered heap (items self) a ↔ reachable heap types a).
Proof. apply init_parts. lia. Qed.

Lemma new_GraphQLTypeMap_from_parts types m self :
  reduce_types heap to_str (S (card addr)) types = Ok m →
  enforce_declared heap to_str (before_checks heap m) = Ok self →
  new_GraphQLTypeMap heap to_str types = Ok self.
Proof.
  intros Hm Hself. unfold new_GraphQLTypeMap. rewrite init_declared.
  by rewrite Hm.
Qed.

(** Every state of a type map has the dictionary and the index of the
    object it was constructed as. *)
Lemma queried_origin (allowed : GraphQLTypeMap addr → addr → Prop) self :
  queried heap to_str allowed self →
  ∃ types self0,
    new_GraphQLTypeMap heap to_str types = Ok self0
    ∧ items self = items self0
    ∧ _implementations self = _implementations self0.
Proof.
  induction 1 as [types self Hnew
                 |self a c answer self' _ (types & self0 & Hnew & Hi & Him) _ Hq].
  - by exists types, self.
  - exists types, self0.
    apply is_possible_type_Ok in Hq as (l & _ & _ & Hitems & Himpl & _).
    split_and!; [done|congruence|congruence].
Qed.

Lemma registered_values (m : OrderedDict addr) a :
  well_keyed heap m → a ∈ OrderedDict.values m ↔ registered heap m a.
Proof.
  intros [_ Hown]. unfold OrderedDict.values, registered.
  rewrite list_elem_of_fmap. split.
  - intros ([n a'] & -> & Hin). simpl. by rewrite <- (Hown _ _ Hin).
  - intros Hin. by exists (name (heap a), a).
Qed.

(** The dictionary of a type map, whatever it has been asked: its keys are
    the names of its values, no key occurs twice, and it has all that its
    values refer to. *)
Lemma queried_well_keyed (allowed : GraphQLTypeMap addr → addr → Prop) self :
  queried heap to_str allowed self →
  well_keyed heap (items self)
  ∧ ∀ a c, registered heap (items self) a → c ∈ references heap a →
           registered heap (items self) c.
Proof.
  intros [types [Hred _]]%queried_built. split.
  - by apply reduced_nil in Hred as [? _].
  - intros a c. by apply (reduced_nil_closed heap (root_types types)).
Qed.

(** *** The calls that use no fuel *)

Lemma is_type_sub_type_of_returns maybe_subtype : ∀ super_type schema,
  returns (λ _, True)
    (is_type_sub_type_of heap to_str schema maybe_subtype super_type).
Proof.
  induction maybe_subtype as [sub_a|sub_of IH|sub_of IH];
    intros [super_a|super_of|super_of] schema; simpl in *;
    repeat (case_match; try done);
    try done; try (by apply IH); try (by apply is_possible_type_returns).
Qed.

Lemma assert_object_implements_interface_returns schema object interface :
  returns (λ _, True)
    (assert_object_implements_interface heap to_str schema object interface).
Proof.
  unfold assert_object_implements_interface.
  pose proof (get_fields_returns heap to_str object) as Ho.
  destruct (get_fields heap to_str object) as [object_field_map| |];
    simpl; [|done|done].
  pose proof (get_fields_returns heap to_str interface) as Hi.
  destruct (get_fields heap to_str interface) as [interface_field_map| |];
    simpl; [|done|done].
  apply (returns_foldM (λ _, True)); [|done].
  intros schema' [field_name interface_field] _ _.
  destruct (OrderedDict.get object_field_map field_name) as [object_field|];
    [|done].
  apply (returns_bind (λ _, True) (λ _, True)).
  - apply is_type_sub_type_of_returns.
  - intros [sub schema''] _. apply returns_assert. intros _.
    pose proof (check_interface_args_returns to_str object interface field_name
                  object_field interface_field) as Hia.
    destruct (check_interface_args _ _ _ _ _ _); simpl in *; [|done|done].
    pose proof (check_object_args_returns to_str object interface field_name
                  object_field interface_field) as Hoa.
    by destruct (check_object_args _ _ _ _ _ _).
Qed.
End ConstructionParts.

(** ** When the reducer raises nothing but a name clash *)

Section Acceptance.
Context {addr : Type} `{Finite addr}.
Variable heap : addr → NamedType addr.
Variable to_str : GraphQLType addr → string.
Implicit Types (a b c : addr) (m r : OrderedDict addr)
  (types : list (option (GraphQLType addr))) (t : GraphQLType addr).

(** A set of types that has all it refers to, whose properties can be
    read and whose fields all pass the assertions. *)
Variable R : addr → Prop.
Hypothesis R_closed : ∀ a c, R a → c ∈ references heap a → R c.
Hypothesis R_readable : ∀ a, R a → readable heap to_str a = true.
Hypothesis R_fields : ∀ a, R a → fields_ok heap a = true.

Lemma accepted_bind (x : Result (OrderedDict addr))
    (k : OrderedDict addr → Result (OrderedDict addr)) :
  accepted heap R x → (∀ r, within heap R r → accepted heap R (k r)) →
  accepted heap R (x ≫= k).
Proof. destruct x; simpl; auto. Qed.

Lemma accepted_foldM {B} (f : OrderedDict addr → B → Result (OrderedDict addr))
    (l : list B) :
  (∀ m x, x ∈ l → within heap R m → accepted heap R (f m x)) →
  ∀ m, within heap R m → accepted heap R (foldM f m l).
Proof.
  induction l as [|x l IH]; intros Hf m Hm; simpl; [done|].
  apply accepted_bind.
  - apply Hf; [left|done].
  - intros r Hr. apply IH; [|done]. intros ? ? ?. apply Hf. by right.
Qed.

Section visit.
Variable reducer_ :
  OrderedDict addr → option (GraphQLType addr) → Result (OrderedDict addr).
Hypothesis reducer__accepted : ∀ m t,
  within heap R m → R (get_named_type t) → accepted heap R (reducer_ m (Some t)).

Lemma reducer_field_accepted type_ (is_input : bool) m
    (item : string * FieldDef addr) :
  within heap R m →
  (∀ c, c ∈ field_references item.2 → R c) →
  (if is_input then input_field_ok heap item.2
   else output_field_ok heap item.2) = true →
  accepted heap R (reducer_field heap to_str reducer_ type_ is_input m item).
Proof.
  destruct item as [field_name field]. simpl. intros Hm Hrefs Hok.
  unfold reducer_field.
  assert (R (get_named_type (field_type field))) as Htype.
  { apply Hrefs. destruct field; left. }
  destruct is_input.
  - apply andb_true_iff in Hok as [-> ->]. simpl. by apply reducer__accepted.
  - apply andb_true_iff in Hok as [-> Hargs]. simpl.
    destruct field as [type args|type]; [|done]. simpl.
    apply accepted_bind; [|intros; by apply reducer__accepted].
    apply accepted_foldM; [|done].
    intros m' [arg_name arg] Hin Hm'.
    assert (arg ∈ OrderedDict.values args) as Harg.
    { apply list_elem_of_fmap. by exists (arg_name, arg). }
    rewrite (forallb_elem (λ arg, is_input_type heap (arg_type arg))
               (OrderedDict.values args) arg) by done.
    simpl. apply reducer__accepted; [done|]. apply Hrefs. simpl. right.
    apply list_elem_of_fmap. by exists arg.
Qed.

Lemma reducer_names_accepted m (l : list addr) :
  within heap R m → (∀ c, c ∈ l → R c) →
  accepted heap R
    (foldM (λ reduced_map (c : addr), reducer_ reduced_map (Some (Named c))) m l).
Proof.
  intros Hm Hl. apply accepted_foldM; [|done].
  intros m' c Hc Hm'. apply reducer__accepted; [done|]. by apply Hl.
Qed.

Lemma reducer_fields_accepted type_ (is_input : bool) m
    (field_map : OrderedDict (FieldDef addr)) :
  within heap R m →
  (∀ c, c ∈ OrderedDict.values field_map ≫= field_references → R c) →
  forallb (if is_input then input_field_ok heap else output_field_ok heap)
          (OrderedDict.values field_map) = true →
  accepted heap R
    (foldM (reducer_field heap to_str reducer_ type_ is_input) m field_map).
Proof.
  intros Hm Hrefs Hok. apply accepted_foldM; [|done].
  intros m' [field_name field] Hin Hm'.
  assert (field ∈ OrderedDict.values field_map) as Hfield.
  { apply list_elem_of_fmap. by exists (field_name, field). }
  apply reducer_field_accepted; [done| |].
  - intros c Hc. apply Hrefs. apply list_elem_of_bind. by exists field.
  - simpl. destruct is_input; by apply (forallb_elem _ _ _ Hok).
Qed.

Lemma reducer_visit_accepted m a :
  within heap R m → R a → OrderedDict.get m (name (heap a)) = None →
  accepted heap R (reducer_visit heap to_str reducer_ m a).
Proof.
  intros [Hwk Hm] Ha Hfresh. unfold reducer_visit. rewrite set_fresh by done.
  assert (within heap R (m ++ [(name (heap a), a)])) as Hm1.
  { split; [by apply well_keyed_set|].
    intros b [Hb|Hb]%elem_of_app; [by apply Hm|].
    by apply list_elem_of_singleton in Hb as [= _ ->]. }
  pose proof (λ c, R_closed a c Ha) as Hrefs.
  pose proof (R_fields a Ha) as Hok.
  pose proof (R_readable a Ha) as Hread.
  pose proof (readable_interfaces heap to_str a Hread) as Hinterfaces.
  pose proof (readable_types heap to_str a) as Htypes.
  pose proof (readable_fields heap to_str a) as Hfields.
  unfold references in Hrefs. unfold fields_ok in Hok.
  unfold is_union_type, is_object_type, is_interface_type, object_interfaces
    in *.
  destruct (def (heap a)) as [| |fields interfaces|fields|members|fields];
    simpl in *; try done.
  - rewrite Hinterfaces, (Hfields fields) by done. cbn [mbind Result_bind].
    apply accepted_bind.
    + apply reducer_names_accepted; [done|].
      intros c Hc. apply Hrefs, elem_of_app. by left.
    + intros r Hr. apply reducer_fields_accepted; [done| |done].
      intros c Hc. apply Hrefs, elem_of_app. by right.
  - rewrite (Hfields fields) by done. cbn [mbind Result_bind].
    apply reducer_fields_accepted; [done| |done].
    intros c Hc. by apply Hrefs.
  - destruct (Htypes members) as [-> _]; [done|done|].
    cbn [mbind Result_bind]. apply accepted_bind; [|done].
    apply reducer_names_accepted; [done|].
    intros c Hc. by apply Hrefs.
  - rewrite (Hfields fields) by done. cbn [mbind Result_bind].
    apply reducer_fields_accepted; [done| |done].
    intros c Hc. by apply Hrefs.
Qed.
End visit.

(** Reaching a type whose name the map has: the map again, or the name
    clash of the type reached with the type stored. *)
Lemma known_name_accepted m a known :
  within heap R m → R a → OrderedDict.get m (name (heap a)) = Some known →
  accepted heap R
    (assert (bool_decide (known = a))
       (unique_named_types_message (name (heap a)));; Ok m).
Proof.
  intros Hm Ha Hget. case_bool_decide as Hknown; simpl; [done|].
  destruct Hm as [[_ Hown] Hm]. apply get_Some_elem in Hget.
  pose proof (Hown _ _ Hget) as Hname.
  exists a, known. split_and!; [done| |by intros ->|done|done].
  apply Hm. unfold registered. by rewrite <- Hname.
Qed.

Lemma reducer_accepted fuel : ∀ m root,
  within heap R m → (∀ a, a ∈ root_types [root] → R a) →
  accepted heap R (reducer heap to_str fuel m root).
Proof.
  induction fuel as [|fuel IH]; intros m [t|] Hm Hroot; try done;
    rewrite reducer_peel;
    (assert (R (get_named_type t)) as Ha by (apply Hroot; left));
    revert Ha; generalize (get_named_type t); intros a Ha; simpl;
    destruct (OrderedDict.get m (name (heap a))) as [known|] eqn:Hget;
    try done; try (by apply known_name_accepted).
  apply reducer_visit_accepted; try done.
  intros m' t' Hm' Ht'. apply IH; [done|].
  intros c Hc. apply list_elem_of_singleton in Hc. by subst.
Qed.

Lemma reduce_types_accepted fuel types :
  (∀ a, a ∈ root_types types → R a) →
  accepted heap R (reduce_types heap to_str fuel types).
Proof.
  intros Hroots. apply accepted_foldM.
  - intros m root Hin Hm. apply reducer_accepted; [done|].
    intros a Ha. apply Hroots. unfold root_types in *.
    apply list_elem_of_omap. exists root. split; [done|].
    destruct root as [t|]; [|by apply elem_of_nil in Ha].
    apply list_elem_of_singleton in Ha. by subst.
  - split; [apply well_keyed_nil|]. intros b Hb. by apply elem_of_nil in Hb.
Qed.
End Acceptance.

(** ** The type map: closure and unique names *)

Lemma append_assoc (s1 s2 s3 : string) : (s1 +:+ s2) +:+ s3 = s1 +:+ s2 +:+ s3.
Proof.
  induction s1 as [|c s1 IH]; [done|].
  change (String c ((s1 +:+ s2) +:+ s3) = String c (s1 +:+ s2 +:+ s3)).
  by f_equal.
Qed.

Lemma foldM_app {A B} (f : A → B → Result A) (l1 l2 : list B) (a : A) :
  foldM f a (l1 ++ l2) = foldM f a l1 ≫= λ a', foldM f a' l2.
Proof.
  revert a. induction l1 as [|x l1 IH]; intros a; simpl; [done|].
  destruct (f a x); simpl; auto.
Qed.

Section TypeMapTheorems.
Context {addr : Type} `{Finite addr}.
Variable heap : addr → NamedType addr.
Variable to_str : GraphQLType addr → string.
Implicit Types (self schema : GraphQLTypeMap addr) (a b c : addr)
  (types : list (option (GraphQLType addr))) (t : GraphQLType addr).

(** C1.  Construction terminates on every list of roots, cyclic reference
    graphs included: the recursion of [reducer] never needs to nest deeper
    than the number of type objects plus one, and any larger allowance
    gives the same outcome.  When it returns a map, no name and no type
    occurs in it twice, and its entries are exactly the named types
    reachable from the roots through fields, arguments, union members and
    interface lists, each under its own name. *)
Theorem typemap_construction_terminates_with_the_closure types :
  new_GraphQLTypeMap heap to_str types ≠ OutOfFuel
  ∧ (∀ fuel, card addr < fuel →
       __init__ heap to_str fuel types = new_GraphQLTypeMap heap to_str types)
  ∧ ∀ self, new_GraphQLTypeMap heap to_str types = Ok self →
      NoDup (OrderedDict.keys (items self))
      ∧ NoDup (OrderedDict.values (items self))
      ∧ (∀ a, reachable heap types a → (name (heap a), a) ∈ items self)
      ∧ (∀ n a, (n, a) ∈ items self →
           n = name (heap a) ∧ reachable heap types a).
Proof.
  split_and!.
  - apply new_GraphQLTypeMap_enough_fuel.
  - intros fuel. apply new_GraphQLTypeMap_fuel.
  - intros self [[Hred _] _]%new_GraphQLTypeMap_Ok.
    apply reduced_nil in Hred as [Hwk Hreach]. split_and!.
    + apply Hwk.
    + by apply (well_keyed_values heap).
    + intros a Ha. by apply Hreach.
    + intros n a Hin. destruct Hwk as [_ Hown].
      pose proof (Hown _ _ Hin) as ->. split; [done|]. by apply Hreach.
Qed.

(** From roots that reach two distinct types of one name, and reach only
    types whose properties can be read and whose fields pass the
    assertions, the construction ends in the assertion error of a name
    that two distinct types have. *)
Lemma name_clash_is_the_outcome types :
  (∀ a, reachable heap types a →
        readable heap to_str a = true ∧ fields_ok heap a = true) →
  (∃ a b, reachable heap types a ∧ reachable heap types b
          ∧ a ≠ b ∧ name (heap a) = name (heap b)) →
  ∃ e, name_clash heap (reachable heap types) e
       ∧ new_GraphQLTypeMap heap to_str types = Raise e.
Proof.
  intros Hpass (a & b & Ha & Hb & Hne & Hname).
  pose proof (reduce_types_accepted heap to_str (reachable heap types)
                (λ a c, reachable_step heap _ a c)
                (λ a Ha, proj1 (Hpass a Ha)) (λ a Ha, proj2 (Hpass a Ha))
                (S (card addr)) types) as Hacc.
  pose proof (reduce_types_enough_fuel heap to_str types) as Hfuel.
  pose proof (reduce_types_outcome heap to_str (S (card addr)) types) as Hout.
  unfold new_GraphQLTypeMap, __init__.
  destruct (reduce_types heap to_str (S (card addr)) types) as [m|e|];
    [|exists e|done].
  - exfalso. simpl in Hout. apply reduced_nil in Hout as [Hwk Hreach].
    apply Hreach in Ha, Hb. apply Hne.
    by eapply (registered_unique heap m).
  - split; [|done]. apply Hacc. intros c Hc. by apply reachable_target.
Qed.

(** C2.  When the reducer reaches a type whose name is already a key of the
    map, it compares the stored type with the one reached: for the very same
    type object the map is handed back unchanged; for another one the
    assertion fails, its message contains "must contain unique named types"
    and the name in quotes, and the failure is the outcome of the whole
    construction.  No map is ever constructed from roots that reach two
    distinct types of one name, wherever the second of them is reached: as
    a root, through a field or an argument, as a member of a union or in a
    list of interfaces.  When no other assertion stands in the way (the
    properties of every type the roots reach can be read, and its fields
    pass the assertions on fields), the construction ends in this very
    assertion error, for a name that two distinct types the roots reach
    have. *)
Theorem reducer_checks_a_known_name fuel (map_ : OrderedDict addr) t known :
  let type_name := name (heap (get_named_type t)) in
  OrderedDict.get map_ type_name = Some known →
  (known = get_named_type t → reducer heap to_str fuel map_ (Some t) = Ok map_)
  ∧ (known ≠ get_named_type t →
       reducer heap to_str fuel map_ (Some t)
       = Raise (AssertionError (unique_named_types_message type_name))
       ∧ ∀ types_before types_after,
           reduce_types heap to_str fuel types_before = Ok map_ →
           __init__ heap to_str fuel (types_before ++ Some t :: types_after)
           = Raise (AssertionError (unique_named_types_message type_name)))
  ∧ contains (unique_named_types_message type_name)
      "must contain unique named types"
  ∧ contains (unique_named_types_message type_name)
      (dquote +:+ type_name +:+ dquote)
  ∧ (∀ types a b,
       reachable heap types a → reachable heap types b →
       a ≠ b → name (heap a) = name (heap b) →
       (∃ e, new_GraphQLTypeMap heap to_str types = Raise e)
       ∧ ((∀ c, reachable heap types c →
                readable heap to_str c = true ∧ fields_ok heap c = true) →
          ∃ a' b',
            reachable heap types a' ∧ reachable heap types b'
            ∧ a' ≠ b' ∧ name (heap a') = name (heap b')
            ∧ new_GraphQLTypeMap heap to_str types
              = Raise (AssertionError
                         (unique_named_types_message (name (heap a')))))).
Proof.
  intros type_name Hget.
  assert (reducer heap to_str fuel map_ (Some t)
          = (assert (bool_decide (known = get_named_type t))
               (unique_named_types_message type_name);; Ok map_)) as Hred.
  { rewrite reducer_peel. destruct fuel; simpl; fold type_name; by rewrite Hget. }
  split_and!.
  - intros Heq. rewrite Hred. by rewrite bool_decide_eq_true_2.
  - intros Hne.
    assert (reducer heap to_str fuel map_ (Some t)
            = Raise (AssertionError (unique_named_types_message type_name)))
      as Hraise.
    { rewrite Hred. by rewrite bool_decide_eq_false_2. }
    split; [done|]. intros types_before types_after Hbefore.
    unfold __init__, reduce_types in *. rewrite foldM_app, Hbefore. simpl.
    by rewrite Hraise.
  - exists "Schema ",
      (" but contains multiple types named "
         +:+ dquote +:+ type_name +:+ dquote +:+ ".").
    reflexivity.
  - exists "Schema must contain unique named types but contains multiple types named ",
      ".".
    unfold unique_named_types_message. by rewrite !append_assoc.
  - intros types a b Ha Hb Hne Hname. split.
    + pose proof (new_GraphQLTypeMap_enough_fuel heap to_str types) as Hfuel.
      destruct (new_GraphQLTypeMap heap to_str types) as [self|e|] eqn:Hnew;
        [|by exists e|done].
      exfalso. apply new_GraphQLTypeMap_Ok in Hnew as [[Hred' _] _].
      apply reduced_nil in Hred' as [Hwk Hreach].
      apply Hreach in Ha, Hb. apply Hne.
      by eapply (registered_unique heap (items self)).
    + intros Hpass.
      destruct (name_clash_is_the_outcome types Hpass)
        as (e & (a' & b' & Ha' & Hb' & Hne' & Hname' & ->) & Hnew);
        [by exists a, b|].
      by exists a', b'.
Qed.
End TypeMapTheorems.

(** ** The type map: queries and conformance *)

Lemma list_bind_ext_in {A B} (f g : A → list B) (l : list A) :
  (∀ x, x ∈ l → f x = g x) → l ≫= f = l ≫= g.
Proof.
  intros Hfg. apply Forall_bind_ext, Forall_forall. auto.
Qed.

Section QueryTheorems.
Context {addr : Type} `{Finite addr}.
Variable heap : addr → NamedType addr.
Variable to_str : GraphQLType addr → string.
Implicit Types (self schema : GraphQLTypeMap addr) (a b c : addr)
  (types : list (option (GraphQLType addr))) (t : GraphQLType addr).

Lemma queried_weaken (allowed : GraphQLTypeMap addr → addr → Prop) self :
  queried heap to_str allowed self → constructed heap to_str self.
Proof.
  induction 1; [by eapply queried_new|by eapply queried_again].
Qed.

Lemma constructed_implementations self n :
  constructed heap to_str self →
  default [] (_implementations self !! n)
  = implementers heap (OrderedDict.values (items self)) n.
Proof.
  intros [types [_ Himpl]]%queried_built.
  rewrite Himpl. apply declared_implementations_lookup.
Qed.

(** For an interface of the map, the objects listing an interface of its
    name are the objects listing that very interface. *)
Lemma implementers_registered self interface :
  constructed heap to_str self → registered heap (items self) interface →
  implementers heap (OrderedDict.values (items self)) (name (heap interface))
  = OrderedDict.values (items self) ≫= λ gql_type,
      object_interfaces heap gql_type ≫= λ i,
        if decide (i = interface) then [gql_type] else [].
Proof.
  intros [types [Hred _]]%queried_built Hreg. unfold implementers.
  pose proof Hred as [Hwk _]%reduced_nil.
  apply list_bind_ext_in. intros o Ho. apply list_bind_ext_in. intros i Hi.
  assert (registered heap (items self) i) as Hregi.
  { unfold OrderedDict.values in Ho.
    apply list_elem_of_fmap in Ho as ([n o'] & -> & Hin).
    eapply (reduced_nil_closed heap); [done| |by apply interface_reference].
    destruct Hwk as [_ Hown]. unfold registered. simpl.
    by rewrite <- (Hown _ _ Hin). }
  destruct (decide (name (heap i) = name (heap interface))) as [Hn|Hn].
  - rewrite (registered_unique heap (items self) Hwk i interface) by done.
    by rewrite decide_True.
  - rewrite decide_False; [done|]. by intros ->.
Qed.

(** The properties of every type of a type map have been read. *)
Lemma constructed_readable self a :
  constructed heap to_str self → registered heap (items self) a →
  readable heap to_str a = true.
Proof.
  intros (types & self0 & Hnew & Hitems & _)%queried_origin Ha.
  rewrite Hitems in Ha.
  apply new_GraphQLTypeMap_parts in Hnew as (Hm & _ & _ & Hwk & _).
  eapply reduce_types_read; [done|]. by apply (registered_values heap).
Qed.

Lemma get_possible_types_empty self a :
  get_possible_types heap to_str self a = Ok [] →
  is_interface_type heap a = true.
Proof.
  unfold get_possible_types, is_interface_type.
  destruct (def (heap a)) as [| | | |members|] eqn:Hdef; try done.
  intros (_ & Hne & _)%get_types_Ok. done.
Qed.

(** C3, as the code has it.  On a constructed type map,
    [get_possible_types] of a union is what reading the [types] of the
    union gives: the union's declared member list, of which a union of the
    map always has one.  Of an interface it is the implementer index built
    at construction: the object types of the map that list an interface of
    that name (for an interface of the map: that list the interface
    itself), in encounter order.  For an interface it always answers with
    a list, the empty list included, and only for an interface can the
    answer be the empty list; it is [is_possible_type] that raises an
    assertion error, instead of answering, when the possible types of the
    abstract type are empty. *)
Theorem possible_types_of_abstract_types self abstract_type :
  constructed heap to_str self →
  (∀ members, def (heap abstract_type) = GraphQLUnionType members →
     get_possible_types heap to_str self abstract_type
     = get_types heap to_str abstract_type
     ∧ (∀ l, get_types heap to_str abstract_type = Ok l →
             l = members ∧ l ≠ [])
     ∧ (registered heap (items self) abstract_type →
          get_possible_types heap to_str self abstract_type = Ok members
          ∧ members ≠ []))
  ∧ (∀ fields, def (heap abstract_type) = GraphQLInterfaceType fields →
       get_possible_types heap to_str self abstract_type
       = Ok (implementers heap (OrderedDict.values (items self))
               (name (heap abstract_type)))
       ∧ (registered heap (items self) abstract_type →
            implementers heap (OrderedDict.values (items self))
              (name (heap abstract_type))
            = OrderedDict.values (items self) ≫= λ gql_type,
                object_interfaces heap gql_type ≫= λ interface,
                  if decide (interface = abstract_type) then [gql_type] else []))
  ∧ (is_interface_type heap abstract_type = true →
       ∃ possible_types,
         get_possible_types heap to_str self abstract_type = Ok possible_types)
  ∧ (get_possible_types heap to_str self abstract_type = Ok [] →
       is_interface_type heap abstract_type = true
       ∧ ∀ possible_type,
           is_possible_type heap to_str self abstract_type possible_type
           = Raise (AssertionError
                      (no_possible_types_message to_str abstract_type))).
Proof.
  intros Hself. split_and!.
  - intros members Hdef.
    destruct (get_possible_types_union heap to_str self abstract_type members
                Hdef) as [Hget Hread].
    split_and!; [done|done|]. intros Hreg. rewrite Hget.
    apply readable_types; [|done]. by apply (constructed_readable self).
  - intros fields Hdef. split.
    + rewrite (get_possible_types_interface heap to_str self _ fields Hdef).
      by rewrite constructed_implementations.
    + by apply implementers_registered.
  - unfold is_interface_type, get_possible_types.
    destruct (def (heap abstract_type)); try done.
    destruct (_ !! _); by eauto.
  - intros Hempty. split; [by eapply get_possible_types_empty|].
    intros possible_type. by apply is_possible_type_empty.
Qed.

(** C9.  On a constructed type map, [get_possible_types] of an interface
    that no object type of the map implements returns the empty list, as it
    returns a list for every interface, and raises nothing; the assertion
    failure on an empty list is raised by [is_possible_type].  For a union,
    [get_possible_types] hands on what reading the [types] of the union
    gives, which is never an empty list. *)
Theorem interface_without_implementers self interface fields possible_type :
  constructed heap to_str self →
  def (heap interface) = GraphQLInterfaceType fields →
  implementers heap (OrderedDict.values (items self)) (name (heap interface)) = [] →
  get_possible_types heap to_str self interface = Ok []
  ∧ is_possible_type heap to_str self interface possible_type
    = Raise (AssertionError (no_possible_types_message to_str interface))
  ∧ (∀ a, is_interface_type heap a = true →
       ∃ l, get_possible_types heap to_str self a = Ok l)
  ∧ (∀ a, is_union_type heap a = true →
       get_possible_types heap to_str self a = get_types heap to_str a
       ∧ ∀ l, get_possible_types heap to_str self a = Ok l → l ≠ []).
Proof.
  intros Hself Hdef Hnone.
  assert (get_possible_types heap to_str self interface = Ok []) as Hget.
  { rewrite (get_possible_types_interface heap to_str self _ fields Hdef).
    by rewrite constructed_implementations, Hnone. }
  split_and!; [done|by apply is_possible_type_empty| |].
  - intros a Ha. unfold is_interface_type in Ha. unfold get_possible_types.
    destruct (def (heap a)); try done.
    destruct (_ !! _); by eauto.
  - intros a Ha. unfold is_union_type in Ha.
    destruct (def (heap a)) as [| | | |members|] eqn:Ha'; try done.
    destruct (get_possible_types_union heap to_str self a members Ha')
      as [Hunion Hread].
    split; [done|]. intros l Hl. rewrite Hunion in Hl.
    by apply Hread in Hl as [_ ?].
Qed.

(** C8, as the code has it.  On a constructed type map, whatever it has been
    asked before: a call of [is_possible_type] that returns, returns the
    same answer when repeated, the repeated call changes nothing, and
    [get_possible_types] is the same after the call as before it, for every
    type.  The answer is membership of the candidate's name among the names
    of [get_possible_types] of the abstract type when that type is
    registered in the map and the map has only been asked about types
    registered in it: the cache is keyed by name and holds what was computed
    for the first type asked about under that name. *)
Theorem is_possible_type_repeatable self abstract_type possible_type answer self' :
  constructed heap to_str self →
  is_possible_type heap to_str self abstract_type possible_type = Ok (answer, self') →
  is_possible_type heap to_str self' abstract_type possible_type = Ok (answer, self')
  ∧ (∀ a, get_possible_types heap to_str self' a = get_possible_types heap to_str self a)
  ∧ (constructed_own heap to_str self →
     registered heap (items self) abstract_type →
     ∃ l, get_possible_types heap to_str self abstract_type = Ok l
          ∧ answer = bool_decide (name (heap possible_type) ∈ names heap l)).
Proof.
  intros Hself Hq.
  pose proof Hq as (l & Hl & Hne & Hitems & Himpl & Hcache)%is_possible_type_Ok.
  split_and!.
  - unfold is_possible_type.
    rewrite (get_possible_types_frame heap to_str self self') by done.
    rewrite Hl. simpl. rewrite (bool_decide_eq_true_2 (l ≠ [])) by done. simpl.
    destruct self' as [items' cache' impl']. simpl in *.
    destruct (_possible_type_map self !! name (heap abstract_type)) as [s|] eqn:Hs.
    + destruct Hcache as [-> ->]. rewrite Hs. simpl. by rewrite Hs.
    + destruct Hcache as [-> ->]. rewrite lookup_insert_eq. simpl.
      rewrite lookup_insert_eq. simpl.
      do 2 f_equal. apply bool_decide_ext. by rewrite elem_of_list_to_set.
  - intros a. by apply get_possible_types_frame.
  - intros Hown Hreg. exists l. split; [done|].
    destruct (_possible_type_map self !! name (heap abstract_type)) as [s|] eqn:Hs;
      [|by destruct Hcache].
    destruct Hcache as [_ ->].
    apply constructed_own_consistent in Hown.
    destruct (Hown _ _ Hs) as (a' & l' & Hreg' & Hname & Hl' & ->).
    apply queried_built in Hself as [types [[Hwk _]%reduced_nil _]].
    rewrite (registered_unique heap (items self) Hwk a' abstract_type) in Hl'
      by done.
    rewrite Hl in Hl'. injection Hl' as <-.
    apply bool_decide_ext. by rewrite elem_of_list_to_set.
Qed.

(** C4.  In the conformance check of an object field against the interface
    field of the same name: the loop over the object field's arguments
    passes exactly when no argument that the interface field lacks is of a
    non-null type, and otherwise raises the assertion error of the first
    such argument; the loop over the interface field's arguments passes
    exactly when each of them is an argument of the object field with the
    identical type.  A type map is only constructed when every object type
    in it passes both for every field of every interface it lists. *)
Theorem extra_arguments_must_be_optional object interface field_name
    object_type object_args interface_type interface_args :
  let object_field := GraphQLField object_type object_args in
  let interface_field := GraphQLField interface_type interface_args in
  (check_object_args to_str object interface field_name object_field interface_field
     = Ok tt
   ↔ extra_args_optional object_args interface_args)
  ∧ (¬ extra_args_optional object_args interface_args →
     ∃ arg_name object_arg,
       (arg_name, object_arg) ∈ object_args
       ∧ OrderedDict.get interface_args arg_name = None
       ∧ is_non_null (arg_type object_arg) = true
       ∧ check_object_args to_str object interface field_name
           object_field interface_field
         = Raise (AssertionError
             (required_extra_arg_message to_str object interface field_name
                arg_name (arg_type object_arg))))
  ∧ (check_interface_args to_str object interface field_name
       object_field interface_field = Ok tt
     ↔ shared_args_identical object_args interface_args)
  ∧ (∀ types self,
       new_GraphQLTypeMap heap to_str types = Ok self →
       ∀ o i, o ∈ OrderedDict.values (items self) →
              i ∈ object_interfaces heap o → conforms heap to_str o i).
Proof.
  intros object_field interface_field. split_and!.
  - apply check_object_args_Ok.
  - apply check_object_args_Raise.
  - apply check_interface_args_Ok.
  - intros types self Hnew o i. by apply (new_GraphQLTypeMap_conforms heap to_str types).
Qed.
End QueryTheorems.

(** ** The theorems at work on the example world *)

Ltac by_computation := apply (bool_decide_unpack _); vm_compute; exact I.

Lemma example_reachable_A : reachable example_heap example_roots A.
Proof.
  apply (reachable_step example_heap _ Query); [|by_computation].
  apply reachable_target. by_computation.
Defined.

Lemma example_reachable_B : reachable example_heap example_roots B.
Proof.
  apply (reachable_step example_heap _ A); [apply example_reachable_A|].
  by_computation.
Defined.

(** The cycle between [A] and [B] does not keep the construction from
    returning, and both are in the map. *)
Lemma typemap_closure_witness :
  ∃ self, new_GraphQLTypeMap example_heap example_to_str example_roots = Ok self
    ∧ OrderedDict.keys (items self)
      = ["Query"; "A"; "B"; "Node"; "Int"; "U"; "Lonely"]
    ∧ ("A", A) ∈ items self ∧ ("B", B) ∈ items self
    ∧ __init__ example_heap example_to_str 1000 example_roots = Ok self.
Proof.
  destruct (typemap_construction_terminates_with_the_closure
              example_heap example_to_str example_roots) as (_ & Hfuel & Hclosure).
  eexists. split; [vm_compute; reflexivity|].
  match goal with |- context [items ?s] =>
    destruct (Hclosure s) as (_ & _ & Hin & _); [vm_compute; reflexivity|]
  end.
  split_and!.
  - vm_compute; reflexivity.
  - apply (Hin A example_reachable_A).
  - apply (Hin B example_reachable_B).
  - rewrite Hfuel; [vm_compute; reflexivity|vm_compute; lia].
Defined.

(** What the roots reach is in every list that has the roots and all that
    its members refer to. *)
Lemma reachable_within_list {addr : Type} `{Finite addr}
    (heap : addr → NamedType addr) (types : list (option (GraphQLType addr)))
    (l : list addr) :
  Forall (λ a, a ∈ l) (root_types types) →
  Forall (λ a, Forall (λ b, b ∈ l) (references heap a)) l →
  ∀ a, reachable heap types a → a ∈ l.
Proof.
  rewrite !Forall_forall. intros Hroots Hclosed a Hreach.
  induction Hreach as [a Ha|a b _ IH Hb]; [by apply Hroots|].
  specialize (Hclosed a IH). rewrite Forall_forall in Hclosed. by apply Hclosed.
Qed.

(** The types that the roots of the example reach. *)
Lemma example_reachable a :
  reachable example_heap example_roots a →
  a ∈ [Query; A; B; Node; U; Int; Lonely].
Proof. apply reachable_within_list; by_computation. Qed.

Lemma example_reachable_holding_dup a :
  reachable example_heap example_roots_holding_dup a →
  a ∈ [Query; A; B; Node; U; Int; Holder; Dup].
Proof. apply reachable_within_list; by_computation. Qed.

(** Reaching [A] again does nothing.  Reaching [Dup], the other type called
    "A", fails the construction with the assertion error that names "A":
    when [Dup] is the next root, and when it is reached through the field
    [held] of the root [Holder]. *)
Lemma reducer_known_name_witness :
  reducer example_heap example_to_str 11 example_items (Some (GraphQLList (Named A)))
  = Ok example_items
  ∧ __init__ example_heap example_to_str 11 ([Some (Named Query)] ++ [Some (Named Dup)])
    = Raise (AssertionError (unique_named_types_message "A"))
  ∧ (∃ a b,
       reachable example_heap example_roots_holding_dup a
       ∧ reachable example_heap example_roots_holding_dup b
       ∧ a ≠ b ∧ name (example_heap a) = name (example_heap b)
       ∧ new_GraphQLTypeMap example_heap example_to_str example_roots_holding_dup
         = Raise (AssertionError
                    (unique_named_types_message (name (example_heap a)))))
  ∧ new_GraphQLTypeMap example_heap example_to_str example_roots_holding_dup
    = Raise (AssertionError (unique_named_types_message "A")).
Proof.
  split_and!.
  - destruct (reducer_checks_a_known_name example_heap example_to_str 11 example_items
                (GraphQLList (Named A)) A) as (Hsame & _); [reflexivity|].
    by apply Hsame.
  - destruct (reducer_checks_a_known_name example_heap example_to_str 11 example_items
                (Named Dup) A) as (_ & Hother & _); [reflexivity|].
    destruct Hother as [_ Hinit]; [discriminate|].
    apply Hinit. vm_compute; reflexivity.
  - destruct (reducer_checks_a_known_name example_heap example_to_str 11 example_items
                (Named Dup) A) as (_ & _ & _ & _ & Hclash); [reflexivity|].
    destruct (Hclash example_roots_holding_dup A Dup) as [_ Hraise].
    + apply (reachable_step example_heap _ Query); [|by_computation].
      apply reachable_target. by_computation.
    + apply (reachable_step example_heap _ Holder); [|by_computation].
      apply reachable_target. by_computation.
    + discriminate.
    + reflexivity.
    + apply Hraise. intros c Hc%example_reachable_holding_dup.
      revert c Hc. apply Forall_forall. by_computation.
  - vm_compute; reflexivity.
Defined.

Lemma example_map_new :
  new_GraphQLTypeMap example_heap example_to_str example_roots = Ok example_map.
Proof. vm_compute; reflexivity. Defined.

Lemma example_map_constructed : constructed example_heap example_to_str example_map.
Proof. apply (queried_new _ _ _ example_roots), example_map_new. Defined.

Lemma example_map_constructed_own : constructed_own example_heap example_to_str example_map.
Proof. apply (queried_new _ _ _ example_roots), example_map_new. Defined.

(** [Node] is implemented by [B], the union [U] has its two members, and
    asking whether [B] is a [Lonely] fails. *)
Lemma possible_types_witness :
  get_possible_types example_heap example_to_str example_map U = Ok [A; B]
  ∧ get_possible_types example_heap example_to_str example_map Node = Ok [B]
  ∧ is_possible_type example_heap example_to_str example_map Lonely B
    = Raise (AssertionError (no_possible_types_message example_to_str Lonely)).
Proof.
  split_and!.
  - destruct (possible_types_of_abstract_types example_heap example_to_str example_map U
                example_map_constructed) as (Hunion & _).
    destruct (Hunion [A; B] eq_refl) as (_ & _ & Hown).
    apply Hown. by_computation.
  - destruct (possible_types_of_abstract_types example_heap example_to_str example_map Node
                example_map_constructed) as (_ & Hinterface & _).
    destruct (Hinterface _ eq_refl) as [-> _]. vm_compute; reflexivity.
  - destruct (possible_types_of_abstract_types example_heap example_to_str example_map Lonely
                example_map_constructed) as (_ & _ & _ & Hempty).
    apply Hempty. vm_compute; reflexivity.
Defined.

(** C3 as stated fails: [Lonely] is an interface of the map, with a field,
    that no object type implements, and [get_possible_types] answers the
    question about it with the empty list, not with an error. *)
Lemma get_possible_types_answers_with_the_empty_list :
  new_GraphQLTypeMap example_heap example_to_str example_roots = Ok example_map
  ∧ constructed example_heap example_to_str example_map
  ∧ registered example_heap (items example_map) Lonely
  ∧ is_abstract_type example_heap Lonely = true
  ∧ get_fields example_heap example_to_str Lonely
    = Ok [("id", GraphQLField (Named Int) [])]
  ∧ implementers example_heap (OrderedDict.values (items example_map)) "Lonely" = []
  ∧ get_possible_types example_heap example_to_str example_map Lonely = Ok [].
Proof.
  split_and!.
  - apply example_map_new.
  - apply example_map_constructed.
  - unfold registered. by_computation.
  - reflexivity.
  - vm_compute; reflexivity.
  - vm_compute; reflexivity.
  - vm_compute; reflexivity.
Qed.

Lemma interface_without_implementers_witness :
  get_possible_types example_heap example_to_str example_map Lonely = Ok []
  ∧ is_possible_type example_heap example_to_str example_map Lonely B
    = Raise (AssertionError (no_possible_types_message example_to_str Lonely))
  ∧ ∀ l, get_possible_types example_heap example_to_str example_map U = Ok l →
         l ≠ [].
Proof.
  destruct (interface_without_implementers example_heap example_to_str example_map
              Lonely [("id", GraphQLField (Named Int) [])] B
              example_map_constructed eq_refl) as (Hget & Hask & _ & Hunion).
  - vm_compute; reflexivity.
  - split_and!; [done|done|]. by apply Hunion.
Defined.

Lemma example_map_ask :
  is_possible_type example_heap example_to_str example_map U A = Ok (true, example_map_asked).
Proof. vm_compute; reflexivity. Defined.

Lemma is_possible_type_repeatable_witness :
  is_possible_type example_heap example_to_str example_map_asked U A = Ok (true, example_map_asked)
  ∧ get_possible_types example_heap example_to_str example_map_asked U
    = get_possible_types example_heap example_to_str example_map U
  ∧ ∃ l, get_possible_types example_heap example_to_str example_map U = Ok l
         ∧ true = bool_decide (name (example_heap A) ∈ names example_heap l).
Proof.
  destruct (is_possible_type_repeatable example_heap example_to_str example_map U A true
              example_map_asked example_map_constructed example_map_ask)
    as (Hagain & Hsame & Hanswer).
  split_and!; [done|done|].
  apply Hanswer; [apply example_map_constructed_own|].
  unfold registered. by_computation.
Defined.

(** C8 as stated fails: [U2] is a union called "U" like the union [U] of the
    map.  Once the map has answered for [U], it answers for [U2] from the
    names cached for [U], and says that [Query], the one member of [U2], is
    not a possible type of [U2]. *)
Lemma is_possible_type_answers_from_the_cached_name :
  new_GraphQLTypeMap example_heap example_to_str example_roots = Ok example_map
  ∧ is_possible_type example_heap example_to_str example_map U A
    = Ok (true, example_map_asked)
  ∧ constructed example_heap example_to_str example_map_asked
  ∧ is_possible_type example_heap example_to_str example_map_asked U2 Query
    = Ok (false, example_map_asked)
  ∧ get_possible_types example_heap example_to_str example_map_asked U2 = Ok [Query]
  ∧ bool_decide (name (example_heap Query) ∈ names example_heap [Query]) = true.
Proof.
  split_and!.
  - apply example_map_new.
  - apply example_map_ask.
  - eapply queried_again;
      [apply example_map_constructed|done|apply example_map_ask].
  - vm_compute; reflexivity.
  - vm_compute; reflexivity.
  - vm_compute; reflexivity.
Qed.

(** [B.id] adds the optional argument [y] to those of [Node.id] and passes;
    [Bad.id] adds a required one and fails; the constructed map has [B]
    conforming to [Node]. *)
Lemma extra_arguments_witness :
  let arg := @Build_GraphQLArgument example_type in
  check_object_args example_to_str B Node "id"
    (GraphQLField (Named Int)
       [("x", arg (Named Int)); ("y", arg (GraphQLList (GraphQLNonNull (Named Int))))])
    (GraphQLField (Named Int) [("x", arg (Named Int))]) = Ok tt
  ∧ conforms example_heap example_to_str B Node
  ∧ new_GraphQLTypeMap example_heap example_to_str [Some (Named Bad)]
    = Raise (AssertionError
        (required_extra_arg_message example_to_str Bad Node "id" "y"
           (GraphQLNonNull (Named Int)))).
Proof.
  intros arg.
  destruct (extra_arguments_must_be_optional example_heap example_to_str B Node "id" (Named Int)
              [("x", arg (Named Int));
               ("y", arg (GraphQLList (GraphQLNonNull (Named Int))))]
              (Named Int) [("x", arg (Named Int))])
    as (Hextra & _ & _ & Hconforms).
  split_and!.
  - apply Hextra. intros arg_name object_arg Hin Hget.
    apply elem_of_cons in Hin as [[= -> ->]|Hin]; [done|].
    apply list_elem_of_singleton in Hin as [= -> ->]. done.
  - apply (Hconforms example_roots example_map example_map_new);
      by_computation.
  - vm_compute; reflexivity.
Defined.

(** ** More on the reducer and the construction *)

Section ReducerTheorems.
Context {addr : Type} `{Finite addr}.
Variable heap : addr → NamedType addr.
Variable to_str : GraphQLType addr → string.
Implicit Types (self schema : GraphQLTypeMap addr) (a b c : addr)
  (types more : list (option (GraphQLType addr))) (t : GraphQLType addr)
  (root : option (GraphQLType addr)).

Lemma reducer_prefix fuel (m : OrderedDict addr) root r :
  reducer heap to_str fuel m root = Ok r → m `prefix_of` r.
Proof.
  apply (reducer_Ok heap to_str prefix); [done|by intros; etrans|].
  intros. by apply prefix_app_r.
Qed.

Lemma reduce_from_prefix fuel types (m r : OrderedDict addr) :
  foldM (reducer heap to_str fuel) m types = Ok r → m `prefix_of` r.
Proof.
  apply (reduce_from_Ok heap to_str prefix); [done|by intros; etrans|].
  intros. by apply prefix_app_r.
Qed.

Lemma reducer_target fuel (m : OrderedDict addr) t r :
  reducer heap to_str fuel m (Some t) = Ok r →
  OrderedDict.get r (name (heap (get_named_type t))) = Some (get_named_type t)
  ∧ (OrderedDict.get m (name (heap (get_named_type t))) = None →
     (m ++ [(name (heap (get_named_type t)), get_named_type t)]) `prefix_of` r).
Proof.
  rewrite reducer_peel. generalize (get_named_type t). intros a.
  destruct fuel as [|fuel]; simpl;
    destruct (OrderedDict.get m (name (heap a))) as [known|] eqn:Hget;
    try done.
  - case_bool_decide; simpl; [|done]. intros [= <-]. by subst.
  - case_bool_decide; simpl; [|done]. intros [= <-]. by subst.
  - intros [Hr _]%(reducer_visit_Ok heap to_str prefix); try done.
    + split; [|done]. eapply get_prefix; [done|]. by apply get_snoc.
    + by intros; etrans.
    + intros ? ? ?. apply reducer_prefix.
Qed.

Lemma reducer_known fuel (m : OrderedDict addr) t :
  OrderedDict.get m (name (heap (get_named_type t))) = Some (get_named_type t) →
  reducer heap to_str fuel m (Some t) = Ok m.
Proof.
  intros Hget. rewrite reducer_peel. destruct fuel; simpl; rewrite Hget;
    by rewrite bool_decide_eq_true_2.
Qed.

(** X1.  What a call of [reducer] that returns has done to the map: the
    map it was given is a prefix of the map it returns (entries are only
    added, at the end, and none is moved or replaced), the named type it
    was called on is then stored under its own name, and calling it again
    on the returned map with the same type returns that map as it is. *)
Theorem reducer_extends_the_map fuel (map_ : OrderedDict addr) t r :
  reducer heap to_str fuel map_ (Some t) = Ok r →
  map_ `prefix_of` r
  ∧ OrderedDict.get r (name (heap (get_named_type t))) = Some (get_named_type t)
  ∧ ∀ fuel', reducer heap to_str fuel' r (Some t) = Ok r.
Proof.
  intros Hr. pose proof (reducer_target _ _ _ _ Hr) as [Hget _]. split_and!.
  - by eapply reducer_prefix.
  - done.
  - intros fuel'. by apply reducer_known.
Qed.

Lemma reduce_named_roots fuel types : ∀ m : OrderedDict addr,
  foldM (reducer heap to_str fuel) m types
  = foldM (reducer heap to_str fuel) m (named_roots types).
Proof.
  induction types as [|[t|] types IH]; intros m; [done| |].
  - change (named_roots (Some t :: types))
      with (Some (Named (get_named_type t)) :: named_roots types).
    cbn [foldM]. rewrite reducer_peel.
    destruct (reducer _ _ _ _ _); simpl; auto.
  - change (named_roots (None :: types)) with (named_roots types).
    cbn [foldM]. replace (reducer heap to_str fuel m None) with (Ok m)
      by by destruct fuel.
    simpl. apply IH.
Qed.

(** X2.  The roots count by the named types they stand for: constructing
    from a list of roots gives the very outcome (map or exception) of
    constructing from the named types of its entries in the same order,
    [None] entries left out and list and non-null wrappers peeled.  With
    no named type among the roots the outcome is the empty type map. *)
Theorem roots_count_by_their_named_types types :
  new_GraphQLTypeMap heap to_str types
  = new_GraphQLTypeMap heap to_str (named_roots types)
  ∧ (root_types types = [] →
     new_GraphQLTypeMap heap to_str types = Ok (Build_GraphQLTypeMap [] ∅ ∅)).
Proof.
  assert (new_GraphQLTypeMap heap to_str types
          = new_GraphQLTypeMap heap to_str (named_roots types)) as Heq.
  { unfold new_GraphQLTypeMap, __init__, reduce_types.
    by rewrite reduce_named_roots. }
  split; [done|]. intros Hroots. rewrite Heq. unfold named_roots.
  rewrite Hroots. reflexivity.
Qed.

Lemma reduce_registered fuel more (m : OrderedDict addr) :
  well_keyed heap m →
  (∀ t, Some t ∈ more → registered heap m (get_named_type t)) →
  foldM (reducer heap to_str fuel) m more = Ok m.
Proof.
  intros Hwk. induction more as [|[t|] more IH]; intros Hreg; [done| |].
  - cbn [foldM]. rewrite reducer_known.
    + simpl. apply IH. intros ? ?. apply Hreg. by right.
    + apply registered_get; [done|]. apply Hreg. left.
  - cbn [foldM]. replace (reducer heap to_str fuel m None) with (Ok m)
      by by destruct fuel.
    simpl. apply IH. intros ? ?. apply Hreg. by right.
Qed.

(** X3.  Roots that are already in the map change nothing: when the
    construction from [types] returns a type map, the construction from
    [types] followed by further roots whose named types are all registered
    in that map returns the same type map. *)
Theorem registered_roots_are_redundant types more self :
  new_GraphQLTypeMap heap to_str types = Ok self →
  (∀ t, Some t ∈ more → registered heap (items self) (get_named_type t)) →
  new_GraphQLTypeMap heap to_str (types ++ more) = Ok self.
Proof.
  intros (Hm & Hchecks & _ & Hwk & _)%new_GraphQLTypeMap_parts Hreg.
  eapply new_GraphQLTypeMap_from_parts; [|done].
  unfold reduce_types in *. rewrite foldM_app, Hm.
  cbn [mbind Result_bind]. by apply reduce_registered.
Qed.

(** X4.  The order of the map follows the order of the roots: when the
    constructions from [types] and from [types] followed by more roots
    both return, the first map is a prefix of the second; and the first
    entry of a map constructed from roots that start with a type is the
    named type of that root, under its name. *)
Theorem later_roots_only_append :
  (∀ types more self self',
     new_GraphQLTypeMap heap to_str types = Ok self →
     new_GraphQLTypeMap heap to_str (types ++ more) = Ok self' →
     items self `prefix_of` items self')
  ∧ (∀ t more self,
       new_GraphQLTypeMap heap to_str (Some t :: more) = Ok self →
       head (items self)
       = Some (name (heap (get_named_type t)), get_named_type t)).
Proof.
  split.
  - intros types more self self'
      (Hm & _)%new_GraphQLTypeMap_parts (Hm' & _)%new_GraphQLTypeMap_parts.
    unfold reduce_types in *. rewrite foldM_app, Hm in Hm'.
    cbn [mbind Result_bind] in Hm'. by eapply reduce_from_prefix.
  - intros t more self (Hm & _)%new_GraphQLTypeMap_parts.
    unfold reduce_types in Hm. cbn [foldM] in Hm.
    apply bind_Ok in Hm as (m1 & Hm1 & Hm).
    apply reducer_target in Hm1 as [_ Hm1]. specialize (Hm1 eq_refl).
    apply reduce_from_prefix in Hm.
    destruct Hm1 as [k1 ->]. destruct Hm as [k2 ->]. done.
Qed.

(** *** The assertions on fields *)

Lemma reduce_fields_ok fuel types (m r : OrderedDict addr) :
  foldM (reducer heap to_str fuel) m types = Ok r →
  ∀ x, x ∈ r → x ∈ m ∨ fields_ok heap x.2 = true.
Proof.
  apply (reduce_from_Ok heap to_str
           (λ m r, ∀ x, x ∈ r → x ∈ m ∨ fields_ok heap x.2 = true)).
  - auto.
  - intros m1 m2 m3 H12 H23 x Hx. destruct (H23 x Hx); auto.
  - intros m1 a _ _ Hok x [Hx|Hx]%elem_of_app; [by left|right].
    by apply list_elem_of_singleton in Hx as ->.
Qed.

Lemma new_fields_ok types self a :
  new_GraphQLTypeMap heap to_str types = Ok self →
  registered heap (items self) a → fields_ok heap a = true.
Proof.
  intros (Hm & _)%new_GraphQLTypeMap_parts Ha.
  destruct (reduce_fields_ok _ _ _ _ Hm _ Ha) as [Hnil|Hok]; [|done].
  by apply elem_of_nil in Hnil.
Qed.

(** X5.  Every type in a constructed type map has passed the assertions of
    the reducer on its fields: each field of an input object type is a
    [GraphQLInputObjectField] of an input type; each field of an object or
    interface type is of an output type and has an [args] map, every
    argument of which is of an input type. *)
Theorem registered_fields_pass_the_checks self a :
  constructed heap to_str self →
  registered heap (items self) a →
  fields_ok heap a = true
  ∧ (∀ fields field_name field,
       def (heap a) = GraphQLInputObjectType fields →
       (field_name, field) ∈ fields →
       is_input_field field = true
       ∧ is_input_type heap (field_type field) = true)
  ∧ (∀ fields field_name field,
       declared_fields (def (heap a)) = Some fields →
       is_input_object (def (heap a)) = false →
       (field_name, field) ∈ fields →
       is_output_type heap (field_type field) = true
       ∧ ∃ args, field = GraphQLField (field_type field) args
           ∧ ∀ arg_name arg, (arg_name, arg) ∈ args →
               is_input_type heap (arg_type arg) = true).
Proof.
  intros (types & self0 & Hnew & Hitems & _)%queried_origin Ha.
  rewrite Hitems in Ha. pose proof (new_fields_ok _ _ _ Hnew Ha) as Hok.
  split_and!; [done| |].
  - intros fields field_name field Hdef Hin. unfold fields_ok in Hok.
    rewrite Hdef in Hok.
    assert (input_field_ok heap field = true) as Hfield.
    { eapply forallb_elem; [done|]. apply list_elem_of_fmap.
      by exists (field_name, field). }
    by apply andb_true_iff in Hfield.
  - intros fields field_name field Hfields Hinput Hin. unfold fields_ok in Hok.
    assert (output_field_ok heap field = true) as Hfield.
    { destruct (def (heap a)); try done; injection Hfields as ->;
        (eapply forallb_elem; [done|]); apply list_elem_of_fmap;
        by exists (field_name, field). }
    apply andb_true_iff in Hfield as [Htype Hargs]. split; [done|].
    destruct field as [type args|type]; [|done]. exists args. split; [done|].
    intros arg_name arg Harg.
    apply (forallb_elem (λ arg, is_input_type heap (arg_type arg))
             (OrderedDict.values args)); [done|].
    apply list_elem_of_fmap. by exists (arg_name, arg).
Qed.

(** X6.  A type with a field that fails an assertion of the reducer fails
    the construction of every type map whose roots reach it: the
    construction ends, and it ends in an exception. *)
Theorem ill_typed_field_fails_construction types a :
  reachable heap types a → fields_ok heap a = false →
  ∃ e, new_GraphQLTypeMap heap to_str types = Raise e.
Proof.
  intros Ha Hbad.
  pose proof (new_GraphQLTypeMap_enough_fuel heap to_str types) as Hfuel.
  destruct (new_GraphQLTypeMap heap to_str types) as [self|e|] eqn:Hnew;
    [|by exists e|done].
  exfalso. pose proof Hnew as (_ & _ & _ & _ & Hreach)%new_GraphQLTypeMap_parts.
  apply Hreach in Ha. rewrite (new_fields_ok _ _ _ Hnew Ha) in Hbad. done.
Qed.

Lemma first_root_visit types a :
  reduce_types heap to_str (S (card addr)) (Some (Named a) :: types)
  = (map_ ← reducer_visit heap to_str (reducer heap to_str (card addr)) [] a;
     foldM (reducer heap to_str (S (card addr))) map_ types).
Proof. done. Qed.

Lemma raised_by_the_fold types e :
  reduce_types heap to_str (S (card addr)) types = Raise e →
  new_GraphQLTypeMap heap to_str types = Raise e.
Proof. intros Hm. unfold new_GraphQLTypeMap, __init__. by rewrite Hm. Qed.

(** X21.  A type whose properties cannot be read fails the construction
    of every type map whose roots reach it, and a type that was declared
    with an empty field map, or a union that was declared without a
    member, is such a type.  When it is the first of the roots, the
    assertion error of the read is the outcome: that the union must be
    provided types, or that the fields of the interface or input object
    type must be a mapping. *)
Theorem unreadable_types_fail_construction types a :
  (reachable heap types a → readable heap to_str a = false →
   ∃ e, new_GraphQLTypeMap heap to_str types = Raise e)
  ∧ (declared_fields (def (heap a)) = Some [] ∨ def (heap a) = GraphQLUnionType [] →
     readable heap to_str a = false)
  ∧ (def (heap a) = GraphQLUnionType [] →
     new_GraphQLTypeMap heap to_str (Some (Named a) :: types)
     = Raise (AssertionError (must_provide_types_message heap a)))
  ∧ (def (heap a) = GraphQLInterfaceType []
     ∨ def (heap a) = GraphQLInputObjectType [] →
     new_GraphQLTypeMap heap to_str (Some (Named a) :: types)
     = Raise (AssertionError (fields_must_be_a_mapping_message to_str a))).
Proof.
  split_and!.
  - intros Ha Hbad.
    pose proof (new_GraphQLTypeMap_enough_fuel heap to_str types) as Hfuel.
    destruct (new_GraphQLTypeMap heap to_str types) as [self|e|] eqn:Hnew;
      [|by exists e|done].
    exfalso.
    pose proof Hnew as (Hm & _ & _ & Hwk & Hreach)%new_GraphQLTypeMap_parts.
    apply Hreach in Ha. apply (registered_values heap) in Ha; [|done].
    rewrite (reduce_types_read heap to_str _ _ _ _ Hm Ha) in Hbad. done.
  - unfold readable, get_fields, get_types, declared_fields.
    intros [Hempty|Hempty]; destruct (def (heap a)); simplify_eq/=; try done.
    apply andb_false_r.
  - intros Hdef. apply raised_by_the_fold. rewrite first_root_visit.
    unfold reducer_visit, is_union_type, get_types. by rewrite Hdef.
  - intros Hdef. apply raised_by_the_fold. rewrite first_root_visit.
    unfold reducer_visit, is_union_type, is_object_type, is_interface_type,
      get_fields.
    by destruct Hdef as [-> | ->].
Qed.
End ReducerTheorems.

(** ** More on the queries and the conformance check *)

Section PossibleTypeTheorems.
Context {addr : Type} `{Finite addr}.
Variable heap : addr → NamedType addr.
Variable to_str : GraphQLType addr → string.
Implicit Types (self schema : GraphQLTypeMap addr) (a b c o : addr)
  (types : list (option (GraphQLType addr))) (t : GraphQLType addr).

(** The possible types of an interface of the map are the values of the
    map that list it. *)
Lemma possible_types_of_registered_interface self interface fields :
  constructed heap to_str self →
  registered heap (items self) interface →
  def (heap interface) = GraphQLInterfaceType fields →
  ∃ l, get_possible_types heap to_str self interface = Ok l
    ∧ ∀ o, o ∈ l ↔ o ∈ OrderedDict.values (items self)
                    ∧ interface ∈ object_interfaces heap o.
Proof.
  intros Hself Hreg Hdef. eexists. split.
  - rewrite (get_possible_types_interface heap to_str self interface fields Hdef).
    rewrite (constructed_implementations heap to_str) by done.
    by rewrite (implementers_registered heap to_str).
  - intros o. rewrite list_elem_of_bind. split.
    + intros (g & Ho & Hg). apply list_elem_of_bind in Ho as (i & Ho & Hi).
      case_decide; [|by apply elem_of_nil in Ho].
      apply list_elem_of_singleton in Ho. by subst.
    + intros [Ho Hi]. exists o. split; [|done].
      apply list_elem_of_bind. exists interface. split; [|done].
      rewrite decide_True by done. left.
Qed.

Lemma possible_types_registered self abstract_type l :
  constructed heap to_str self →
  registered heap (items self) abstract_type →
  get_possible_types heap to_str self abstract_type = Ok l →
  ∀ o, o ∈ l → registered heap (items self) o.
Proof.
  intros Hself Hreg Hl o Ho.
  pose proof (queried_well_keyed heap to_str _ _ Hself) as [Hwk Hclosed].
  destruct (def (heap abstract_type))
    as [| |fields interfaces|fields|members|fields] eqn:Hdef;
    try (unfold get_possible_types in Hl; by rewrite Hdef in Hl).
  - destruct (possible_types_of_registered_interface self abstract_type fields)
      as (l' & Hl' & Hmem); [done..|].
    rewrite Hl in Hl'. injection Hl' as <-.
    apply Hmem in Ho as [Ho _]. by apply registered_values.
  - destruct (get_possible_types_union heap to_str self abstract_type members
                Hdef) as [Hget Hread].
    rewrite Hget in Hl. apply Hread in Hl as [-> _].
    apply (Hclosed abstract_type); [done|].
    unfold references. by rewrite Hdef.
Qed.

(** X7.  What [get_possible_types] lists for an interface of a constructed
    type map: exactly the types of the map that list the interface among
    their [interfaces].  Each of them is an object type that has passed
    the conformance check against the interface: it has every field of the
    interface, with conforming arguments. *)
Theorem implementers_implement self interface fields :
  constructed heap to_str self →
  registered heap (items self) interface →
  def (heap interface) = GraphQLInterfaceType fields →
  ∃ l, get_possible_types heap to_str self interface = Ok l
    ∧ (∀ o, o ∈ l ↔ registered heap (items self) o
                    ∧ interface ∈ object_interfaces heap o)
    ∧ (∀ o, o ∈ l → is_object_type heap o = true
                    ∧ conforms heap to_str o interface).
Proof.
  intros Hself Hreg Hdef.
  destruct (possible_types_of_registered_interface self interface fields)
    as (l & Hl & Hmem); [done..|].
  pose proof (queried_well_keyed heap to_str _ _ Hself) as [Hwk _].
  exists l. split_and!; [done| |].
  - intros o. rewrite Hmem. by rewrite registered_values.
  - intros o [Ho Hi]%Hmem. split.
    + unfold is_object_type. unfold object_interfaces in Hi.
      destruct (def (heap o)); try done; by apply elem_of_nil in Hi.
    + apply queried_origin in Hself as (types & self0 & Hnew & Hitems & _).
      eapply new_GraphQLTypeMap_conforms; [done| |done]. by rewrite <- Hitems.
Qed.

(** The answer of a map that was only asked about its own types is by
    the names of what [get_possible_types] lists. *)
Lemma own_answer_by_name self abstract_type possible_type answer self' :
  constructed_own heap to_str self →
  registered heap (items self) abstract_type →
  is_possible_type heap to_str self abstract_type possible_type
    = Ok (answer, self') →
  ∃ l, get_possible_types heap to_str self abstract_type = Ok l
       ∧ l ≠ []
       ∧ answer = bool_decide (name (heap possible_type) ∈ names heap l).
Proof.
  intros Hown Hreg Hq.
  pose proof (queried_weaken heap to_str _ _ Hown) as Hself.
  pose proof (queried_well_keyed heap to_str _ _ Hself) as [Hwk _].
  pose proof Hq as (l & Hl & Hne & Hitems & Himpl & Hcache)%is_possible_type_Ok.
  exists l. split_and!; [done|done|].
  destruct (_possible_type_map self !! name (heap abstract_type))
    as [s|] eqn:Hs; [|by destruct Hcache].
  destruct Hcache as [_ ->].
  apply constructed_own_consistent in Hown.
  destruct (Hown _ _ Hs) as (a' & l' & Hreg' & Hname & Hl' & ->).
  assert (a' = abstract_type) as ->
    by by apply (registered_unique heap (items self) Hwk).
  rewrite Hl in Hl'. injection Hl' as <-.
  apply bool_decide_ext. by rewrite elem_of_list_to_set.
Qed.

(** Among the types of the map, a name is the name of one type. *)
Lemma name_among_registered self c (l : list addr) :
  constructed heap to_str self →
  registered heap (items self) c →
  (∀ o, o ∈ l → registered heap (items self) o) →
  name (heap c) ∈ names heap l ↔ c ∈ l.
Proof.
  intros Hself Hc Hl.
  pose proof (queried_well_keyed heap to_str _ _ Hself) as [Hwk _].
  unfold names. rewrite list_elem_of_fmap. split.
  - intros (p & Hname & Hp).
    by rewrite (registered_unique heap (items self) Hwk c p); auto.
  - intros Hin. by exists c.
Qed.

(** X8.  On a constructed type map that has only been asked about its own
    abstract types, [is_possible_type] of an abstract type and a candidate
    that are both in the map answers whether the candidate itself is one
    of the types [get_possible_types] lists for the abstract type: within
    the map, comparing names is comparing types. *)
Theorem is_possible_type_decides_membership
    self abstract_type possible_type answer self' :
  constructed_own heap to_str self →
  registered heap (items self) abstract_type →
  registered heap (items self) possible_type →
  is_possible_type heap to_str self abstract_type possible_type
    = Ok (answer, self') →
  ∃ l, get_possible_types heap to_str self abstract_type = Ok l
       ∧ answer = bool_decide (possible_type ∈ l).
Proof.
  intros Hown Hreg Hregc Hq.
  pose proof (queried_weaken heap to_str _ _ Hown) as Hself.
  destruct (own_answer_by_name _ _ _ _ _ Hown Hreg Hq) as (l & Hl & _ & ->).
  exists l. split; [done|]. apply bool_decide_ext.
  apply (name_among_registered self); [done|done|].
  by apply (possible_types_registered self abstract_type l).
Qed.

Lemma is_possible_type_of_listed self abstract_type possible_type l :
  constructed_own heap to_str self →
  registered heap (items self) abstract_type →
  get_possible_types heap to_str self abstract_type = Ok l →
  possible_type ∈ l →
  ∃ self', is_possible_type heap to_str self abstract_type possible_type
           = Ok (true, self').
Proof.
  intros Hown Hreg Hl Hin.
  assert (l ≠ []) as Hne by (intros ->; by apply elem_of_nil in Hin).
  destruct (is_possible_type heap to_str self abstract_type possible_type)
    as [[answer self']| |] eqn:Hq.
  - exists self'. do 2 f_equal.
    destruct (own_answer_by_name _ _ _ _ _ Hown Hreg Hq) as (l' & Hl' & _ & ->).
    rewrite Hl in Hl'. injection Hl' as <-.
    apply bool_decide_eq_true. unfold names. apply list_elem_of_fmap.
    by exists possible_type.
  - unfold is_possible_type in Hq. rewrite Hl in Hq. simpl in Hq.
    by rewrite (bool_decide_eq_true_2 (l ≠ [])) in Hq.
  - unfold is_possible_type in Hq. rewrite Hl in Hq. simpl in Hq.
    by rewrite (bool_decide_eq_true_2 (l ≠ [])) in Hq.
Qed.

(** X20.  A constructed type map that has only been asked about its own
    abstract types recognises its possible types: [is_possible_type]
    returns [True] for a union of the map and each of its members, and
    for an interface of the map and each type of the map that lists it. *)
Theorem listed_types_are_possible_types self abstract_type possible_type :
  constructed_own heap to_str self →
  registered heap (items self) abstract_type →
  (∃ members, def (heap abstract_type) = GraphQLUnionType members
              ∧ possible_type ∈ members)
  ∨ (∃ fields, def (heap abstract_type) = GraphQLInterfaceType fields
               ∧ registered heap (items self) possible_type
               ∧ abstract_type ∈ object_interfaces heap possible_type) →
  ∃ self', is_possible_type heap to_str self abstract_type possible_type
           = Ok (true, self').
Proof.
  intros Hown Hreg Hlisted.
  pose proof (queried_weaken heap to_str _ _ Hown) as Hself.
  pose proof (queried_well_keyed heap to_str _ _ Hself) as [Hwk _].
  destruct Hlisted as [(members & Hdef & Hin)|(fields & Hdef & Hregc & Hlists)].
  - apply (is_possible_type_of_listed self abstract_type possible_type members);
      [done|done| |done].
    destruct (get_possible_types_union heap to_str self abstract_type members
                Hdef) as [-> _].
    apply readable_types; [|done]. by apply (constructed_readable heap to_str self).
  - destruct (possible_types_of_registered_interface self abstract_type fields)
      as (l & Hl & Hmem); [done..|].
    apply (is_possible_type_of_listed self abstract_type possible_type l);
      [done|done|done|].
    apply Hmem. split; [|done]. by apply (registered_values heap).
Qed.

(** X9.  [is_possible_type] touches nothing but the cache, and the cache
    only grows: a call that returns leaves the dictionary and the index of
    implementations as they were, keeps every cached entry, and the cached
    names are then those of before and the name of the abstract type.  It
    returns exactly when [get_possible_types] returns a non-empty list;
    for a type that is neither an interface nor a union both queries raise
    an assertion error. *)
Theorem is_possible_type_only_fills_the_cache self abstract_type possible_type :
  (∀ answer self',
     is_possible_type heap to_str self abstract_type possible_type
       = Ok (answer, self') →
     items self' = items self
     ∧ _implementations self' = _implementations self
     ∧ _possible_type_map self ⊆ _possible_type_map self'
     ∧ dom (_possible_type_map self')
       = dom (_possible_type_map self) ∪ {[name (heap abstract_type)]})
  ∧ ((∃ answer self',
        is_possible_type heap to_str self abstract_type possible_type
          = Ok (answer, self'))
     ↔ ∃ l, get_possible_types heap to_str self abstract_type = Ok l ∧ l ≠ [])
  ∧ (is_abstract_type heap abstract_type = false →
     get_possible_types heap to_str self abstract_type
       = Raise (AssertionError EmptyString)
     ∧ is_possible_type heap to_str self abstract_type possible_type
       = Raise (AssertionError EmptyString)).
Proof.
  split_and!.
  - intros answer self' (l & _ & _ & Hitems & Himpl & Hcache)%is_possible_type_Ok.
    split_and!; [done|done| |].
    + destruct (_possible_type_map self !! name (heap abstract_type)) eqn:Hs;
        destruct Hcache as [-> _]; [done|]. by apply insert_subseteq.
    + destruct (_possible_type_map self !! name (heap abstract_type)) eqn:Hs;
        destruct Hcache as [-> _].
      * apply (elem_of_dom_2 (D := gset string)) in Hs. set_solver.
      * rewrite dom_insert_L. set_solver.
  - split.
    + intros (answer & self' & (l & Hl & Hne & _)%is_possible_type_Ok).
      by exists l.
    + intros (l & Hl & Hne). unfold is_possible_type. rewrite Hl. simpl.
      rewrite (bool_decide_eq_true_2 (l ≠ [])) by done. simpl. by eauto.
  - intros Habs. unfold is_possible_type, get_possible_types.
    unfold is_abstract_type in Habs.
    by destruct (def (heap abstract_type)).
Qed.
End PossibleTypeTheorems.

Section ConformanceTheorems.
Context {addr : Type} `{Finite addr}.
Variable heap : addr → NamedType addr.
Variable to_str : GraphQLType addr → string.
Implicit Types (self schema : GraphQLTypeMap addr) (a b c o : addr)
  (types : list (option (GraphQLType addr))) (t : GraphQLType addr).

Lemma not_conforming_fails_construction types object interface :
  reachable heap types object →
  interface ∈ object_interfaces heap object →
  ¬ conforms heap to_str object interface →
  ∃ e, new_GraphQLTypeMap heap to_str types = Raise e.
Proof.
  intros Ho Hi Hnot.
  pose proof (new_GraphQLTypeMap_enough_fuel heap to_str types) as Hfuel.
  destruct (new_GraphQLTypeMap heap to_str types) as [self|e|] eqn:Hnew;
    [|by exists e|done].
  destruct Hnot.
  pose proof Hnew as (_ & _ & _ & Hwk & Hreach)%new_GraphQLTypeMap_parts.
  eapply new_GraphQLTypeMap_conforms; [done| |done].
  apply (registered_values heap); [done|]. by apply Hreach.
Qed.

(** X10.  An object type must provide every field of an interface it is
    checked against: when a field of the interface is missing from the
    object type, [assert_object_implements_interface] raises, whatever the
    state of the schema object; when the missing field is the first field
    of the interface, it raises the assertion error that names the
    interface, the field and the object type.  No type map is constructed
    from roots that reach an object type which lists the interface and
    lacks one of its fields. *)
Theorem missing_interface_field_is_fatal schema object interface
    object_field_map interface_field_map field_name interface_field :
  get_fields heap to_str object = Ok object_field_map →
  get_fields heap to_str interface = Ok interface_field_map →
  (field_name, interface_field) ∈ interface_field_map →
  OrderedDict.get object_field_map field_name = None →
  (∃ e, assert_object_implements_interface heap to_str schema object interface
        = Raise e)
  ∧ (head interface_field_map = Some (field_name, interface_field) →
     assert_object_implements_interface heap to_str schema object interface
     = Raise (AssertionError
                (missing_field_message to_str object interface field_name)))
  ∧ (∀ types,
       reachable heap types object →
       interface ∈ object_interfaces heap object →
       ∃ e, new_GraphQLTypeMap heap to_str types = Raise e).
Proof.
  intros Ho Hi Hin Hmissing.
  assert (¬ conforms heap to_str object interface) as Hnot.
  { intros (ofm & ifm & Ho' & Hi' & Hall).
    rewrite Ho in Ho'. rewrite Hi in Hi'. injection Ho' as <-. injection Hi' as <-.
    destruct (Hall _ _ Hin) as (object_field & Hget & _). congruence. }
  split_and!.
  - pose proof (assert_object_implements_interface_returns heap to_str
                  schema object interface) as Hret.
    destruct (assert_object_implements_interface heap to_str schema object interface)
      as [schema'|e|] eqn:Hcall; [|by exists e|done].
    destruct Hnot. by eapply assert_object_implements_interface_Ok.
  - intros Hhead. unfold assert_object_implements_interface.
    rewrite Ho, Hi. cbn [mbind Result_bind].
    destruct interface_field_map as [|item rest]; [done|].
    injection Hhead as ->. cbn [foldM]. by rewrite Hmissing.
  - intros types Hreach Hlists.
    by eapply not_conforming_fails_construction.
Qed.

Lemma forM__Raise_split {B} (f : B → Result unit) (l : list B) :
  (∀ x, x ∈ l → f x ≠ OutOfFuel) →
  forM_ f l ≠ Ok tt →
  ∃ l1 x l2 e,
    l = l1 ++ x :: l2 ∧ (∀ y, y ∈ l1 → f y = Ok tt)
    ∧ f x = Raise e ∧ forM_ f l = Raise e.
Proof.
  induction l as [|y l IH]; simpl; intros Hf Hrun; [done|].
  destruct (f y) as [[]|e|] eqn:Hy; simpl in *.
  - destruct IH as (l1 & x & l2 & e & -> & Hl1 & Hx & Hl); [|done|].
    + intros x Hx. apply Hf. by right.
    + exists (y :: l1), x, l2, e. split_and!; [done| |done|done].
      intros z [->|Hz]%elem_of_cons; auto.
  - exists [], y, l, e. split_and!; [done| |done|done].
    intros z Hz. by apply elem_of_nil in Hz.
  - destruct (Hf y); [left|done].
Qed.

(** X11.  What the loop over the arguments of the interface field raises:
    when an argument of the interface field is not an argument of the
    object field with the identical type, the check raises for the first
    such argument (the arguments before it are all provided, with the
    identical type): the assertion error that the object field does not
    provide the argument when it has none of that name, and otherwise the
    assertion error that names the two differing types. *)
Theorem interface_arguments_must_be_provided object interface field_name
    object_type object_args interface_type interface_args :
  ¬ shared_args_identical object_args interface_args →
  ∃ before arg_name interface_arg after,
    interface_args = before ++ (arg_name, interface_arg) :: after
    ∧ shared_args_identical object_args before
    ∧ match OrderedDict.get object_args arg_name with
      | None =>
          check_interface_args to_str object interface field_name
            (GraphQLField object_type object_args)
            (GraphQLField interface_type interface_args)
          = Raise (AssertionError
              (missing_argument_message to_str object interface
                 field_name arg_name))
      | Some object_arg =>
          arg_type object_arg ≠ arg_type interface_arg
          ∧ check_interface_args to_str object interface field_name
              (GraphQLField object_type object_args)
              (GraphQLField interface_type interface_args)
            = Raise (AssertionError
                (argument_type_message to_str object interface
                   field_name arg_name
                   (arg_type interface_arg) (arg_type object_arg)))
      end.
Proof.
  intros Hnot.
  rewrite <- (check_interface_args_Ok to_str object interface field_name
                object_type _ interface_type) in Hnot.
  unfold check_interface_args in *. simpl in *.
  apply forM__Raise_split in Hnot
    as (before & [arg_name interface_arg] & after & e & -> & Hbefore & Hx & Hl).
  - exists before, arg_name, interface_arg, after. split_and!; [done| |].
    + intros n a Hin. specialize (Hbefore _ Hin). simpl in Hbefore.
      destruct (OrderedDict.get object_args n) as [object_arg|]; [|done].
      exists object_arg. split; [done|].
      destruct (is_equal_type (arg_type a) (arg_type object_arg)) eqn:Heq;
        [|done].
      by apply is_equal_type_eq in Heq.
    + rewrite Hl. simpl in Hx.
      destruct (OrderedDict.get object_args arg_name) as [object_arg|].
      * destruct (is_equal_type (arg_type interface_arg) (arg_type object_arg))
          eqn:Heq; [done|].
        simpl in Hx. injection Hx as <-. split; [|done].
        intros Heq'. rewrite Heq' in Heq.
        by rewrite (proj2 (is_equal_type_eq _ _) eq_refl) in Heq.
      * by injection Hx as <-.
  - intros [arg_name interface_arg] _. simpl.
    destruct (OrderedDict.get object_args arg_name); [|done].
    by destruct (is_equal_type _ _).
Qed.
End ConformanceTheorems.

(** ** Which roots are constructed into a type map *)

Section AcceptanceTheorems.
Context {addr : Type} `{Finite addr}.
Variable heap : addr → NamedType addr.
Variable to_str : GraphQLType addr → string.
Implicit Types (self schema : GraphQLTypeMap addr) (a b c : addr)
  (types : list (option (GraphQLType addr))) (t : GraphQLType addr).

Lemma reduce_types_Ok_iff types :
  (∃ m, reduce_types heap to_str (S (card addr)) types = Ok m)
  ↔ (∀ a, reachable heap types a →
          readable heap to_str a = true ∧ fields_ok heap a = true)
    ∧ (∀ a b, reachable heap types a → reachable heap types b →
              name (heap a) = name (heap b) → a = b).
Proof.
  split.
  - intros [m Hm].
    pose proof (reduce_types_outcome heap to_str (S (card addr)) types) as Hout.
    rewrite Hm in Hout. simpl in Hout. apply reduced_nil in Hout as [Hwk Hreach].
    split.
    + intros a Ha%Hreach. split.
      * eapply reduce_types_read; [done|]. by apply (registered_values heap).
      * destruct (reduce_fields_ok heap to_str _ _ _ _ Hm _ Ha) as [Hnil|Hok];
          [|done].
        by apply elem_of_nil in Hnil.
    + intros a b Ha%Hreach Hb%Hreach. by apply (registered_unique heap m).
  - intros [Hpass Hnames].
    pose proof (reduce_types_accepted heap to_str (reachable heap types)
                  (λ a c, reachable_step heap _ a c)
                  (λ a Ha, proj1 (Hpass a Ha)) (λ a Ha, proj2 (Hpass a Ha))
                  (S (card addr)) types) as Hacc.
    pose proof (reduce_types_enough_fuel heap to_str types) as Hfuel.
    destruct (reduce_types heap to_str (S (card addr)) types) as [m|e|];
      [by exists m| |done].
    destruct Hacc as (a & b & Ha & Hb & Hne & Hname & _).
    + intros c Hc. by apply reachable_target.
    + destruct Hne. by apply Hnames.
Qed.

Lemma enforce_without_interfaces self :
  (∀ a, a ∈ OrderedDict.values (items self) → object_interfaces heap a = []) →
  enforce_declared heap to_str self = Ok self.
Proof.
  unfold enforce_declared. generalize (OrderedDict.values (items self)).
  intros l. induction l as [|a l IH]; intros Hl; [done|].
  cbn [foldM]. rewrite (Hl a) by left. cbn [foldM mbind Result_bind].
  apply IH. intros ? ?. apply Hl. by right.
Qed.

(** X12.  The reducer accepts exactly the well-formed closures: the fold
    of [reducer] over a list of roots returns a map if and only if every
    type the roots reach has properties that can be read (a type with
    fields has at least one, a union at least one member, and so on) and
    fields that pass the assertions on fields, and no two types the roots
    reach have the same name.  When, besides, no type the roots reach lists
    an interface, this is also exactly when the construction of the type
    map returns. *)
Theorem reducer_accepts_the_well_formed types :
  let well_formed :=
    (∀ a, reachable heap types a →
          readable heap to_str a = true ∧ fields_ok heap a = true)
    ∧ (∀ a b, reachable heap types a → reachable heap types b →
              name (heap a) = name (heap b) → a = b) in
  ((∃ m, reduce_types heap to_str (S (card addr)) types = Ok m) ↔ well_formed)
  ∧ ((∀ a, reachable heap types a → object_interfaces heap a = []) →
     (∃ self, new_GraphQLTypeMap heap to_str types = Ok self) ↔ well_formed).
Proof.
  intros well_formed. split; [apply reduce_types_Ok_iff|].
  intros Hnone. subst well_formed. rewrite <- reduce_types_Ok_iff. split.
  - intros [self (Hm & _)%new_GraphQLTypeMap_parts]. by eexists.
  - intros [m Hm]. exists (before_checks heap m).
    eapply new_GraphQLTypeMap_from_parts; [done|].
    apply enforce_without_interfaces. simpl. intros a Ha. apply Hnone.
    pose proof (reduce_types_outcome heap to_str (S (card addr)) types) as Hout.
    rewrite Hm in Hout. simpl in Hout. apply reduced_nil in Hout as [Hwk Hreach].
    apply Hreach. by apply registered_values.
Qed.

Lemma reachable_Permutation types types' a :
  types ≡ₚ types' → reachable heap types a → reachable heap types' a.
Proof.
  intros Hperm. apply reachable_from_mono. intros b Hb.
  apply reachable_target. unfold root_types in *. by rewrite <- Hperm.
Qed.

(** X13.  The order of the roots only orders the map: for two lists of
    roots that are permutations of each other, the fold of [reducer]
    returns a map for both or for neither, and when both constructions
    return a type map, the two maps have the same entries, up to their
    order. *)
Theorem root_order_only_orders_the_map types types' :
  types ≡ₚ types' →
  ((∃ m, reduce_types heap to_str (S (card addr)) types = Ok m)
   ↔ (∃ m', reduce_types heap to_str (S (card addr)) types' = Ok m'))
  ∧ (∀ self self',
       new_GraphQLTypeMap heap to_str types = Ok self →
       new_GraphQLTypeMap heap to_str types' = Ok self' →
       items self ≡ₚ items self').
Proof.
  intros Hperm.
  assert (∀ a, reachable heap types a ↔ reachable heap types' a) as Hreach.
  { intros a. split; by apply reachable_Permutation. }
  split.
  - rewrite !reduce_types_Ok_iff. by setoid_rewrite Hreach.
  - intros self self'
      (_ & _ & _ & [Hnd Hown] & Hr)%new_GraphQLTypeMap_parts
      (_ & _ & _ & [Hnd' Hown'] & Hr')%new_GraphQLTypeMap_parts.
    apply NoDup_Permutation.
    + by eapply NoDup_fmap_1.
    + by eapply NoDup_fmap_1.
    + intros [n a]. split; intros Hin.
      * pose proof (Hown _ _ Hin) as ->. apply Hr', Hreach, Hr. done.
      * pose proof (Hown' _ _ Hin) as ->. apply Hr, Hreach, Hr'. done.
Qed.
End AcceptanceTheorems.

Lemma foldM_fixed {A B} (f : A → B → Result A) (l : list B) (a : A) :
  (∀ x, x ∈ l → f a x = Ok a) → foldM f a l = Ok a.
Proof.
  induction l as [|x l IH]; intros Hf; simpl; [done|].
  rewrite Hf by left. simpl. apply IH. intros ? ?. apply Hf. by right.
Qed.

Section SufficientConditions.
Context {addr : Type} `{Finite addr}.
Variable heap : addr → NamedType addr.
Variable to_str : GraphQLType addr → string.
Implicit Types (self schema : GraphQLTypeMap addr) (a b c o i : addr)
  (types : list (option (GraphQLType addr))) (t : GraphQLType addr).

Lemma is_type_sub_type_of_refl schema t :
  is_type_sub_type_of heap to_str schema t t = Ok (true, schema).
Proof.
  assert (is_ t t = true) as Hrefl by by apply is__eq.
  destruct t; simpl in *; by rewrite Hrefl.
Qed.

(** The loop of [assert_object_implements_interface] over the fields of
    the interface, with the field maps of the two types at hand. *)
Lemma conforming_fields_pass schema object interface
    (object_field_map interface_field_map : OrderedDict (FieldDef addr)) :
  (∀ field_name interface_field,
     (field_name, interface_field) ∈ interface_field_map →
     ∃ object_field,
       OrderedDict.get object_field_map field_name = Some object_field
       ∧ field_type object_field = field_type interface_field
       ∧ field_conforms object_field interface_field) →
  foldM (λ schema '(field_name, interface_field),
           match OrderedDict.get object_field_map field_name with
           | None =>
               Raise (AssertionError
                 (dquote +:+ to_str (Named interface) +:+ dquote
                    +:+ " expects field " +:+ dquote +:+ field_name +:+ dquote
                    +:+ " but " +:+ dquote +:+ to_str (Named object) +:+ dquote
                    +:+ " does not provide it."))
           | Some object_field =>
               '(sub, schema) ← is_type_sub_type_of heap to_str schema
                                  (field_type object_field)
                                  (field_type interface_field);
               assert sub
                 (to_str (Named interface) +:+ "." +:+ field_name
                    +:+ " expects type " +:+ dquote
                    +:+ to_str (field_type interface_field) +:+ dquote
                    +:+ " but " +:+ to_str (Named object) +:+ "." +:+ field_name
                    +:+ " provides type " +:+ dquote
                    +:+ to_str (field_type object_field) +:+ dquote +:+ ".");;
               check_interface_args to_str object interface field_name
                 object_field interface_field;;
               check_object_args to_str object interface field_name
                 object_field interface_field;;
               Ok schema
           end)
        schema interface_field_map
  = Ok schema.
Proof.
  intros Hall. apply foldM_fixed.
  intros [field_name interface_field] Hin.
  destruct (Hall _ _ Hin) as (object_field & Hget & Htype & Hconf).
  rewrite Hget, Htype, is_type_sub_type_of_refl.
  cbn [mbind Result_bind assert].
  destruct Hconf as (oa & ia & Hoa & Hia & Hshared & Hextra).
  destruct object_field as [ot oa'|ot]; [|done].
  destruct interface_field as [it ia'|it]; [|done].
  simpl in Hoa, Hia. injection Hoa as ->. injection Hia as ->.
  rewrite (proj2 (check_interface_args_Ok to_str object interface field_name
                    ot oa it ia) Hshared).
  cbn [mbind Result_bind].
  by rewrite (proj2 (check_object_args_Ok to_str object interface field_name
                       ot oa it ia) Hextra).
Qed.

Lemma conforming_fields object interface object_field_map interface_field_map :
  conforms heap to_str object interface →
  same_field_types heap to_str object interface →
  get_fields heap to_str object = Ok object_field_map →
  get_fields heap to_str interface = Ok interface_field_map →
  ∀ field_name interface_field,
    (field_name, interface_field) ∈ interface_field_map →
    ∃ object_field,
      OrderedDict.get object_field_map field_name = Some object_field
      ∧ field_type object_field = field_type interface_field
      ∧ field_conforms object_field interface_field.
Proof.
  intros (ofm & ifm & Ho & Hi & Hall) Hsame Ho' Hi' field_name interface_field Hin.
  rewrite Ho in Ho'. rewrite Hi in Hi'. injection Ho' as <-. injection Hi' as <-.
  destruct (Hall _ _ Hin) as (object_field & Hget & Hconf).
  exists object_field. split_and!; [done| |done]. by eapply Hsame.
Qed.

(** X14.  A sufficient condition of the conformance check: an object type
    that has every field of the interface, with conforming arguments and
    with the identical field type, passes
    [assert_object_implements_interface], and the schema object is handed
    back as it was: no possible-type query is made for identical types. *)
Theorem identical_field_types_conform schema object interface :
  conforms heap to_str object interface →
  same_field_types heap to_str object interface →
  assert_object_implements_interface heap to_str schema object interface
  = Ok schema.
Proof.
  intros Hconf Hsame. pose proof Hconf as (ofm & ifm & Ho & Hi & _).
  unfold assert_object_implements_interface. rewrite Ho, Hi.
  cbn [mbind Result_bind]. apply conforming_fields_pass.
  by apply (conforming_fields object interface).
Qed.

(** X15.  Type maps are constructed: when the types that the roots reach
    have properties that can be read, fields that pass the assertions on
    fields and pairwise different names, and every object type among them
    has, for each interface it lists, every field of the interface with
    conforming arguments and the identical field type, the construction
    returns; the result is the reduced map with the index of
    implementations and an empty cache. *)
Theorem well_formed_schemas_are_constructed types :
  (∀ a, reachable heap types a →
        readable heap to_str a = true ∧ fields_ok heap a = true) →
  (∀ a b, reachable heap types a → reachable heap types b →
          name (heap a) = name (heap b) → a = b) →
  (∀ o i, reachable heap types o → i ∈ object_interfaces heap o →
          conforms heap to_str o i ∧ same_field_types heap to_str o i) →
  ∃ m, reduce_types heap to_str (S (card addr)) types = Ok m
       ∧ new_GraphQLTypeMap heap to_str types = Ok (before_checks heap m)
       ∧ ∀ a, registered heap m a ↔ reachable heap types a.
Proof.
  intros Hfields Hnames Hconf.
  destruct (proj2 (reduce_types_Ok_iff heap to_str types)) as [m Hm]; [done|].
  pose proof (reduce_types_outcome heap to_str (S (card addr)) types) as Hout.
  rewrite Hm in Hout. simpl in Hout. apply reduced_nil in Hout as [Hwk Hreach].
  exists m. split_and!; [done| |done].
  eapply new_GraphQLTypeMap_from_parts; [done|].
  unfold enforce_declared. apply foldM_fixed.
  intros o Ho. apply foldM_fixed. intros i Hi.
  destruct (Hconf o i) as [Hc Hs]; [by apply Hreach, registered_values|done|].
  pose proof Hc as (ofm & ifm & Hofm & Hifm & _).
  unfold assert_object_implements_interface. rewrite Hofm, Hifm.
  cbn [mbind Result_bind]. apply conforming_fields_pass.
  by apply (conforming_fields o i).
Qed.
End SufficientConditions.

(** ** The further theorems at work on the two example worlds *)

(** Reaching [A] from a map that has [Int] adds [A], [B] and [Node] behind
    it; reaching [A] again changes nothing. *)
Lemma reducer_extends_the_map_witness :
  let r := [("Int", Int); ("A", A); ("B", B); ("Node", Node)] in
  [("Int", Int)] `prefix_of` r
  ∧ OrderedDict.get r "A" = Some A
  ∧ reducer example_heap example_to_str 0 r (Some (GraphQLNonNull (Named A))) = Ok r.
Proof.
  intros r.
  destruct (reducer_extends_the_map example_heap example_to_str 11
              [("Int", Int)] (GraphQLNonNull (Named A)) r)
    as (Hprefix & Hget & Hagain); [vm_compute; reflexivity|].
  split_and!; [done|done|apply Hagain].
Defined.

(** Listing [B], [None] and [Int] after the roots of the example gives the
    same type map. *)
Lemma registered_roots_are_redundant_witness :
  new_GraphQLTypeMap example_heap example_to_str
    (example_roots ++ [Some (GraphQLList (Named B)); None; Some (Named Int)])
  = Ok example_map.
Proof.
  apply (registered_roots_are_redundant example_heap example_to_str).
  - apply example_map_new.
  - intros t Ht. repeat apply elem_of_cons in Ht as [Ht|Ht];
      try discriminate Ht; try (injection Ht as ->; by_computation).
    by apply elem_of_nil in Ht.
Defined.

Lemma shape_map_new :
  new_GraphQLTypeMap shape_heap shape_to_str [Some (Named Root); Some (Named Circle)]
  = Ok shape_map.
Proof. vm_compute; reflexivity. Defined.

Lemma shape_map_constructed : constructed shape_heap shape_to_str shape_map.
Proof.
  apply (queried_new _ _ _ [Some (Named Root); Some (Named Circle)]), shape_map_new.
Defined.

(** The input object type [PointInput] and the object type [Root] are in
    the map of the shapes, and their fields are as the reducer asserts. *)
Lemma registered_fields_pass_the_checks_witness :
  fields_ok shape_heap PointInput = true
  ∧ is_input_type shape_heap (Named Float) = true
  ∧ is_output_type shape_heap (Named Shape) = true
  ∧ is_input_type shape_heap (Named PointInput) = true.
Proof.
  destruct (registered_fields_pass_the_checks shape_heap shape_to_str
              shape_map PointInput) as (Hok & Hinput & _);
    [apply shape_map_constructed|by_computation|].
  destruct (registered_fields_pass_the_checks shape_heap shape_to_str
              shape_map Root) as (_ & _ & Houtput);
    [apply shape_map_constructed|by_computation|].
  destruct (Hinput [("x", GraphQLInputObjectField (Named Float))] "x"
              (GraphQLInputObjectField (Named Float))) as [_ Hx];
    [reflexivity|left|].
  destruct (Houtput
              [("draw", GraphQLField (Named Shape)
                          [("at", Build_GraphQLArgument (Named PointInput))])]
              "draw"
              (GraphQLField (Named Shape)
                 [("at", Build_GraphQLArgument (Named PointInput))]))
    as (Hdraw & args & Hargs & Hall); [reflexivity|reflexivity|left|].
  injection Hargs as <-.
  split_and!; [done|done|done|].
  apply (Hall "at" (Build_GraphQLArgument (Named PointInput))). left.
Defined.

(** [BadInput] has a field of the output type [[Shape]]: no type map has it. *)
Lemma ill_typed_field_fails_construction_witness :
  ∃ e, new_GraphQLTypeMap shape_heap shape_to_str
         [Some (Named Float); Some (GraphQLList (Named BadInput))] = Raise e.
Proof.
  apply (ill_typed_field_fails_construction shape_heap shape_to_str _ BadInput).
  - apply reachable_target. by_computation.
  - reflexivity.
Defined.

(** [Hollow] has no field and [Nobody] no member: no type map has either,
    and as first roots they raise the assertion errors of their reads. *)
Lemma unreadable_types_fail_construction_witness :
  (∃ e, new_GraphQLTypeMap shape_heap shape_to_str
          [Some (Named Float); Some (GraphQLNonNull (Named Hollow))] = Raise e)
  ∧ new_GraphQLTypeMap shape_heap shape_to_str [Some (Named Nobody)]
    = Raise (AssertionError "Must provide types for Union Nobody.")
  ∧ new_GraphQLTypeMap shape_heap shape_to_str [Some (Named Hollow)]
    = Raise (AssertionError (fields_must_be_a_mapping_message shape_to_str Hollow)).
Proof.
  split_and!.
  - destruct (unreadable_types_fail_construction shape_heap shape_to_str
                [Some (Named Float); Some (GraphQLNonNull (Named Hollow))] Hollow)
      as (Hraise & Hempty & _).
    apply Hraise.
    + apply reachable_target. by_computation.
    + apply Hempty. by left.
  - destruct (unreadable_types_fail_construction shape_heap shape_to_str
                [] Nobody) as (_ & _ & Hunion & _).
    by apply Hunion.
  - destruct (unreadable_types_fail_construction shape_heap shape_to_str
                [] Hollow) as (_ & _ & _ & Hfields).
    apply Hfields. by left.
Defined.

(** [B] is the one possible type of [Node] in the map of the example, and
    it conforms to [Node]. *)
Lemma implementers_implement_witness :
  ∃ l, get_possible_types example_heap example_to_str example_map Node = Ok l
       ∧ B ∈ l ∧ (A ∉ l) ∧ conforms example_heap example_to_str B Node.
Proof.
  destruct (implementers_implement example_heap example_to_str example_map Node
              [("id", GraphQLField (Named Int)
                        [("x", Build_GraphQLArgument (Named Int))])])
    as (l & Hl & Hmem & Hall);
    [apply example_map_constructed|by_computation|reflexivity|].
  assert (B ∈ l) as HB.
  { apply Hmem. split; by_computation. }
  exists l. split_and!; [done|done| |by apply Hall].
  intros [_ HA]%Hmem. by apply elem_of_nil in HA.
Defined.

(** Asked whether [A] is a [U], the map of the example says that [A] is one
    of the members of [U]. *)
Lemma is_possible_type_decides_membership_witness :
  ∃ l, get_possible_types example_heap example_to_str example_map U = Ok l
       ∧ true = bool_decide (A ∈ l).
Proof.
  apply (is_possible_type_decides_membership example_heap example_to_str
           example_map U A true example_map_asked).
  - apply example_map_constructed_own.
  - by_computation.
  - by_computation.
  - apply example_map_ask.
Defined.

(** [Blob] lists [Shape] and has no field [area]. *)
Lemma missing_interface_field_is_fatal_witness :
  assert_object_implements_interface shape_heap shape_to_str shape_map Blob Shape
  = Raise (AssertionError
             (missing_field_message shape_to_str Blob Shape "area"))
  ∧ ∃ e, new_GraphQLTypeMap shape_heap shape_to_str
           [Some (Named Root); Some (Named Blob)] = Raise e.
Proof.
  destruct (missing_interface_field_is_fatal shape_heap shape_to_str shape_map
              Blob Shape
              [("name", GraphQLField (Named Float) [])]
              [("area", GraphQLField (Named Float)
                          [("unit", Build_GraphQLArgument (Named Float))])]
              "area"
              (GraphQLField (Named Float)
                 [("unit", Build_GraphQLArgument (Named Float))]))
    as (_ & Hfirst & Hnew); [reflexivity|reflexivity|left|reflexivity|].
  split; [by apply Hfirst|].
  apply Hnew; [|by_computation].
  apply reachable_target. by_computation.
Defined.

(** An object field with the argument [x] only, against an interface field
    with [x] and [y]; and one whose [x] is of another type. *)
Lemma interface_arguments_must_be_provided_witness :
  let arg := @Build_GraphQLArgument example_type in
  check_interface_args example_to_str B Node "id"
    (GraphQLField (Named Int) [("x", arg (Named Int))])
    (GraphQLField (Named Int) [("x", arg (Named Int)); ("y", arg (Named Int))])
  = Raise (AssertionError (missing_argument_message example_to_str B Node "id" "y"))
  ∧ check_interface_args example_to_str B Node "id"
      (GraphQLField (Named Int) [("x", arg (GraphQLNonNull (Named Int)))])
      (GraphQLField (Named Int) [("x", arg (Named Int))])
    = Raise (AssertionError
               (argument_type_message example_to_str B Node "id" "x"
                  (Named Int) (GraphQLNonNull (Named Int)))).
Proof.
  intros arg. split.
  - destruct (interface_arguments_must_be_provided example_to_str B Node "id"
                (Named Int) [("x", arg (Named Int))]
                (Named Int) [("x", arg (Named Int)); ("y", arg (Named Int))])
      as (before & arg_name & interface_arg & after & Hsplit & _ & Hraise).
    + intros Hall.
      destruct (Hall "y" (arg (Named Int))) as (object_arg & Hget & _);
        [right; left|discriminate Hget].
    + destruct before as [|item1 before].
      { injection Hsplit as <- <- _. hnf in Hraise.
        destruct Hraise as [Hne _]. by destruct Hne. }
      destruct before as [|item2 before].
      { by injection Hsplit as _ <- <- _. }
      injection Hsplit as _ _ Hsplit. by destruct before.
  - destruct (interface_arguments_must_be_provided example_to_str B Node "id"
                (Named Int) [("x", arg (GraphQLNonNull (Named Int)))]
                (Named Int) [("x", arg (Named Int))])
      as (before & arg_name & interface_arg & after & Hsplit & _ & Hraise).
    + intros Hall.
      destruct (Hall "x" (arg (Named Int))) as (object_arg & Hget & Htype);
        [left|]. injection Hget as <-. discriminate Htype.
    + destruct before as [|item1 before].
      { injection Hsplit as <- <- _. hnf in Hraise. by destruct Hraise as [_ Hraise]. }
      injection Hsplit as _ Hsplit. by destruct before.
Defined.

(** [B] lists [Node], and [B] is a member of [U]: the map of the example
    says that [B] is a possible type of both. *)
Lemma listed_types_are_possible_types_witness :
  (∃ self', is_possible_type example_heap example_to_str example_map Node B
            = Ok (true, self'))
  ∧ (∃ self', is_possible_type example_heap example_to_str example_map U B
              = Ok (true, self')).
Proof.
  split.
  - apply (listed_types_are_possible_types example_heap example_to_str).
    + apply example_map_constructed_own.
    + by_computation.
    + right. eexists. split_and!; [reflexivity|by_computation|by_computation].
  - apply (listed_types_are_possible_types example_heap example_to_str).
    + apply example_map_constructed_own.
    + by_computation.
    + left. eexists. split; [reflexivity|by_computation].
Defined.

Lemma example_B_conforms : conforms example_heap example_to_str B Node.
Proof.
  eexists _, _. split_and!; [reflexivity|reflexivity|].
  intros field_name interface_field Hin.
  apply list_elem_of_singleton in Hin as [= -> ->].
  eexists. split; [reflexivity|].
  eexists _, _. split_and!; [reflexivity|reflexivity| |].
  - intros arg_name interface_arg Hin.
    apply list_elem_of_singleton in Hin as [= -> ->].
    eexists. split; reflexivity.
  - intros arg_name object_arg Hin Hextra.
    apply elem_of_cons in Hin as [[= -> ->]|Hin]; [discriminate Hextra|].
    by apply list_elem_of_singleton in Hin as [= -> ->].
Qed.

Lemma example_B_same_field_types : same_field_types example_heap example_to_str B Node.
Proof.
  intros object_field_map interface_field_map [= <-] [= <-]
    field_name interface_field object_field Hin Hget.
  apply list_elem_of_singleton in Hin as [= -> ->].
  by injection Hget as <-.
Qed.

(** The roots of the example reach types that can be read and whose fields
    pass the assertions, no two of one name: the reducer returns a map,
    which is the dictionary of the type map.  The roots that reach [Dup]
    are not reduced to a map. *)
Lemma reducer_accepts_the_well_formed_witness :
  (∃ m, reduce_types example_heap example_to_str 12 example_roots = Ok m
        ∧ m = items example_map)
  ∧ ¬ ∃ m, reduce_types example_heap example_to_str 12 example_roots_holding_dup
           = Ok m.
Proof.
  split.
  - destruct (reducer_accepts_the_well_formed example_heap example_to_str
                example_roots) as [[_ Hwf] _].
    destruct Hwf as [m Hm].
    + split.
      * intros a Ha%example_reachable. revert a Ha. apply Forall_forall.
        by_computation.
      * intros a b Ha%example_reachable Hb%example_reachable.
        assert (Forall (λ a, Forall (λ b, name (example_heap a)
                                          = name (example_heap b) → a = b)
                               [Query; A; B; Node; U; Int; Lonely])
                  [Query; A; B; Node; U; Int; Lonely]) as Hall by by_computation.
        rewrite Forall_forall in Hall. specialize (Hall a Ha).
        rewrite Forall_forall in Hall. exact (Hall b Hb).
    + exists m. split; [exact Hm|].
      change (card example_type) with 11 in Hm.
      assert (reduce_types example_heap example_to_str 12 example_roots
              = Ok (items example_map)) as Hitems by (vm_compute; reflexivity).
      rewrite Hitems in Hm. by injection Hm as <-.
  - destruct (reducer_accepts_the_well_formed example_heap example_to_str
                example_roots_holding_dup) as [[Hwf _] _].
    intros Hm. destruct (Hwf Hm) as [_ Hnames].
    assert (A = Dup) as Heq; [|discriminate Heq].
    apply Hnames; [| |reflexivity].
    + apply (reachable_step example_heap _ Query); [|by_computation].
      apply reachable_target. by_computation.
    + apply (reachable_step example_heap _ Holder); [|by_computation].
      apply reachable_target. by_computation.
Defined.

(** The roots of the example in another order: both lists are constructed
    into a type map, with [Lonely] last in the one and first in the other,
    and the two maps have the same entries. *)
Lemma root_order_only_orders_the_map_witness :
  ∃ self self',
    new_GraphQLTypeMap example_heap example_to_str
      ([Some (Named Query); None] ++ [Some (GraphQLList (Named Lonely))])
    = Ok self
    ∧ new_GraphQLTypeMap example_heap example_to_str
        ([Some (GraphQLList (Named Lonely))] ++ [Some (Named Query); None])
      = Ok self'
    ∧ last (items self) = Some ("Lonely", Lonely)
    ∧ head (items self') = Some ("Lonely", Lonely)
    ∧ items self ≡ₚ items self'.
Proof.
  destruct (root_order_only_orders_the_map example_heap example_to_str
              ([Some (Named Query); None] ++ [Some (GraphQLList (Named Lonely))])
              ([Some (GraphQLList (Named Lonely))] ++ [Some (Named Query); None]))
    as [_ Hitems]; [apply Permutation_app_comm|].
  eexists _, _. split_and!.
  - vm_compute; reflexivity.
  - vm_compute; reflexivity.
  - vm_compute; reflexivity.
  - vm_compute; reflexivity.
  - apply Hitems; vm_compute; reflexivity.
Defined.

(** [B] conforms to [Node], and its field [id] is of the type of [Node.id]:
    the check passes, in whatever state the schema object is. *)
Lemma identical_field_types_conform_witness :
  assert_object_implements_interface example_heap example_to_str
    example_map_asked B Node = Ok example_map_asked.
Proof.
  apply identical_field_types_conform;
    [apply example_B_conforms|apply example_B_same_field_types].
Defined.

(** The roots of the example are constructed into a type map with an empty
    cache. *)
Lemma well_formed_schemas_are_constructed_witness :
  ∃ m, new_GraphQLTypeMap example_heap example_to_str example_roots
       = Ok (before_checks example_heap m)
       ∧ registered example_heap m B
       ∧ before_checks example_heap m = example_map.
Proof.
  destruct (well_formed_schemas_are_constructed example_heap example_to_str
              example_roots) as (m & _ & Hnew & Hreach).
  - intros a Ha%example_reachable. revert a Ha. apply Forall_forall.
    by_computation.
  - intros a b Ha%example_reachable Hb%example_reachable.
    assert (Forall (λ a, Forall (λ b, name (example_heap a) = name (example_heap b)
                                      → a = b)
                           [Query; A; B; Node; U; Int; Lonely])
              [Query; A; B; Node; U; Int; Lonely]) as Hall by by_computation.
    rewrite Forall_forall in Hall. specialize (Hall a Ha).
    rewrite Forall_forall in Hall. exact (Hall b Hb).
  - intros o i Ho%example_reachable.
    assert (Forall (λ o, ∀ i, i ∈ object_interfaces example_heap o →
                           conforms example_heap example_to_str o i
                           ∧ same_field_types example_heap example_to_str o i)
              [Query; A; B; Node; U; Int; Lonely]) as Hall.
    { repeat (apply Forall_cons_2;
                [intros i' Hi; try (by apply elem_of_nil in Hi)|]);
        [|apply Forall_nil_2].
      apply list_elem_of_singleton in Hi as ->.
      split; [apply example_B_conforms|apply example_B_same_field_types]. }
    rewrite Forall_forall in Hall. exact (Hall o Ho i).
  - exists m. split_and!; [done|apply Hreach, example_reachable_B|].
    rewrite example_map_new in Hnew. by injection Hnew as <-.
Defined.

(** ** The lexer *)

Module lexer_facts.
Import lexer.

#[local] Arguments text : simpl never.
#[local] Arguments raise : simpl never.
#[local] Arguments print_char_code : simpl never.
#[local] Arguments read_digits : simpl never.
#[local] Arguments slice : simpl never.

(** *** Slices *)

Lemma slice_nil (s : str) i : slice s i i = [].
Proof. unfold slice. by rewrite Nat.sub_diag. Qed.

Lemma slice_snoc (pre rest : str) c i :
  i ≤ length pre →
  slice (pre ++ c :: rest) i (S (length pre))
  = slice (pre ++ c :: rest) i (length pre) ++ [c].
Proof.
  intros Hi. unfold slice. rewrite !drop_app_le by done.
  assert (length (drop i pre) = length pre - i) as Hd by by rewrite length_drop.
  replace (S (length pre) - i) with (length (drop i pre) + 1) by lia.
  rewrite <- Hd. by rewrite take_app_length, take_app_add' by done.
Qed.

Lemma slice_middle (pre mid post : str) :
  slice (pre ++ mid ++ post) (length pre) (length pre + length mid) = mid.
Proof.
  unfold slice. rewrite drop_app_length.
  replace (length pre + length mid - length pre) with (length mid) by lia.
  by rewrite take_app_length.
Qed.

Lemma slice_at (s pre mid post : str) i :
  s = pre ++ mid ++ post → length pre = i →
  slice s i (i + length mid) = mid.
Proof. intros -> <-. apply slice_middle. Qed.

(** *** The scanners move forward, within the text *)

Lemma position_after_whitespace_go_bounds in_comment rest position :
  position ≤ position_after_whitespace_go in_comment rest position
           ≤ position + length rest.
Proof.
  revert in_comment position.
  induction rest as [|code rest IH]; intros in_comment position; simpl; [lia|].
  repeat case_match; try lia;
    match goal with |- context [position_after_whitespace_go ?b _ _] =>
      specialize (IH b (S position)); lia
    end.
Qed.

(** *** The text that a scanner has matched is the text it has passed *)

Lemma name_chars_prefix rest : ∃ after, rest = name_chars rest ++ after.
Proof.
  induction rest as [|code rest [after IH]]; simpl; [by exists []|].
  case_match; [|by eexists]. exists after. simpl. by f_equal.
Qed.

Lemma span_digits_spec rest digits rest' :
  span_digits rest = (digits, rest') → rest = digits ++ rest'.
Proof.
  revert digits rest'.
  induction rest as [|code rest IH]; intros digits rest'; simpl.
  - by intros [= <- <-].
  - case_match; [|by intros [= <- <-]].
    destruct (span_digits rest) as [digits0 rest0]. intros [= <- <-].
    by rewrite (IH digits0 rest0).
Qed.

Lemma read_digits_spec source offset matched rest matched' rest' :
  read_digits source offset matched rest = inr (matched', rest') →
  ∃ digits, matched' = matched ++ digits ∧ digits ≠ []
            ∧ rest = digits ++ rest'.
Proof.
  unfold read_digits. destruct rest as [|code rest]; [done|].
  case_match; [|done].
  destruct (span_digits rest) as [digits rest0] eqn:Hspan.
  intros [= <- <-]. apply span_digits_spec in Hspan as ->.
  by exists (code :: digits).
Qed.

Lemma read_number_spec source rest offset token :
  read_number source rest offset = inr token →
  (kind token = INT ∨ kind token = FLOAT)
  ∧ start token = offset
  ∧ ∃ matched after,
      rest = matched ++ after ∧ matched ≠ []
      ∧ end_ token = offset + length matched
      ∧ value token = Some matched.
Proof.
  unfold read_number.
  set (sign := match rest with
               | code :: rest' =>
                   if (code =? 45)%N then ([code], rest') else ([], rest)
               | [] => ([], rest)
               end).
  assert (rest = sign.1 ++ sign.2) as Hsign.
  { subst sign. destruct rest as [|code rest']; simpl; [done|].
    by case_match. }
  destruct sign as [matched1 rest1]. simpl in Hsign.
  match goal with |- context [mbind _ ?m] =>
    destruct m as [e|[matched2 rest2]] eqn:Hint end; simpl; [done|].
  assert (∃ digits, matched2 = matched1 ++ digits ∧ digits ≠ []
                    ∧ rest1 = digits ++ rest2) as (digits2 & -> & Hne & ->).
  { destruct rest1 as [|code rest1']; [by apply read_digits_spec in Hint|].
    destruct (code =? 48)%N; [|by apply read_digits_spec in Hint].
    destruct rest1' as [|code' rest1'']; simplify_eq/=; [by exists [code]|].
    destruct (is_digit code'); simplify_eq/=. by exists [code]. }
  clear Hint.
  match goal with |- context [mbind _ ?m] =>
    destruct m as [e|[[matched3 rest3] is_float3]] eqn:Hfrac end;
    simpl; [done|].
  assert (∃ more, matched3 = (matched1 ++ digits2) ++ more
                  ∧ rest2 = more ++ rest3) as (more3 & -> & ->).
  { destruct rest2 as [|code rest2']; simplify_eq/=;
      [exists []; by rewrite app_nil_r|].
    destruct (code =? 46)%N; simplify_eq/=;
      [|exists []; by rewrite app_nil_r].
    destruct (read_digits source offset ((matched1 ++ digits2) ++ [code]) rest2')
      as [e|[m r]] eqn:Hd; simplify_eq/=.
    apply read_digits_spec in Hd as (digits & -> & _ & ->).
    exists (code :: digits). by rewrite <- !app_assoc. }
  clear Hfrac.
  match goal with |- context [mbind _ ?m] =>
    destruct m as [e|[[matched4 rest4] is_float4]] eqn:Hexp end;
    simpl; [done|].
  assert (∃ more, matched4 = ((matched1 ++ digits2) ++ more3) ++ more
                  ∧ rest3 = more ++ rest4) as (more4 & -> & ->).
  { destruct rest3 as [|code rest3']; simplify_eq/=;
      [exists []; by rewrite app_nil_r|].
    destruct (_ || _)%N; simplify_eq/=; [|exists []; by rewrite app_nil_r].
    destruct rest3' as [|sign' rest3'']; simpl in Hexp.
    + done.
    + destruct (_ || _)%N;
        match type of Hexp with context [read_digits _ _ ?m ?r] =>
          destruct (read_digits source offset m r) as [e|[m' r']] eqn:Hd
        end; simplify_eq/=;
        apply read_digits_spec in Hd as (digits & -> & _ & ->);
        [exists (code :: sign' :: digits)|exists (code :: digits)];
        by rewrite <- !app_assoc. }
  clear Hexp. intros [= <-]. simpl. split_and!; try done.
  - destruct is_float4; auto.
  - exists (((matched1 ++ digits2) ++ more3) ++ more4), rest4.
    split_and!; try done.
    + by rewrite <- !app_assoc.
    + destruct matched1, digits2; done.
Qed.

(** *** The two readings of escapes agree *)

Lemma escaped_char_lookup code :
  escaped_char code = lookup_code simple_escapes code.
Proof.
  unfold escaped_char, simple_escapes, lookup_code.
  rewrite !(N.eqb_sym _ code).
  repeat match goal with
  | |- context [(code =? ?k)%N] =>
      destruct (N.eqb_spec code k) as [->|?]; [done|]
  end.
  done.
Qed.

Lemma small_code (P : N → Prop) (bound : nat) code :
  Forall (λ n, P (N.of_nat n)) (seq 0 bound) →
  (code < N.of_nat bound)%N → P code.
Proof.
  rewrite Forall_forall. intros Hall Hcode.
  rewrite <- (N2Nat.id code). apply Hall, elem_of_seq. lia.
Qed.

Lemma index_from_absent (s : str) code : ∀ i,
  Forall (λ c, (c < code)%N) s → index_from i s code = None.
Proof.
  induction s as [|c s IH]; intros i Hall; simpl; [done|].
  apply Forall_cons in Hall as [Hc Hall].
  rewrite (proj2 (N.eqb_neq c code)) by lia. by apply IH.
Qed.

Lemma char2hex_value code : char2hex code = hex_value code.
Proof.
  destruct (N.ltb_spec code 128) as [Hsmall|Hlarge].
  - apply (small_code (λ code, char2hex code = hex_value code) 128);
      [|done].
    apply (bool_decide_unpack _). vm_compute. exact I.
  - assert (char2hex code = None) as ->.
    { unfold char2hex, is_digit.
      repeat match goal with
      | |- context [(?a <=? ?b)%N] =>
          first [rewrite (proj2 (N.leb_gt a b)) by lia
                |rewrite (proj2 (N.leb_le a b)) by lia]
      end.
      done. }
    assert (∀ s : str, Forall (λ c, (c < 128)%N) s →
                       index_from 0 s code = None) as Habsent.
    { intros s Hs. apply index_from_absent.
      eapply Forall_impl; [done|]. intros c Hc. simpl in Hc. lia. }
    unfold hex_value.
    by rewrite !Habsent by (apply (bool_decide_unpack _); vm_compute; exact I).
Qed.

Lemma uni_char_code_number a b c d :
  uni_char_code a b c d = hex_number [a; b; c; d].
Proof.
  unfold uni_char_code, hex_number. cbn [foldl]. rewrite !char2hex_value.
  destruct (hex_value a) as [va|]; simpl; [|done].
  destruct (hex_value b) as [vb|]; simpl; [|by destruct (hex_value c), (hex_value d)].
  destruct (hex_value c) as [vc|]; simpl; [|by destruct (hex_value d)].
  destruct (hex_value d) as [vd|]; simpl; [|done].
  f_equal. lia.
Qed.

(** *** Strings *)

Lemma read_string_go_spec (n : nat) :
  ∀ source offset rest pre position chunk_start decoded token,
  length rest ≤ n →
  body source = pre ++ rest → length pre = position → chunk_start ≤ position →
  read_string_go source offset rest position chunk_start decoded = inr token →
  ∃ raw after unescaped,
    rest = raw ++ 34%N :: after
    ∧ unescape raw = Some unescaped
    ∧ kind token = STRING ∧ start token = offset
    ∧ end_ token = position + length raw + 1
    ∧ value token
      = Some (decoded ++ slice (body source) chunk_start position ++ unescaped).
Proof.
  induction n as [|n IH];
    intros source offset rest pre position chunk_start decoded token
      Hn Hbody Hpre Hchunk;
    destruct rest as [|code rest]; simpl in Hn; try done; try lia.
  simpl. destruct (code =? 34)%N eqn:Hquote.
  { apply N.eqb_eq in Hquote as ->. intros [= <-].
    exists [], rest, []. simpl. rewrite app_nil_r. split_and!; try done. lia. }
  destruct (_ || _)%N; [done|]. destruct (_ && _)%N; [done|].
  destruct (code =? 92)%N eqn:Hbackslash.
  - apply N.eqb_eq in Hbackslash as ->.
    destruct rest as [|code rest]; [done|].
    destruct (escaped_char code) as [escaped|] eqn:Hescaped.
    + intros Hgo.
      apply (IH source offset rest (pre ++ [92%N; code])) in Hgo
        as (raw & after & unescaped & -> & Hraw & ? & ? & Hend & Hvalue).
      * exists (92%N :: code :: raw), after, (escaped :: unescaped).
        split_and!; try done.
        -- cbn [unescape]. change (92 =? 92)%N with true. cbv iota.
           by rewrite <- escaped_char_lookup, Hescaped, Hraw.
        -- rewrite Hend. simpl. lia.
        -- rewrite Hvalue, slice_nil. simpl. by rewrite <- !app_assoc.
      * simpl in Hn. lia.
      * by rewrite <- app_assoc.
      * rewrite length_app. simpl. lia.
      * done.
    + destruct (code =? 117)%N eqn:Hu; [|done].
      destruct rest as [|a [|b [|c [|d rest]]]]; try done.
      destruct (uni_char_code a b c d) as [char_code|] eqn:Hcode; [|done].
      intros Hgo.
      apply (IH source offset rest (pre ++ [92%N; code; a; b; c; d])) in Hgo
        as (raw & after & unescaped & -> & Hraw & ? & ? & Hend & Hvalue).
      * exists (92%N :: code :: a :: b :: c :: d :: raw), after,
          (char_code :: unescaped).
        split_and!; try done.
        -- cbn [unescape]. change (92 =? 92)%N with true. cbv iota.
           rewrite <- escaped_char_lookup, Hescaped, Hu.
           by rewrite <- uni_char_code_number, Hcode, Hraw.
        -- rewrite Hend. simpl. lia.
        -- rewrite Hvalue, slice_nil. simpl. by rewrite <- !app_assoc.
      * simpl in Hn. lia.
      * by rewrite <- app_assoc.
      * rewrite length_app. simpl. lia.
      * done.
  - intros Hgo.
    apply (IH source offset rest (pre ++ [code])) in Hgo
      as (raw & after & unescaped & -> & Hraw & ? & ? & Hend & Hvalue).
    + exists (code :: raw), after, (code :: unescaped).
      simpl. rewrite Hbackslash, Hraw. simpl. split_and!; try done.
      * rewrite Hend. lia.
      * rewrite Hvalue. subst position.
        rewrite Hbody, slice_snoc by done. by rewrite <- !app_assoc.
    + lia.
    + by rewrite <- app_assoc.
    + rewrite length_app. simpl. lia.
    + lia.
Qed.

Lemma escape_decode_quoted raw :
  escape_decode (34%N :: raw ++ [34%N]) = unescape raw.
Proof.
  unfold escape_decode. simpl. rewrite reverse_app. simpl.
  by rewrite reverse_involutive.
Qed.

Lemma read_string_spec source pre rest token :
  body source = pre ++ 34%N :: rest →
  read_string source rest (length pre) = inr token →
  kind token = STRING ∧ start token = length pre
  ∧ length pre < end_ token ≤ length (body source)
  ∧ ∃ decoded,
      value token = Some decoded
      ∧ escape_decode (slice (body source) (start token) (end_ token))
        = Some decoded.
Proof.
  intros Hbody Hread. unfold read_string in Hread.
  apply (read_string_go_spec (length rest) _ _ _ (pre ++ [34%N])) in Hread
    as (raw & after & unescaped & -> & Hraw & ? & Hstart & Hend & Hvalue);
    [|done|by rewrite <- app_assoc|rewrite length_app; simpl; lia|done].
  rewrite slice_nil in Hvalue. simpl in Hvalue.
  split_and!; try done; try lia.
  - rewrite Hbody, Hend, !length_app. simpl. rewrite length_app. simpl. lia.
  - exists unescaped. split; [done|].
    rewrite Hstart, Hend, Hbody.
    replace (S (length pre) + length raw + 1)
      with (length pre + length (34%N :: raw ++ [34%N]))
      by (simpl; rewrite length_app; simpl; lia).
    change (pre ++ 34%N :: raw ++ 34%N :: after)
      with (pre ++ (34%N :: raw ++ [34%N] ++ after)).
    replace (34%N :: raw ++ [34%N] ++ after)
      with ((34%N :: raw ++ [34%N]) ++ after)
      by (simpl; by rewrite <- app_assoc).
    by rewrite slice_middle, escape_decode_quoted.
Qed.

(** *** One token *)

Ltac other_kind :=
  split_and!;
  [ intros [?|[?|?]]; congruence
  | intros ?; congruence
  | intros [[?|[?|?]]|?]; congruence ].

Lemma punctuator_kind code kind :
  punctuator code = Some kind →
  kind ≠ NAME ∧ kind ≠ INT ∧ kind ≠ FLOAT ∧ kind ≠ STRING.
Proof.
  unfold punctuator. intros Hkind.
  repeat case_match; simplify_eq; done.
Qed.

Lemma read_token_spec source from_position token :
  read_token source from_position = inr token →
  (has_literal_value token →
     value token = Some (slice (body source) (start token) (end_ token)))
  ∧ (kind token = STRING →
       ∃ decoded,
         value token = Some decoded
         ∧ escape_decode (slice (body source) (start token) (end_ token))
           = Some decoded)
  ∧ (has_literal_value token ∨ kind token = STRING →
       from_position ≤ start token ∧ start token < end_ token
       ∧ end_ token ≤ length (body source)).
Proof.
  unfold read_token, has_literal_value.
  pose proof (position_after_whitespace_go_bounds false
                (drop from_position (body source)) from_position) as Hskip.
  fold (position_after_whitespace (body source) from_position) in Hskip.
  set (position := position_after_whitespace (body source) from_position) in *.
  destruct (drop position (body source)) as [|code rest] eqn:Hrest.
  { intros [= <-]. simpl. other_kind. }
  assert (body source = take position (body source) ++ code :: rest) as Hbody.
  { by rewrite <- Hrest, take_drop. }
  assert (position + length (code :: rest) = length (body source)) as Hlen.
  { rewrite <- Hrest, length_drop.
    assert (position < length (body source)); [|lia].
    apply Nat.nle_gt. intros Hge. by rewrite drop_ge in Hrest. }
  assert (length (take position (body source)) = position) as Hpre.
  { rewrite length_take. simpl in Hlen. lia. }
  destruct (_ && _)%N; [done|].
  destruct (punctuator code) as [kind|] eqn:Hpunctuator.
  { apply punctuator_kind in Hpunctuator as (? & ? & ? & ?).
    intros [= <-]. simpl. other_kind. }
  destruct (code =? 46)%N.
  { destruct rest as [|c1 [|c2 rest]]; try done.
    destruct (_ && _)%N; [|done]. intros [= <-]. simpl. other_kind. }
  destruct (is_name_start code) eqn:Hname.
  { intros [= <-]. cbn [kind start end_ value read_name].
    destruct (name_chars_prefix (code :: rest)) as [after Hmatched].
    assert (name_chars (code :: rest) ≠ []) as Hne.
    { simpl. unfold is_name_continue. by rewrite Hname. }
    rewrite Hmatched in Hbody, Hlen.
    split_and!; [|done|].
    - intros _. f_equal. symmetry. by eapply slice_at.
    - intros _. rewrite length_app in Hlen.
      destruct (name_chars (code :: rest)); [done|]. simpl in *. lia. }
  destruct (_ || _)%N.
  { intros (Hkind & Hstart & matched & after & Hmatched & Hne & Hend & Hvalue)
      %read_number_spec.
    rewrite Hmatched in Hbody, Hlen. rewrite Hstart, Hend, Hvalue.
    split_and!.
    - intros _. f_equal. symmetry. by eapply slice_at.
    - intros Hstring. destruct Hkind; congruence.
    - intros _. rewrite length_app in Hlen.
      destruct matched; [done|]. simpl in *. lia. }
  destruct (code =? 34)%N eqn:Hquote; [|done].
  apply N.eqb_eq in Hquote as ->. rewrite <- Hpre at 1.
  intros (Hkind & Hstart & Hend & Hvalue)%read_string_spec; [|done].
  split_and!; [|done|lia].
  intros [?|[?|?]]; congruence.
Qed.
End lexer_facts.

Module lexer_errors.
Import lexer lexer_facts.

#[local] Arguments text : simpl never.
#[local] Arguments print_char_code : simpl never.
#[local] Arguments syntax_error : simpl never.
#[local] Arguments slice : simpl never.
#[local] Arguments Nat.div : simpl never.
#[local] Arguments Nat.modulo : simpl never.

(** *** Every error is a rendered syntax error *)








(** *** Decimal numbers grow in length with the number *)





(** *** Locations *)

Lemma split_lines_go_length s : ∀ current current',
  length (split_lines_go s current) = length (split_lines_go s current').
Proof.
  induction s as [|c s IH]; intros current current'; simpl; [done|].
  repeat case_match; simpl; try done; apply IH.
Qed.



End lexer_errors.

Module lexer_theorems.
Import lexer lexer_facts lexer_errors.

#[local] Arguments text : simpl never.
#[local] Arguments print_char_code : simpl never.
#[local] Arguments slice : simpl never.

(** C5 (against the lexer as the specification describes it).  Whatever
    token [next_token] produces, from whatever offset: the value of a NAME,
    INT or FLOAT token is the text of the source between the token's start
    and end; the value of a STRING token is what escape-decoding that text
    gives.  Such a token is not empty and lies within the source, and the
    lexer moves to its end. *)
Theorem token_value_round_trip self token self' :
  next_token self = inr (token, self') →
  let literal := slice (body (source self)) (start token) (end_ token) in
  (has_literal_value token → value token = Some literal)
  ∧ (kind token = STRING →
       ∃ decoded, value token = Some decoded
                  ∧ escape_decode literal = Some decoded)
  ∧ (has_literal_value token ∨ kind token = STRING →
       prev_position self ≤ start token ∧ start token < end_ token
       ∧ end_ token ≤ length (body (source self)))
  ∧ prev_position self' = end_ token.
Proof.
  unfold next_token.
  destruct (read_token (source self) (prev_position self)) as [e|token'] eqn:Hread;
    simpl; [done|].
  intros [= -> <-]. apply read_token_spec in Hread as (Hliteral & Hstring & Hrange).
  by split_and!.
Qed.



Lemma occurs_in_here (sub post : str) : occurs_in sub (sub ++ post).
Proof. by exists [], post. Qed.

Lemma occurs_in_app_r (sub s pre : str) :
  occurs_in sub s → occurs_in sub (pre ++ s).
Proof.
  intros (pre' & post & ->). exists (pre ++ pre'), post.
  by rewrite <- app_assoc.
Qed.

Lemma description_occurs source offset description :
  occurs_in description (message (syntax_error source offset description)).
Proof.
  unfold syntax_error. destruct (get_location source offset) as [l c].
  cbn [message]. do 7 apply occurs_in_app_r. apply occurs_in_here.
Qed.

Lemma is_digit_printable digit :
  is_digit digit = true →
  print_char_code (Some digit) = [34%N; digit; 34%N].
Proof.
  unfold is_digit, print_char_code. intros [H1 H2]%andb_prop.
  apply N.leb_le in H1, H2.
  rewrite (proj2 (N.leb_le 32 digit)), (proj2 (N.ltb_lt digit 127)) by lia.
  done.
Qed.

Lemma is_digit_dispatch digit :
  is_digit digit = true →
  is_ignored digit = false ∧ (digit =? 35)%N = false
  ∧ (digit <? 32)%N = false ∧ punctuator digit = None
  ∧ (digit =? 46)%N = false ∧ is_name_start digit = false
  ∧ (digit =? 45)%N = false.
Proof.
  unfold is_digit, is_ignored, punctuator, is_name_start, TAB, SPACE, LF, CR.
  intros [H1 H2]%andb_prop. apply N.leb_le in H1, H2.
  repeat match goal with
  | |- context [(?a =? ?b)%N] =>
      rewrite (proj2 (N.eqb_neq a b)) by lia
  | |- context [(?a <? ?b)%N] =>
      rewrite (proj2 (N.ltb_ge a b)) by lia
  | |- context [(?a <=? ?b)%N] =>
      first [rewrite (proj2 (N.leb_gt a b)) by lia
            |rewrite (proj2 (N.leb_le a b)) by lia]
  end.
  done.
Qed.

(** C7 (against the lexer as the specification describes it).  An input
    that starts with [0] and a further digit is rejected at line 1, column
    2, with a message that says "Invalid number, unexpected digit after 0: "
    and names that digit between double quotes; for the input [00] the
    message contains the text the test-suite looks for. *)
Theorem digit_after_leading_zero_is_rejected :
  (∀ digit rest,
     is_digit digit = true →
     ∃ e, lex_one ([48%N; digit] ++ rest) = inl e
          ∧ line e = 1 ∧ column e = 2
          ∧ occurs_in
              (text "Invalid number, unexpected digit after 0: "
                 ++ dq ++ [digit] ++ dq ++ text ".")
              (message e))
  ∧ (∃ e, lex_one (text "00") = inl e
          ∧ line e = 1 ∧ column e = 2
          ∧ occurs_in leading_zero_test_message (message e)).
Proof.
  split.
  - intros digit rest Hdigit.
    pose proof (is_digit_dispatch digit Hdigit)
      as (Hignored & Hhash & Hcontrol & Hpunctuator & Hdot & Hname & Hminus).
    eexists. split_and!.
    + unfold lex_one, next_token, new_Lexer, new_Source, read_token,
        position_after_whitespace, read_number.
      cbn -[text print_char_code syntax_error]. rewrite Hdigit.
      unfold raise. reflexivity.
    + reflexivity.
    + reflexivity.
    + replace (dq ++ [digit] ++ dq ++ text ".")
        with (print_char_code (Some digit) ++ text ".")
        by by rewrite is_digit_printable.
      apply description_occurs.
  - eexists. split_and!; [vm_compute; reflexivity|done|done|].
    exists [], ([LF; LF] ++ text "1: 00" ++ [LF] ++ text "    ^" ++ [LF]).
    by vm_compute.
Qed.

(** *** The theorems on the texts of the test-suite *)

(** The strings with escapes of [test_lexes_strings]: a STRING token over
    the whole literal, whose value is the decoded text; a number of
    [test_lexes_numbers] and the name behind a byte order mark
    (test_lexer.py:32): tokens whose value is the text they span. *)
Lemma token_value_round_trip_witness :
  (∃ token,
     lex_one quote_test_source = inr token
     ∧ kind token = STRING ∧ start token = 0 ∧ end_ token = 10
     ∧ value token = Some quote_test_value
     ∧ escape_decode (slice quote_test_source 0 10) = Some quote_test_value)
  ∧ (∃ token,
     lex_one escaped_test_source = inr token
     ∧ kind token = STRING ∧ start token = 0 ∧ end_ token = 20
     ∧ value token = Some escaped_test_value
     ∧ escape_decode (slice escaped_test_source 0 20) = Some escaped_test_value)
  ∧ (∃ token,
     lex_one slashes_test_source = inr token
     ∧ kind token = STRING ∧ start token = 0 ∧ end_ token = 15
     ∧ value token = Some slashes_test_value
     ∧ escape_decode (slice slashes_test_source 0 15) = Some slashes_test_value)
  ∧ (∃ token,
     lex_one unicode_test_source = inr token
     ∧ kind token = STRING ∧ start token = 0 ∧ end_ token = 34
     ∧ value token = Some unicode_test_value
     ∧ escape_decode (slice unicode_test_source 0 34) = Some unicode_test_value)
  ∧ (∃ token,
       lex_one (text "-1.123e+4") = inr token
       ∧ kind token = FLOAT ∧ start token = 0 ∧ end_ token = 9
       ∧ value token = Some (text "-1.123e+4")
       ∧ value token = Some (slice (text "-1.123e+4") 0 9))
  ∧ (∃ token,
       lex_one ([65279%N] ++ text " foo") = inr token
       ∧ kind token = NAME ∧ start token = 2 ∧ end_ token = 5
       ∧ value token = Some (text "foo")
       ∧ value token = Some (slice ([65279%N] ++ text " foo") 2 5)).
Proof.
  split_and!.
  - assert (next_token (new_Lexer (new_Source quote_test_source))
            = inr ({| kind := STRING; start := 0; end_ := 10;
                      value := Some quote_test_value |},
                   {| source := new_Source quote_test_source;
                      prev_position := 10 |})) as Hnext
      by (vm_compute; reflexivity).
    destruct (token_value_round_trip _ _ _ Hnext) as (_ & Hstring & _).
    destruct (Hstring eq_refl) as (decoded & [= <-] & Hdecode).
    eexists. split; [vm_compute; reflexivity|]. by split_and!.
  - assert (next_token (new_Lexer (new_Source escaped_test_source))
            = inr ({| kind := STRING; start := 0; end_ := 20;
                      value := Some escaped_test_value |},
                   {| source := new_Source escaped_test_source;
                      prev_position := 20 |})) as Hnext
      by (vm_compute; reflexivity).
    destruct (token_value_round_trip _ _ _ Hnext) as (_ & Hstring & _).
    destruct (Hstring eq_refl) as (decoded & [= <-] & Hdecode).
    eexists. split; [vm_compute; reflexivity|]. by split_and!.
  - assert (next_token (new_Lexer (new_Source slashes_test_source))
            = inr ({| kind := STRING; start := 0; end_ := 15;
                      value := Some slashes_test_value |},
                   {| source := new_Source slashes_test_source;
                      prev_position := 15 |})) as Hnext
      by (vm_compute; reflexivity).
    destruct (token_value_round_trip _ _ _ Hnext) as (_ & Hstring & _).
    destruct (Hstring eq_refl) as (decoded & [= <-] & Hdecode).
    eexists. split; [vm_compute; reflexivity|]. by split_and!.
  - assert (next_token (new_Lexer (new_Source unicode_test_source))
            = inr ({| kind := STRING; start := 0; end_ := 34;
                      value := Some unicode_test_value |},
                   {| source := new_Source unicode_test_source;
                      prev_position := 34 |})) as Hnext
      by (vm_compute; reflexivity).
    destruct (token_value_round_trip _ _ _ Hnext) as (_ & Hstring & _).
    destruct (Hstring eq_refl) as (decoded & [= <-] & Hdecode).
    eexists. split; [vm_compute; reflexivity|]. by split_and!.
  - assert (next_token (new_Lexer (new_Source (text "-1.123e+4")))
            = inr ({| kind := FLOAT; start := 0; end_ := 9;
                      value := Some (text "-1.123e+4") |},
                   {| source := new_Source (text "-1.123e+4");
                      prev_position := 9 |})) as Hnext
      by (vm_compute; reflexivity).
    destruct (token_value_round_trip _ _ _ Hnext) as (Hliteral & _).
    eexists. split; [vm_compute; reflexivity|].
    split_and!; [done|done|done|done|]. apply Hliteral. right. by right.
  - assert (next_token (new_Lexer (new_Source ([65279%N] ++ text " foo")))
            = inr ({| kind := NAME; start := 2; end_ := 5;
                      value := Some (text "foo") |},
                   {| source := new_Source ([65279%N] ++ text " foo");
                      prev_position := 5 |})) as Hnext
      by (vm_compute; reflexivity).
    destruct (token_value_round_trip _ _ _ Hnext) as (Hliteral & _).
    eexists. split; [vm_compute; reflexivity|].
    split_and!; [done|done|done|done|]. apply Hliteral. by left.
Defined.


(** [091]: the digit named is [9]. *)
Lemma digit_after_leading_zero_witness :
  ∃ e, lex_one (text "091") = inl e
       ∧ line e = 1 ∧ column e = 2
       ∧ occurs_in
           (text "Invalid number, unexpected digit after 0: "
              ++ dq ++ text "9" ++ dq ++ text ".")
           (message e).
Proof.
  destruct digit_after_leading_zero_is_rejected as [Hgeneral _].
  apply (Hgeneral 57%N (text "1")). reflexivity.
Defined.
End lexer_theorems.

(** ** The rule of unique fragment names *)

Module unique_fragment_names_theorems.
Import unique_fragment_names.

Lemma enter_fragment_definition_Ok self node :
  enter_fragment_definition self node
  = Ok (SKIP,
        match known_fragment_names self !! value (name node) with
        | Some first =>
            report_error self
              {| message := duplicate_fragment_name_message (value (name node));
                 nodes := [first; name node] |}
        | None =>
            {| reported := reported self;
               known_fragment_names :=
                 <[value (name node) := name node]> (known_fragment_names self) |}
        end).
Proof.
  unfold enter_fragment_definition, getitem.
  destruct (known_fragment_names self !! value (name node)) as [first|] eqn:Hknown.
  - by rewrite bool_decide_eq_true_2 by eauto.
  - rewrite bool_decide_eq_false_2; [done|]. by intros [? ?].
Qed.

Lemma first_definition_app entered definition fragment_name :
  first_definition (entered ++ [definition]) fragment_name
  = match first_definition entered fragment_name with
    | Some first => Some first
    | None => first_definition [definition] fragment_name
    end.
Proof.
  induction entered as [|[|node] entered IH]; simpl; [done|done|].
  by case_decide.
Qed.

Lemma visit_from entered definitions : ∀ self,
  tracks entered self →
  ∃ self', visit self definitions = Ok self'
           ∧ tracks (entered ++ definitions) self'
           ∧ reported self'
             = reported self ++ duplicate_errors entered definitions.
Proof.
  revert entered.
  induction definitions as [|definition definitions IH]; intros entered self Htracks.
  - exists self. rewrite !app_nil_r. by split_and!.
  - unfold visit. simpl. fold (visit).
    destruct definition as [|node]; simpl.
    + destruct (IH (entered ++ [OperationDefinition]) self) as (self' & Hvisit & Htracks' & Hreported).
      { intros n. by rewrite first_definition_app, Htracks; destruct (first_definition entered n). }
      exists self'. rewrite <- app_assoc in Htracks'. by split_and!.
    + rewrite enter_fragment_definition_Ok. simpl.
      rewrite (Htracks (value (name node))).
      match goal with |- context [foldM _ ?s _] => set (self1 := s) end.
      destruct (IH (entered ++ [FragmentDefinition node]) self1)
        as (self' & Hvisit & Htracks' & Hreported).
      { intros n. rewrite first_definition_app. subst self1.
        destruct (first_definition entered (value (name node))) as [first|] eqn:Hfirst;
          simpl.
        - rewrite Htracks. destruct (first_definition entered n) eqn:Hn; [done|].
          case_decide; [congruence|done].
        - destruct (decide (value (name node) = n)) as [<-|Hne].
          + by rewrite lookup_insert_eq, Hfirst.
          + rewrite lookup_insert_ne, Htracks by done.
            by destruct (first_definition entered n). }
      exists self'. rewrite <- app_assoc in Htracks'. split_and!; [done|done|].
      rewrite Hreported. subst self1.
      destruct (first_definition entered (value (name node))); simpl; [|done].
      by rewrite <- app_assoc.
Qed.

(** C10.  Entering a fragment definition never raises and returns SKIP, as
    entering an operation definition does.  When the name is known, one
    error is reported, whose message is that of the duplicate name and whose
    nodes are the recorded name node and the name node of the definition at
    hand, in that order, and the record is left as it was; otherwise the
    name node is recorded and nothing is reported.  Hence, over any run of
    definitions from a fresh rule, the record of a name is the name node of
    its first definition, and every later definition of the name is reported
    paired with that first one. *)
Theorem duplicates_are_paired_with_the_first_definition :
  (∀ self, enter_operation_definition self = Ok (SKIP, self))
  ∧ (∀ self node,
       ∃ self', enter_fragment_definition self node = Ok (SKIP, self')
         ∧ match known_fragment_names self !! value (name node) with
           | Some first =>
               known_fragment_names self' = known_fragment_names self
               ∧ reported self'
                 = reported self
                     ++ [{| message :=
                              duplicate_fragment_name_message (value (name node));
                            nodes := [first; name node] |}]
           | None =>
               known_fragment_names self'
               = <[value (name node) := name node]> (known_fragment_names self)
               ∧ reported self' = reported self
           end)
  ∧ (∀ definitions,
       ∃ self', visit __init__ definitions = Ok self'
         ∧ (∀ fragment_name,
              known_fragment_names self' !! fragment_name
              = first_definition definitions fragment_name)
         ∧ reported self' = duplicate_errors [] definitions).
Proof.
  split_and!.
  - done.
  - intros self node. eexists. split; [apply enter_fragment_definition_Ok|].
    by destruct (known_fragment_names self !! value (name node)).
  - intros definitions.
    destruct (visit_from [] definitions __init__) as (self' & ? & ? & ?); [done|].
    by exists self'.
Qed.

(** Three definitions of a fragment [f], with an operation and a fragment
    [g] between them: the second and the third are each reported with the
    first. *)
Lemma duplicates_witness :
  ∃ self',
    visit __init__
      [FragmentDefinition (fragment "f" 1); OperationDefinition;
       FragmentDefinition (fragment "f" 2); FragmentDefinition (fragment "g" 3);
       FragmentDefinition (fragment "f" 4)] = Ok self'
    ∧ reported self'
      = [{| message := "There can only be one fragment named 'f'.";
            nodes := [name (fragment "f" 1); name (fragment "f" 2)] |};
         {| message := "There can only be one fragment named 'f'.";
            nodes := [name (fragment "f" 1); name (fragment "f" 4)] |}]
    ∧ known_fragment_names self' !! "f" = Some (name (fragment "f" 1)).
Proof.
  destruct duplicates_are_paired_with_the_first_definition as (_ & _ & Hvisit).
  destruct (Hvisit
    [FragmentDefinition (fragment "f" 1); OperationDefinition;
     FragmentDefinition (fragment "f" 2); FragmentDefinition (fragment "g" 3);
     FragmentDefinition (fragment "f" 4)]) as (self' & Hrun & Hknown & Hreported).
  exists self'. split_and!; [done| |].
  - rewrite Hreported. vm_compute. reflexivity.
  - rewrite Hknown. vm_compute. reflexivity.
Defined.
End unique_fragment_names_theorems.

Module unique_fragment_names_counts.
Import unique_fragment_names unique_fragment_names_theorems.

Lemma fragment_names_app definitions1 definitions2 :
  fragment_names (definitions1 ++ definitions2)
  = fragment_names definitions1 ++ fragment_names definitions2.
Proof. unfold fragment_names. by rewrite bind_app. Qed.

Lemma first_definition_None definitions fragment_name :
  first_definition definitions fragment_name = None
  ↔ fragment_name ∉ fragment_names definitions.
Proof.
  induction definitions as [|[|node] definitions IH]; simpl.
  - split; [intros _; apply not_elem_of_nil|done].
  - done.
  - change (fragment_names (FragmentDefinition node :: definitions))
      with (value (name node) :: fragment_names definitions).
    rewrite not_elem_of_cons. case_decide; subst.
    + split; [done|]. by intros [? _].
    + rewrite IH. naive_solver.
Qed.

Lemma first_definition_app_l definitions1 definitions2 fragment_name :
  first_definition (definitions1 ++ definitions2) fragment_name
  = match first_definition definitions1 fragment_name with
    | Some first => Some first
    | None => first_definition definitions2 fragment_name
    end.
Proof.
  induction definitions1 as [|[|node] definitions1 IH]; simpl; [done|done|].
  by case_decide.
Qed.

Lemma first_definition_value definitions fragment_name first :
  first_definition definitions fragment_name = Some first →
  value first = fragment_name.
Proof.
  induction definitions as [|[|node] definitions IH]; simpl; [done|done|].
  case_decide; [|done]. by intros [= <-].
Qed.

Lemma duplicate_errors_nil definitions : ∀ entered,
  duplicate_errors entered definitions = []
  ↔ NoDup (fragment_names definitions)
    ∧ ∀ fragment_name, fragment_name ∈ fragment_names definitions →
                       fragment_name ∉ fragment_names entered.
Proof.
  induction definitions as [|[|node] definitions IH]; intros entered.
  - simpl. split; [|done]. intros _. split; [constructor|].
    intros ? Hin. by apply elem_of_nil in Hin.
  - change (duplicate_errors entered (OperationDefinition :: definitions))
      with (duplicate_errors (entered ++ [OperationDefinition]) definitions).
    change (fragment_names (OperationDefinition :: definitions))
      with (fragment_names definitions).
    rewrite IH, fragment_names_app.
    change (fragment_names [OperationDefinition]) with (@nil string).
    by rewrite app_nil_r.
  - change (fragment_names (FragmentDefinition node :: definitions))
      with (value (name node) :: fragment_names definitions).
    cbn [duplicate_errors]. rewrite NoDup_cons.
    destruct (first_definition entered (value (name node))) as [first|] eqn:Hfirst.
    + split; [done|]. intros [_ Hfresh].
      assert (first_definition entered (value (name node)) = None) as Hnone.
      { apply first_definition_None, Hfresh. left. }
      congruence.
    + apply first_definition_None in Hfirst.
      change ([] ++ ?l) with l. rewrite IH, fragment_names_app.
      change (fragment_names [FragmentDefinition node]) with [value (name node)].
      split.
      * intros [Hnodup Hall]. split_and!; [|done|].
        -- intros Hin. apply (Hall _ Hin), elem_of_app. right. left.
        -- intros fragment_name [->|Hin]%elem_of_cons; [done|].
           intros Hentered. apply (Hall _ Hin), elem_of_app. by left.
      * intros [[Hnew Hnodup] Hall]. split; [done|].
        intros fragment_name Hin [Hentered|Hhere]%elem_of_app.
        -- apply (Hall fragment_name); [by right|done].
        -- by apply list_elem_of_singleton in Hhere as ->.
Qed.

Lemma elem_of_duplicate_errors definitions : ∀ entered error,
  error ∈ duplicate_errors entered definitions →
  ∃ before node after first,
    definitions = before ++ FragmentDefinition node :: after
    ∧ first_definition (entered ++ before) (value (name node)) = Some first
    ∧ error = {| message := duplicate_fragment_name_message (value (name node));
                 nodes := [first; name node] |}.
Proof.
  induction definitions as [|definition definitions IH]; intros entered error.
  - intros Hin. by apply elem_of_nil in Hin.
  - cbn [duplicate_errors]. intros [Hhere|Hlater]%elem_of_app.
    + destruct definition as [|node]; [by apply elem_of_nil in Hhere|].
      destruct (first_definition entered (value (name node))) as [first|] eqn:Hfirst;
        [|by apply elem_of_nil in Hhere].
      apply list_elem_of_singleton in Hhere as ->.
      exists [], node, definitions, first. by rewrite app_nil_r.
    + apply IH in Hlater as (before & node & after & first & -> & Hfirst & ->).
      exists (definition :: before), node, after, first.
      rewrite <- app_assoc in Hfirst. by split_and!.
Qed.

(** X16.  From a fresh rule, visiting a list of definitions reports no
    error exactly when no two fragment definitions of the list have the
    same name. *)
Theorem distinct_fragment_names_report_nothing definitions :
  ∃ self', visit __init__ definitions = Ok self'
    ∧ (reported self' = [] ↔ NoDup (fragment_names definitions)).
Proof.
  destruct (visit_from [] definitions __init__) as (self' & Hvisit & _ & Hreported);
    [done|].
  exists self'. split; [done|]. rewrite Hreported. simpl.
  rewrite duplicate_errors_nil. split; [by intros [? _]|].
  intros Hnodup. split; [done|]. intros ? _. apply not_elem_of_nil.
Qed.

(** X17.  From any state of the rule, visiting a list of definitions
    never raises, and each fragment definition of the list is either
    recorded as the first of its name or reported, never both and never
    neither: the number of errors and the number of recorded names grow
    together by the number of fragment definitions.  The errors reported
    before stay, in place, at the head of the list of errors, and every
    recorded name keeps its node. *)
Theorem every_fragment_is_recorded_or_reported definitions : ∀ self,
  ∃ self', visit self definitions = Ok self'
    ∧ length (reported self') + size (known_fragment_names self')
      = length (reported self) + size (known_fragment_names self)
        + length (fragment_names definitions)
    ∧ reported self `prefix_of` reported self'
    ∧ known_fragment_names self ⊆ known_fragment_names self'.
Proof.
  induction definitions as [|[|node] definitions IH]; intros self.
  - exists self. split_and!; [done|simpl; lia|done|done].
  - destruct (IH self) as (self' & Hvisit & Hcount & Hprefix & Hknown).
    exists self'. by split_and!.
  - unfold visit. cbn [foldM enter]. rewrite enter_fragment_definition_Ok.
    cbn [mbind Result_bind].
    match goal with |- context [foldM _ ?s _] => set (self1 := s) end.
    destruct (IH self1) as (self' & Hvisit & Hcount & Hprefix & Hknown).
    exists self'. split; [exact Hvisit|].
    change (fragment_names (FragmentDefinition node :: definitions))
      with (value (name node) :: fragment_names definitions).
    subst self1.
    destruct (known_fragment_names self !! value (name node)) as [first|] eqn:Hget;
      simpl in *.
    + rewrite length_app in Hcount. simpl in Hcount. split_and!; [lia| |done].
      etrans; [|done]. by apply prefix_app_r.
    + rewrite map_size_insert_None in Hcount by done. split_and!; [lia|done|].
      etrans; [|done]. by apply insert_subseteq.
Qed.

(** X18.  Operation definitions do not matter to the rule: visiting a
    list of definitions has the outcome of visiting the fragment
    definitions of the list alone. *)
Theorem operation_definitions_are_skipped definitions : ∀ self,
  visit self definitions = visit self (fragments_only definitions).
Proof.
  induction definitions as [|[|node] definitions IH]; intros self; [done| |].
  - apply IH.
  - change (fragments_only (FragmentDefinition node :: definitions))
      with (FragmentDefinition node :: fragments_only definitions).
    unfold visit. cbn [foldM enter]. rewrite enter_fragment_definition_Ok.
    cbn [mbind Result_bind]. apply IH.
Qed.

(** X19.  From a fresh rule, every error reported on a list of definitions
    has exactly two nodes: the name node of a fragment definition of the
    list, second, and before it the name node of the first definition of
    the same name, which comes earlier in the list and is the node the
    rule has recorded for the name.  Both nodes carry the name that the
    message of the error gives. *)
Theorem reported_errors_pair_definitions_of_one_name definitions :
  ∃ self', visit __init__ definitions = Ok self'
    ∧ ∀ error, error ∈ reported self' →
        ∃ first duplicate,
          nodes error = [first; duplicate]
          ∧ value first = value duplicate
          ∧ message error = duplicate_fragment_name_message (value duplicate)
          ∧ known_fragment_names self' !! value duplicate = Some first
          ∧ ∃ before node after,
              definitions = before ++ FragmentDefinition node :: after
              ∧ name node = duplicate
              ∧ first_definition before (value duplicate) = Some first.
Proof.
  destruct (visit_from [] definitions __init__)
    as (self' & Hvisit & Htracks & Hreported); [done|].
  exists self'. split; [done|]. intros error Hin.
  rewrite Hreported in Hin. simpl in Hin.
  apply elem_of_duplicate_errors
    in Hin as (before & node & after & first & -> & Hfirst & ->).
  simpl in Hfirst. exists first, (name node). split_and!.
  - done.
  - by eapply first_definition_value.
  - done.
  - rewrite Htracks. simpl. by rewrite first_definition_app_l, Hfirst.
  - by exists before, node, after.
Qed.

(** Two fragments of one name among three: one error, two recorded names;
    the operation between them changes nothing. *)
Lemma every_fragment_is_recorded_or_reported_witness :
  ∃ self',
    visit __init__
      [FragmentDefinition (fragment "f" 1); OperationDefinition;
       FragmentDefinition (fragment "g" 2); FragmentDefinition (fragment "f" 3)]
    = Ok self'
    ∧ length (reported self') + size (known_fragment_names self') = 3.
Proof.
  destruct (every_fragment_is_recorded_or_reported
    [FragmentDefinition (fragment "f" 1); OperationDefinition;
     FragmentDefinition (fragment "g" 2); FragmentDefinition (fragment "f" 3)]
    __init__) as (self' & Hvisit & Hcount & _).
  exists self'. split; [done|]. rewrite Hcount. reflexivity.
Defined.
End unique_fragment_names_counts.
